(** * sub-fonts: table-level font transformations

    A shallow embedding of [build_font.py] and [extract_font.py]: the
    width adjustment, the stylistic-set and locale-feature pruning, the
    removal of unneeded tables, the cross-font merge (glyph name map,
    reference remapper, positioning-table merge, character-map rewrite),
    the affine glyph transform and the instancing front end.

    Python values are modelled as follows.
    - [int] is [Z].  A [float] is a binary64 number, kept as a mantissa
      and a binary exponent; every arithmetic operation rounds its exact
      result to 53 significant bits, ties to even, and [int] and [float]
      operands mix as they do in Python.  Infinities, NaN and results
      outside the normal range of a double are not represented.
    - a raised exception is the [Raise] branch of [result]; the state
      mutated before the exception is dropped, as the font is never saved
      in that case.
    - [dict]s that are only read and written by key are [gmap]s; the glyph
      name map, whose keys are visited in insertion order, is an
      association list.
    - table objects that the code walks by reflection ([dir], [hasattr],
      [getattr]) are trees of attribute lists, type [pyval]. *)

From Stdlib Require Import ZArith QArith Qround Qabs Ascii String List Lia Bool.
From stdpp Require Import base option list gmap strings.

Set Warnings "-register-all,-clear-no-such-hyp,-notation-for-abbreviation".

Local Open Scope string_scope.
Local Open Scope list_scope.
Local Open Scope Z_scope.

(** ** Exceptions *)

Inductive exn :=
| ValueError (msg : string)
| KeyError (key : string)
| AttributeError (name : string)
| IndexError (index : nat)
| TypeError (msg : string)
| NotImplementedError (msg : string).

Inductive result (A : Type) :=
| OK (a : A)
| Raise (e : exn).
Arguments OK {A} a.
Arguments Raise {A} e.

#[global] Instance result_ret : MRet result := fun A a => OK a.
#[global] Instance result_bind : MBind result := fun A B k r =>
  match r with
  | OK a => k a
  | Raise e => Raise e
  end.

Definition is_ok {A} (r : result A) : bool :=
  match r with OK _ => true | Raise _ => false end.

(** [d[key]] on a dict: [KeyError] when the key is missing. *)
Definition getitem {V} (d : gmap string V) (key : string) : result V :=
  match d !! key with
  | Some v => OK v
  | None => Raise (KeyError key)
  end.

(** [font[tag]] for a table that may be absent. *)
Definition gettable {T} (tag : string) (t : option T) : result T :=
  match t with
  | Some v => OK v
  | None => Raise (KeyError tag)
  end.

(** Monadic left fold, the shape of a [for] loop whose body may raise. *)
Fixpoint rfold {A S} (body : S -> A -> result S) (l : list A) (s : S) : result S :=
  match l with
  | [] => OK s
  | x :: l' => s' ← body s x; rfold body l' s'
  end.

(** ** Python numerics *)

(** truncation towards zero *)
Definition Qtruncate (q : Q) : Z := Z.quot (Qnum q) (Zpos (Qden q)).

(** nearest integer, ties to the even one *)
Definition Qround_half_even (q : Q) : Z :=
  let f := Qfloor q in
  match Qcompare (q - inject_Z f) (1 # 2) with
  | Lt => f
  | Gt => f + 1
  | Eq => if Z.even f then f else f + 1
  end.

(** [floor(log2(|q|))], for [q] other than zero *)
Definition Qlog2 (q : Q) : Z :=
  let l := Z.log2 (Z.abs (Qnum q)) - Z.log2 (Zpos (Qden q)) in
  if Qle_bool (Qpower 2 l) (Qabs q) then l else l - 1.

(** A [float]: the number [mantissa * 2 ^ exponent]. *)
Record float := mkFloat { mantissa : Z; exponent : Z }.

Definition float_value (x : float) : Q := inject_Z (mantissa x) * Qpower 2 (exponent x).

(** The double nearest to a rational, ties to the even mantissa: the
    rounding of every float operation, and the value of a decimal
    literal. *)
Definition float_of_Q (q : Q) : float :=
  if Qeq_bool q 0 then mkFloat 0 0
  else let e := Qlog2 q - 52 in
       mkFloat (Qround_half_even (q * Qpower 2 (- e))) e.

Inductive number :=
| Int (z : Z)
| Float (x : float).

Coercion Int : Z >-> number.

(** a float written as a decimal literal, [0.29] being [py_float (29 # 100)] *)
Definition py_float (q : Q) : number := Float (float_of_Q q).

(** the float an operand is converted to when the other one is a float *)
Definition as_float (a : number) : float :=
  match a with
  | Int z => float_of_Q (inject_Z z)
  | Float x => x
  end.

Definition float_op (op : Q -> Q -> Q) (a b : number) : number :=
  Float (float_of_Q (op (float_value (as_float a)) (float_value (as_float b)))).

(** [a * b], [a + b], [a - b]: exact on two [int]s, a float operation
    otherwise *)
Definition number_mul (a b : number) : number :=
  match a, b with
  | Int x, Int y => Int (x * y)
  | _, _ => float_op Qmult a b
  end.

Definition number_add (a b : number) : number :=
  match a, b with
  | Int x, Int y => Int (x + y)
  | _, _ => float_op Qplus a b
  end.

Definition number_sub (a b : number) : number :=
  match a, b with
  | Int x, Int y => Int (x - y)
  | _, _ => float_op Qminus a b
  end.

(** the number as a rational *)
Definition number_value (a : number) : Q :=
  match a with
  | Int z => inject_Z z
  | Float x => float_value x
  end.

(** [a / 2]: the true division, a float also on an [int]; the exact
    quotient is rounded once *)
Definition halve (a : number) : number := Float (float_of_Q (number_value a / 2)).

Declare Scope number_scope.
Delimit Scope number_scope with number.
Bind Scope number_scope with number.
Infix "*" := number_mul : number_scope.
Infix "+" := number_add : number_scope.
Infix "-" := number_sub : number_scope.

(** [int(x)]: truncation towards zero. *)
Definition py_int (a : number) : Z :=
  match a with
  | Int z => z
  | Float x => Qtruncate (float_value x)
  end.

(** [int(round(x))]: nearest integer, ties to the even one. *)
Definition py_round (a : number) : Z :=
  match a with
  | Int z => z
  | Float x => Qround_half_even (float_value x)
  end.

Arguments float_of_Q : simpl never.
Arguments number_mul : simpl never.
Arguments number_add : simpl never.
Arguments number_sub : simpl never.
Arguments halve : simpl never.
Arguments py_int : simpl never.
Arguments py_round : simpl never.

(** ** fontTools [Transform]: [(xx, xy, yx, yy, dx, dy)] *)

Record Transform := mkTransform {
  xx : number; xy : number; yx : number; yy : number; dx : number; dy : number }.

(** [Transform()], whose entries are the [int]s 1 and 0 *)
Definition Identity : Transform := mkTransform 1 0 0 1 0 0.

(** [Transform().translate(x, y)] *)
Definition translate (x y : number) : Transform := mkTransform 1 0 0 1 x y.

(** ** Python dicts whose insertion order is observed

    An association list without repeated keys.  [dict_set] overwrites the
    binding of an existing key in place and appends a new key at the end,
    which is the order [items()] yields. *)

Section Dict.
Context {K V : Type} `{EqDecision K}.

Fixpoint dict_get (d : list (K * V)) (k : K) : option V :=
  match d with
  | [] => None
  | (k', v) :: d' => if decide (k' = k) then Some v else dict_get d' k
  end.

Fixpoint dict_set (d : list (K * V)) (k : K) (v : V) : list (K * V) :=
  match d with
  | [] => [(k, v)]
  | (k', v') :: d' =>
      if decide (k' = k) then (k', v) :: d' else (k', v') :: dict_set d' k v
  end.

(** [d.update(other)] *)
Definition dict_update (d other : list (K * V)) : list (K * V) :=
  fold_left (fun acc kv => dict_set acc kv.1 kv.2) other d.

(** [{k: v for ...}] over a sequence of pairs *)
Definition dict_of_items (items : list (K * V)) : list (K * V) :=
  dict_update [] items.

Definition dict_keys (d : list (K * V)) : list K := map fst d.
End Dict.

(** ** Data model *)

Definition merge_font_prefix : string := "inter_".

(** [name.startswith(p)] *)
Definition startswith (p name : string) : bool := String.prefix p name.

(** *** Glyphs

    A glyph of the [glyf] table is either simple (a list of contours) or
    composite (references to other glyphs).  [numberOfContours] is the
    TrueType field: the number of contours, or [-1] for a composite. *)

Inductive Outline :=
| Contours (cs : list (list (Z * Z)))
| Components (refs : list string).

Record Glyph := mkGlyph {
  outline : Outline;
  bbox : option (Z * Z * Z * Z)      (* xMin, yMin, xMax, yMax when present *)
}.

Definition isComposite (g : Glyph) : bool :=
  match outline g with
  | Components _ => true
  | Contours _ => false
  end.

Definition numberOfContours (g : Glyph) : Z :=
  match outline g with
  | Contours cs => Z.of_nat (length cs)
  | Components _ => -1
  end.

(** the points of a simple glyph moved by [(x, y)]; components are not
    points *)
Definition shift_outline (x y : Z) (o : Outline) : Outline :=
  match o with
  | Contours cs => Contours (map (map (fun p => (p.1 + x, p.2 + y))) cs)
  | Components refs => Components refs
  end.

(** [glyphSet[name].draw(pen)]: what the pen is given.  The glyph set
    draws a glyph with its points moved along x by [lsb - xMin], where
    [lsb] is the left side-bearing the glyph has in [hmtx] at that
    moment and [xMin] the left edge of its bounds; a glyph without bounds
    is drawn as it is, and so are the components of a composite.  (A
    draw straight from the [glyf] table, [glyf[name].draw(pen, glyf)],
    moves nothing.) *)
Definition glyph_set_draw (g : Glyph) (metrics : option (Z * Z)) : Glyph :=
  match metrics, bbox g with
  | Some (_, lsb), Some (xMin, _, _, _) =>
      mkGlyph (shift_outline (lsb - xMin) 0 (outline g)) (bbox g)
  | _, _ => g
  end.

(** *** Layout tables (GSUB and GPOS)

    Lookups, features and script/language systems refer to each other by
    position.  The count fields are kept as the attributes the code
    reads and writes. *)

Record feature := mkFeature { LookupListIndex : list nat }.

Record feature_record := mkFeatureRecord {
  FeatureTag : string;
  Feature : feature }.

Record lang_sys := mkLangSys { FeatureIndex : list nat }.

Record lang_sys_record := mkLangSysRecord {
  LangSysTag : string;
  LangSys : lang_sys }.

Record script := mkScript {
  DefaultLangSys : option lang_sys;
  LangSysRecord : list lang_sys_record }.

Record script_record := mkScriptRecord {
  ScriptTag : string;
  Script : script }.

Record script_list := mkScriptList {
  ScriptCount : nat;
  ScriptRecord : list script_record }.

Record feature_list := mkFeatureList {
  FeatureCount : nat;
  FeatureRecord : list feature_record }.

Record lookup_list (L : Type) := mkLookupList {
  LookupCount : nat;
  Lookup : list L }.
Arguments mkLookupList {L} _ _.
Arguments LookupCount {L} _.
Arguments Lookup {L} _.

Record otl_table (L : Type) := mkOtl {
  ScriptList : option script_list;
  FeatureList : option feature_list;
  LookupList : option (lookup_list L) }.
Arguments mkOtl {L} _ _ _.
Arguments ScriptList {L} _.
Arguments FeatureList {L} _.
Arguments LookupList {L} _.

(** Substitution lookups: only the [mapping] of single substitutions is
    read ([hasattr(subtable, 'mapping')]). *)
Record gsub_subtable := mkGsubSubtable {
  mapping : option (list (string * string)) }.

Record gsub_lookup := mkGsubLookup { SubTable : list gsub_subtable }.

(** Positioning lookups are walked by reflection, so they are kept as
    generic object trees.  [PyObj] lists the instance attributes of an
    object, with distinct names, in the order [dir] yields them. *)
Inductive pyval :=
| PyNone
| PyInt (n : Z)                       (* int, float, bool, bytes *)
| PyStr (s : string)
| PyList (items : list pyval)
| PyTuple (items : list pyval)
| PyDict (items : list (string * Z))  (* glyph name -> class *)
| PyObj (attrs : list (string * pyval)).

(** *** Character map *)

Record cmap_subtable := mkCmapSubtable {
  format : Z;
  isUnicode : bool;
  cmap_dict : list (Z * string)       (* [table.cmap] *)
}.

(** *** The font object

    [other_tables] holds the tags of the tables whose contents play no
    role ([STAT], [fvar], [cvar], [cvt ], [name], ...).
    [inter_gpos_merged] is the attribute [_inter_gpos_merged]; an object
    fresh from a file does not have it, which reads as [false]. *)

Record TTFont := mkTTFont {
  glyphOrder : list string;
  glyf : option (gmap string Glyph);
  hmtx : option (gmap string (Z * Z));   (* name -> (advance width, lsb) *)
  cmap : option (list cmap_subtable);
  GSUB : option (otl_table gsub_lookup);
  GPOS : option (otl_table pyval);
  other_tables : gset string;
  inter_gpos_merged : bool
}.

Definition set_glyphOrder (f : TTFont) (v : list string) : TTFont :=
  mkTTFont v (glyf f) (hmtx f) (cmap f) (GSUB f) (GPOS f) (other_tables f)
           (inter_gpos_merged f).
Definition set_glyf (f : TTFont) (v : gmap string Glyph) : TTFont :=
  mkTTFont (glyphOrder f) (Some v) (hmtx f) (cmap f) (GSUB f) (GPOS f)
           (other_tables f) (inter_gpos_merged f).
Definition set_hmtx (f : TTFont) (v : gmap string (Z * Z)) : TTFont :=
  mkTTFont (glyphOrder f) (glyf f) (Some v) (cmap f) (GSUB f) (GPOS f)
           (other_tables f) (inter_gpos_merged f).
Definition set_cmap (f : TTFont) (v : list cmap_subtable) : TTFont :=
  mkTTFont (glyphOrder f) (glyf f) (hmtx f) (Some v) (GSUB f) (GPOS f)
           (other_tables f) (inter_gpos_merged f).
Definition set_GSUB (f : TTFont) (v : option (otl_table gsub_lookup)) : TTFont :=
  mkTTFont (glyphOrder f) (glyf f) (hmtx f) (cmap f) v (GPOS f)
           (other_tables f) (inter_gpos_merged f).
Definition set_GPOS (f : TTFont) (v : option (otl_table pyval)) : TTFont :=
  mkTTFont (glyphOrder f) (glyf f) (hmtx f) (cmap f) (GSUB f) v
           (other_tables f) (inter_gpos_merged f).
Definition set_other_tables (f : TTFont) (v : gset string) : TTFont :=
  mkTTFont (glyphOrder f) (glyf f) (hmtx f) (cmap f) (GSUB f) (GPOS f) v
           (inter_gpos_merged f).
Definition set_inter_gpos_merged (f : TTFont) (v : bool) : TTFont :=
  mkTTFont (glyphOrder f) (glyf f) (hmtx f) (cmap f) (GSUB f) (GPOS f)
           (other_tables f) v.

(** [tag in font] *)
Definition has_table (f : TTFont) (tag : string) : bool :=
  if decide (tag = "glyf") then bool_decide (is_Some (glyf f))
  else if decide (tag = "hmtx") then bool_decide (is_Some (hmtx f))
  else if decide (tag = "cmap") then bool_decide (is_Some (cmap f))
  else if decide (tag = "GSUB") then bool_decide (is_Some (GSUB f))
  else if decide (tag = "GPOS") then bool_decide (is_Some (GPOS f))
  else bool_decide (tag ∈ other_tables f).

(** [font['glyf'][name]] and [font['hmtx'][name]] when present *)
Definition glyph_of (f : TTFont) (name : string) : option Glyph :=
  match glyf f with
  | Some t => t !! name
  | None => None
  end.

Definition metrics_of (f : TTFont) (name : string) : option (Z * Z) :=
  match hmtx f with
  | Some t => t !! name
  | None => None
  end.

(** *** Library operations

    The fontTools routines the programs call, whose code is not part of
    the repository. *)
Class FontTools := {
  (** the glyph a [TTGlyphPen] builds from a glyph drawn through a
      [TransformPen] *)
  pen_glyph : Transform -> Glyph -> Glyph;
  (** the same through a [DecomposingFilterPen] over the glyph set *)
  decomposed_glyph : gmap string Glyph -> string -> Glyph;
  (** [glyph.recalcBounds(glyf_table)] *)
  recalcBounds : gmap string Glyph -> Glyph -> Glyph;
  (** [instantiateVariableFont(font, axes, inplace=False)] *)
  instantiateVariableFont : TTFont -> list (string * Q) -> result TTFont;
  (** [removeOverlaps(font)] *)
  removeOverlaps : TTFont -> result TTFont;
  (** [font.getBestCmap()] *)
  getBestCmap : TTFont -> list (Z * string)
}.

(** ** Attribute access on object trees *)

(** [hasattr(obj, name)] / [getattr(obj, name)]: [None] when the value is
    not an object with that attribute. *)
Definition getattr_opt (obj : pyval) (name : string) : option pyval :=
  match obj with
  | PyObj attrs => dict_get attrs name
  | _ => None
  end.

(** [obj.name], raising [AttributeError] when missing. *)
Definition getattr (obj : pyval) (name : string) : result pyval :=
  match getattr_opt obj name with
  | Some v => OK v
  | None => Raise (AttributeError name)
  end.

(** [obj.name = v] on an object that has the attribute *)
Definition setattr (obj : pyval) (name : string) (v : pyval) : pyval :=
  match obj with
  | PyObj attrs => PyObj (dict_set attrs name v)
  | _ => obj
  end.

(** * extract_font.py *)

Section ExtractFont.
Context `{FontTools}.

(** ** [decompose_composites] *)

Definition decompose_glyph
    (st : gmap string Glyph * option (gmap string (Z * Z)) * nat)
    (glyph_name : string)
    : result (gmap string Glyph * option (gmap string (Z * Z)) * nat) :=
  let '(glyf_table, hmtx_table, count) := st in
  g ← getitem glyf_table glyph_name;
  if isComposite g then
    let metrics := h ← hmtx_table; h !! glyph_name in
    let new_glyph := recalcBounds glyf_table (decomposed_glyph glyf_table glyph_name) in
    let glyf_table' := <[glyph_name := new_glyph]> glyf_table in
    let hmtx_table' :=
      match hmtx_table, metrics with
      | Some h, Some m => Some (<[glyph_name := m]> h)
      | _, _ => hmtx_table
      end in
    mret (glyf_table', hmtx_table', S count)
  else mret st.

Definition decompose_composites (font : TTFont) : result (TTFont * nat) :=
  match glyf font with
  | None => mret (font, 0%nat)
  | Some glyf_table =>
      '(glyf_table', hmtx_table', count) ←
        rfold decompose_glyph (glyphOrder font) (glyf_table, hmtx font, 0%nat);
      mret (mkTTFont (glyphOrder font) (Some glyf_table') hmtx_table' (cmap font)
                     (GSUB font) (GPOS font) (other_tables font)
                     (inter_gpos_merged font), count)
  end.

(** ** [apply_glyph_transform] *)

Definition composite_msg (glyph_name : string) : string :=
  "Glyph '" +:+ glyph_name +:+ "' is still composite; decompose before applying transform.".

(** The test at the head of the loop body in CJK mode: [true] when the
    glyph is skipped ([continue]). *)
Definition cjk_skip (hmtx_table : option (gmap string (Z * Z))) (glyph_name : string) : bool :=
  match hmtx_table with
  | Some h =>
      match h !! glyph_name with
      | Some (advanceWidth, lsb) => negb (advanceWidth =? 1000)
      | None => true
      end
  | None => true
  end.

Definition scale_metrics (transform : Transform) (m : Z * Z) : Z * Z :=
  let '(advanceWidth, lsb) := m in
  (py_round (Int advanceWidth * xx transform),
   py_round (Int lsb * xx transform + Int 0 * xy transform)).

Definition transform_glyph (transform : Transform) (cjk_mode_transform : bool)
    (st : gmap string Glyph * option (gmap string (Z * Z)) * nat)
    (glyph_name : string)
    : result (gmap string Glyph * option (gmap string (Z * Z)) * nat) :=
  let '(glyf_table, hmtx_table, count) := st in
  g ← getitem glyf_table glyph_name;
  if isComposite g then Raise (ValueError (composite_msg glyph_name))
  else if cjk_mode_transform && cjk_skip hmtx_table glyph_name then mret st
  else
    let glyf_table' :=
      if 0 <? numberOfContours g then
        let metrics := h ← hmtx_table; h !! glyph_name in
        let new_glyph := pen_glyph transform (glyph_set_draw g metrics) in
        let new_glyph := if cjk_mode_transform then new_glyph
                         else recalcBounds glyf_table new_glyph in
        <[glyph_name := new_glyph]> glyf_table
      else glyf_table in
    let hmtx_table' :=
      if cjk_mode_transform then hmtx_table
      else match hmtx_table with
           | Some h =>
               match h !! glyph_name with
               | Some m => Some (<[glyph_name := scale_metrics transform m]> h)
               | None => hmtx_table
               end
           | None => hmtx_table
           end in
    mret (glyf_table', hmtx_table', S count).

Definition apply_glyph_transform (font : TTFont) (transform : Transform)
    (cjk_mode_transform : bool) : result (TTFont * nat) :=
  match glyf font with
  | None => mret (font, 0%nat)
  | Some glyf_table =>
      '(glyf_table', hmtx_table', count) ←
        rfold (transform_glyph transform cjk_mode_transform) (glyphOrder font)
              (glyf_table, hmtx font, 0%nat);
      mret (mkTTFont (glyphOrder font) (Some glyf_table') hmtx_table' (cmap font)
                     (GSUB font) (GPOS font) (other_tables font)
                     (inter_gpos_merged font), count)
  end.

(** ** [apply_gpos_transform]

    Value records and anchors are objects whose numeric attributes are
    [PyInt]s.  Every helper returns the updated object together with
    the [changed] flag of the source. *)

Definition truthy (v : pyval) : bool :=
  match v with
  | PyNone | PyInt 0 | PyStr "" | PyList [] | PyTuple [] | PyDict [] => false
  | _ => true
  end.

(** [if hasattr(o, name) and o.name is not None:
        new_val = int(round(<new o.name>))
        if new_val != o.name: o.name = new_val; changed = True] *)
Definition adjust_field (name : string) (new : Z -> number) (st : pyval * bool)
    : pyval * bool :=
  match getattr_opt st.1 name with
  | Some (PyInt v) =>
      let new_val := py_round (new v) in
      if new_val =? v then st else (setattr st.1 name (PyInt new_val), true)
  | _ => st
  end.

Definition adjust_value_record (transform : Transform) (vr : pyval) : result (pyval * bool) :=
  mret (adjust_field "YAdvance" (fun v => Int v * yy transform)%number
         (adjust_field "XAdvance" (fun v => Int v * xx transform)%number
           (adjust_field "YPlacement" (fun v => Int v * yy transform + dy transform)%number
             (adjust_field "XPlacement" (fun v => Int v * xx transform + dx transform)%number
                (vr, false))))).

Definition adjust_anchor (transform : Transform) (anchor : pyval) : result (pyval * bool) :=
  mret (adjust_field "YCoordinate" (fun v => Int v * yy transform + dy transform)%number
         (adjust_field "XCoordinate" (fun v => Int v * xx transform + dx transform)%number
            (anchor, false))).

(** [o.name] rewritten by [f] *)
Definition on_attr (name : string) (f : pyval -> result (pyval * bool)) (obj : pyval)
    : result (pyval * bool) :=
  v ← getattr obj name;
  r ← f v;
  mret (setattr obj name r.1, r.2).

(** [if hasattr(o, name) and o.name: ...] *)
Definition on_attr_if_set (name : string) (f : pyval -> result (pyval * bool)) (obj : pyval)
    : result (pyval * bool) :=
  match getattr_opt obj name with
  | Some v => if truthy v then on_attr name f obj else mret (obj, false)
  | None => mret (obj, false)
  end.

Fixpoint on_each (f : pyval -> result (pyval * bool)) (l : list pyval)
    : result (list pyval * bool) :=
  match l with
  | [] => mret ([], false)
  | x :: l' =>
      r ← f x;
      rs ← on_each f l';
      mret (r.1 :: rs.1, r.2 || rs.2)
  end.

(** [for x in v: ...] *)
Definition on_items (f : pyval -> result (pyval * bool)) (v : pyval) : result (pyval * bool) :=
  match v with
  | PyList l => r ← on_each f l; mret (PyList r.1, r.2)
  | PyTuple l => r ← on_each f l; mret (PyTuple r.1, r.2)
  | _ => Raise (TypeError "object is not iterable")
  end.

(** two updates in sequence on the same object *)
Definition and_then (f g : pyval -> result (pyval * bool)) (obj : pyval)
    : result (pyval * bool) :=
  r1 ← f obj;
  r2 ← g r1.1;
  mret (r2.1, r1.2 || r2.2).

Definition adjust_values12 (transform : Transform) : pyval -> result (pyval * bool) :=
  and_then (on_attr "Value1" (adjust_value_record transform))
           (on_attr "Value2" (adjust_value_record transform)).

Definition adjust_mark_array (transform : Transform) (name : string)
    : pyval -> result (pyval * bool) :=
  on_attr_if_set name
    (on_attr "MarkRecord" (on_items (on_attr "MarkAnchor" (adjust_anchor transform)))).

Definition adjust_anchor_matrix (transform : Transform) (array recs anchors : string)
    : pyval -> result (pyval * bool) :=
  on_attr_if_set array
    (on_attr recs (on_items (on_attr anchors (on_items (adjust_anchor transform))))).

Definition transform_subtable (transform : Transform) (ltype : pyval) (sub : pyval)
    : result (pyval * bool) :=
  match ltype with
  | PyInt 1 =>
      fmt ← getattr sub "Format";
      match fmt with
      | PyInt 1 => on_attr "Value" (adjust_value_record transform) sub
      | PyInt 2 => on_attr "Value" (on_items (adjust_value_record transform)) sub
      | _ => mret (sub, false)
      end
  | PyInt 2 =>
      fmt ← getattr sub "Format";
      match fmt with
      | PyInt 1 =>
          on_attr "PairSet"
            (on_items (on_attr "PairValueRecord" (on_items (adjust_values12 transform)))) sub
      | PyInt 2 =>
          on_attr "Class1Record"
            (on_items (on_attr "Class2Record" (on_items (adjust_values12 transform)))) sub
      | _ => mret (sub, false)
      end
  | PyInt 3 =>
      on_attr_if_set "EntryExitRecord"
        (on_items (and_then (on_attr "EntryAnchor" (adjust_anchor transform))
                            (on_attr "ExitAnchor" (adjust_anchor transform)))) sub
  | PyInt 4 =>
      and_then (adjust_mark_array transform "MarkArray")
               (adjust_anchor_matrix transform "BaseArray" "BaseRecord" "BaseAnchor") sub
  | PyInt 5 =>
      and_then (adjust_mark_array transform "MarkArray")
               (on_attr_if_set "LigatureArray"
                  (on_attr "LigatureAttach"
                     (on_items (on_attr "ComponentRecord"
                        (on_items (on_attr "LigatureAnchor"
                           (on_items (adjust_anchor transform)))))))) sub
  | PyInt 6 =>
      and_then (adjust_mark_array transform "Mark1Array")
               (adjust_anchor_matrix transform "Mark2Array" "Mark2Record" "Mark2Anchor") sub
  | _ => mret (sub, false)
  end.

Definition transform_lookup (transform : Transform) (st : list pyval * nat) (lookup : pyval)
    : result (list pyval * nat) :=
  ltype ← getattr lookup "LookupType";
  '(lookup', lookup_changed) ←
    on_attr "SubTable" (on_items (transform_subtable transform ltype)) lookup;
  mret (st.1 ++ [lookup'], if lookup_changed : bool then S st.2 else st.2).

Definition apply_gpos_transform (font : TTFont) (transform : Transform)
    : result (TTFont * nat) :=
  match GPOS font with
  | None => mret (font, 0%nat)
  | Some gpos =>
      match LookupList gpos with
      | None => mret (font, 0%nat)
      | Some ll =>
          r ← rfold (transform_lookup transform) (Lookup ll) ([], 0%nat);
          let gpos' := mkOtl (ScriptList gpos) (FeatureList gpos)
                             (Some (mkLookupList (LookupCount ll) r.1)) in
          mret (set_GPOS font (Some gpos'), r.2)
      end
  end.

(** ** [extract_font]

    The font read from [input_path] is the argument [font]; the font
    handed to [font.save] is the result.  Of the printed lines only the
    warning is kept. *)

Inductive diagnostic :=
| Warning_axis_settings_ignored.

(** [if axis_settings:] on [None] or a dict *)
Definition axis_settings_given (axis_settings : option (list (string * Q))) : bool :=
  match axis_settings with
  | Some (_ :: _) => true
  | _ => false
  end.

Definition instantiate (font : TTFont) (axis_settings : option (list (string * Q)))
    : result (TTFont * list diagnostic) :=
  if has_table font "fvar" then
    if negb (axis_settings_given axis_settings) then
      Raise (ValueError "Font is variable but no axis settings provided.")
    else
      font ← instantiateVariableFont font (default [] axis_settings);
      font ← removeOverlaps font;
      mret (font, [])
  else
    if axis_settings_given axis_settings then
      mret (font, [Warning_axis_settings_ignored])
    else mret (font, []).

Definition transform_stage (font : TTFont) (transform : option Transform)
    (cjk_mode_transform : bool) : result TTFont :=
  match transform with
  | None => mret font
  | Some t =>
      r ← apply_glyph_transform font t cjk_mode_transform;
      if negb cjk_mode_transform then
        r' ← apply_gpos_transform r.1 t; mret r'.1
      else mret r.1
  end.

Definition extract_font (font : TTFont) (axis_settings : option (list (string * Q)))
    (transform : option Transform) (cjk_mode_transform skip_decomposition : bool)
    : result (TTFont * list diagnostic) :=
  r ← instantiate font axis_settings;
  font ← (if skip_decomposition then mret r.1
          else d ← decompose_composites r.1; mret d.1);
  font ← transform_stage font transform cjk_mode_transform;
  mret (font, r.2).
End ExtractFont.

(** * build_font.py *)

Section BuildFont.
Context `{FontTools}.

(** ** [process_glyphs] *)

(** [expand = int(width * cjk_width_extend_percent / 2)] *)
Definition expand_of (width : Z) (cjk_width_extend_percent : number) : Z :=
  py_int (halve (Int width * cjk_width_extend_percent)).

Definition process_glyph (cjk_width_extend_percent : number)
    (st : gmap string Glyph * gmap string (Z * Z) * gset string * gset string)
    (glyph_name : string)
    : result (gmap string Glyph * gmap string (Z * Z) * gset string * gset string) :=
  let '(glyf_table, hmtx_table, processed_glyphs, unprocessed_glyphs) := st in
  '(width, lsb) ← getitem hmtx_table glyph_name;
  if (1000 <=? width) && negb (startswith merge_font_prefix glyph_name) then
    let expand := expand_of width cjk_width_extend_percent in
    g ← getitem glyf_table glyph_name;
    let new_glyph := pen_glyph (translate 0 0) (glyph_set_draw g (Some (width, lsb))) in
    mret (<[glyph_name := new_glyph]> glyf_table,
          <[glyph_name := (width + expand * 2, lsb + expand)]> hmtx_table,
          {[glyph_name]} ∪ processed_glyphs, unprocessed_glyphs)
  else
    mret (glyf_table, hmtx_table, processed_glyphs, {[glyph_name]} ∪ unprocessed_glyphs).

Definition process_glyphs (font : TTFont) (cjk_width_extend_percent : number)
    : result (TTFont * gset string * gset string) :=
  glyf_table ← gettable "glyf" (glyf font);
  hmtx_table ← gettable "hmtx" (hmtx font);
  '(glyf_table', hmtx_table', processed_glyphs, unprocessed_glyphs) ←
    rfold (process_glyph cjk_width_extend_percent) (glyphOrder font)
          (glyf_table, hmtx_table, ∅, ∅);
  mret (set_hmtx (set_glyf font glyf_table') hmtx_table',
        processed_glyphs, unprocessed_glyphs).

(** ** [set_font_parameter], [set_line_gap]

    Both rewrite fields of the [name], [hhea] and [OS/2] tables, whose
    contents are outside the model; only the table access remains. *)

Definition set_font_parameter (font : TTFont) : result TTFont :=
  if has_table font "name" then mret font else Raise (KeyError "name").

Definition set_line_gap (font : TTFont) : TTFont := font.

(** ** [remove_font_tables] *)

Definition remove_font_tables (font : TTFont) : TTFont :=
  let tags := other_tables font in
  let tags := if has_table font "STAT" then tags ∖ {["STAT"]} else tags in
  let cv_tables := filter (fun tag => startswith "cv" tag = true) (elements tags) in
  let tags := fold_left (fun acc tag => acc ∖ {[tag]}) cv_tables tags in
  let font := set_other_tables font tags in
  if has_table font "GSUB" then set_GSUB font None else font.

(** ** Feature pruning *)

(** [[i for i, f in enumerate(records) if p(f.FeatureTag)]] *)
Definition feature_indices (p : string -> bool) (records : list feature_record) : list nat :=
  map fst (filter (fun x => p (FeatureTag x.2) = true) (imap pair records)).

(** [[f for i, f in enumerate(records) if i not in indices]] *)
Definition drop_indices (indices : list nat) (records : list feature_record)
    : list feature_record :=
  map snd (filter (fun x => x.1 ∉ indices) (imap pair records)).

(** [langSys.FeatureIndex = [idx for idx in langSys.FeatureIndex if idx not in indices]] *)
Definition prune_lang_sys (indices : list nat) (ls : lang_sys) : lang_sys :=
  mkLangSys (filter (fun idx => idx ∉ indices) (FeatureIndex ls)).

(** the loop over [DefaultLangSys] (skipped when [None]) and every
    [LangSysRecord] of a script *)
Definition prune_script_record (indices : list nat) (sr : script_record) : script_record :=
  mkScriptRecord (ScriptTag sr)
    (mkScript (prune_lang_sys indices <$> DefaultLangSys (Script sr))
              (map (fun lsr => mkLangSysRecord (LangSysTag lsr)
                                 (prune_lang_sys indices (LangSys lsr)))
                   (LangSysRecord (Script sr)))).

Definition prune_features (indices : list nat) (gsub : otl_table gsub_lookup)
    (fl : feature_list) (sl : script_list) : otl_table gsub_lookup :=
  mkOtl (Some (mkScriptList (ScriptCount sl)
                 (map (prune_script_record indices) (ScriptRecord sl))))
        (Some (mkFeatureList (FeatureCount fl)
                 (drop_indices indices (FeatureRecord fl))))
        (LookupList gsub).

(** [f'ss{str(i).zfill(2)}' for i in range(1, 21)] *)
Definition ssXX_tags : list string :=
  ["ss01"; "ss02"; "ss03"; "ss04"; "ss05"; "ss06"; "ss07"; "ss08"; "ss09"; "ss10";
   "ss11"; "ss12"; "ss13"; "ss14"; "ss15"; "ss16"; "ss17"; "ss18"; "ss19"; "ss20"].

Definition is_ssXX (tag : string) : bool := bool_decide (tag ∈ ssXX_tags).

(** ** [remove_stylistic_sets] *)

Definition remove_stylistic_sets (font : TTFont) : result TTFont :=
  match GSUB font with
  | None => mret font
  | Some gsub =>
      featureList ← match FeatureList gsub with
                    | Some fl => OK fl
                    | None => Raise (AttributeError "FeatureRecord")
                    end;
      let ssXX_indices := feature_indices is_ssXX (FeatureRecord featureList) in
      scriptList ← match ScriptList gsub with
                   | Some sl => OK sl
                   | None => Raise (AttributeError "ScriptRecord")
                   end;
      mret (set_GSUB font (Some (prune_features ssXX_indices gsub featureList scriptList)))
  end.

(** ** [remove_locl_feature] *)

Definition remove_locl_feature (font : TTFont) : result TTFont :=
  match GSUB font with
  | None => mret font
  | Some gsub =>
      featureList ← match FeatureList gsub with
                    | Some fl => OK fl
                    | None => Raise (AttributeError "FeatureRecord")
                    end;
      let locl_indices :=
        feature_indices (fun tag => bool_decide (tag = "locl")) (FeatureRecord featureList) in
      match locl_indices with
      | [] => mret font
      | _ =>
          scriptList ← match ScriptList gsub with
                       | Some sl => OK sl
                       | None => Raise (AttributeError "ScriptRecord")
                       end;
          mret (set_GSUB font (Some (prune_features locl_indices gsub featureList scriptList)))
      end
  end.

(** ** [apply_stylistic_sets] *)

(** the body run for one [src, dst] pair of a single-substitution
    [mapping]; [if glyf:] holds for a table with at least one glyph *)
Definition apply_substitution (glyph_order : list string)
    (st : option (gmap string Glyph) * option (gmap string (Z * Z)))
    (sd : string * string)
    : result (option (gmap string Glyph) * option (gmap string (Z * Z))) :=
  let '(src, dst) := sd in
  if bool_decide (src ∈ glyph_order) && bool_decide (dst ∈ glyph_order) then
    glyf' ← match st.1 with
            | Some g =>
                if bool_decide (dom g = ∅) then mret st.1
                else d ← getitem g dst; mret (Some (<[src := d]> g))
            | None => mret st.1
            end;
    hmtx' ← match st.2 with
            | Some h => m ← getitem h dst; mret (Some (<[src := m]> h))
            | None => mret st.2
            end;
    mret (glyf', hmtx')
  else mret st.

Definition apply_subtable (glyph_order : list string)
    (st : option (gmap string Glyph) * option (gmap string (Z * Z)))
    (subtable : gsub_subtable) :=
  match mapping subtable with
  | Some m => rfold (apply_substitution glyph_order) m st
  | None => mret st
  end.

Definition apply_lookup_index (glyph_order : list string)
    (lookupList : option (lookup_list gsub_lookup))
    (st : option (gmap string Glyph) * option (gmap string (Z * Z)))
    (lookup_idx : nat) :=
  ll ← match lookupList with
       | Some ll => OK ll
       | None => Raise (AttributeError "Lookup")
       end;
  lookup ← match Lookup ll !! lookup_idx with
           | Some l => OK l
           | None => Raise (IndexError lookup_idx)
           end;
  rfold (apply_subtable glyph_order) (SubTable lookup) st.

Definition apply_stylistic_sets (font : TTFont) (tag : string) : result TTFont :=
  match GSUB font with
  | None => mret font
  | Some gsub =>
      featureList ← match FeatureList gsub with
                    | Some fl => OK fl
                    | None => Raise (AttributeError "FeatureRecord")
                    end;
      let ssXX_features :=
        filter (fun f => FeatureTag f = tag) (FeatureRecord featureList) in
      '(glyf', hmtx') ←
        rfold (fun st f =>
                 rfold (apply_lookup_index (glyphOrder font) (LookupList gsub))
                       (LookupListIndex (Feature f)) st)
              ssXX_features (glyf font, hmtx font);
      mret (mkTTFont (glyphOrder font) glyf' hmtx' (cmap font) (GSUB font) (GPOS font)
                     (other_tables font) (inter_gpos_merged font))
  end.

(** ** The reference remapper ([remap] inside [merge_inter_font_gpos_table])

    [inter_name_map.get(g, g)] *)
Definition rename (inter_name_map : list (string * string)) (g : string) : string :=
  default g (dict_get inter_name_map g).

Definition rename_item (inter_name_map : list (string * string)) (v : pyval) : pyval :=
  match v with
  | PyStr g => PyStr (rename inter_name_map g)
  | _ => v
  end.

(** [{inter_name_map.get(g, g): cls for g, cls in classDefs.items()}] *)
Definition rename_classDefs (inter_name_map : list (string * string)) (v : pyval) : pyval :=
  match v with
  | PyDict d =>
      PyDict (dict_of_items (map (fun gc => (rename inter_name_map gc.1, gc.2)) d))
  | _ => v
  end.

(** An assignment [obj.name = f(obj.name)] guarded by [hasattr(obj, name)].
    Attribute names of an object are distinct, so the update is written
    as a map over the attribute list. *)
Definition update_binding (name : string) (f : pyval -> pyval) (nv : string * pyval)
    : string * pyval :=
  if decide (nv.1 = name) then (nv.1, f nv.2) else nv.

Definition update_attr (name : string) (f : pyval -> pyval) (attrs : list (string * pyval))
    : list (string * pyval) :=
  map (update_binding name f) attrs.

Definition on_obj (f : list (string * pyval) -> list (string * pyval)) (v : pyval) : pyval :=
  match v with
  | PyObj attrs => PyObj (f attrs)
  | _ => v
  end.

Definition on_list (f : pyval -> pyval) (v : pyval) : pyval :=
  match v with
  | PyList l => PyList (map f l)
  | _ => v
  end.

(** [obj.ClassDef1.classDefs = {...}] *)
Definition rename_ClassDef (inter_name_map : list (string * string)) : pyval -> pyval :=
  on_obj (update_attr "classDefs" (rename_classDefs inter_name_map)).

(** the loop over [obj.PairSet], [pairSet.PairValueRecord] and
    [pvr.SecondGlyph] *)
Definition rename_pvr (inter_name_map : list (string * string)) : pyval -> pyval :=
  on_obj (update_attr "SecondGlyph" (rename_item inter_name_map)).

Definition rename_pairSet (inter_name_map : list (string * string)) : pyval -> pyval :=
  on_obj (update_attr "PairValueRecord" (on_list (rename_pvr inter_name_map))).

Definition rename_PairSet (inter_name_map : list (string * string)) : pyval -> pyval :=
  on_list (rename_pairSet inter_name_map).

(** The attribute scan at the end of [remap], for one attribute.  An
    object held by [ExtSubTable] has just been visited and is returned
    as it is; tuples are iterated without any effect. *)
Definition scan_attr (rec : pyval -> pyval) (nv : string * pyval) : string * pyval :=
  if startswith "_" nv.1 then nv
  else match nv.2 with
       | PyList l => (nv.1, PyList (map rec l))
       | PyObj _ => if decide (nv.1 = "ExtSubTable") then nv else (nv.1, rec nv.2)
       | _ => nv
       end.

(** [remap(obj)].  The table objects form a tree after [deepcopy], so
    the [visited] set only ever stops the second visit of
    [ExtSubTable]; [fuel] bounds the depth of the recursion. *)
Fixpoint remap_fuel (inter_name_map : list (string * string)) (fuel : nat) (obj : pyval)
    : pyval :=
  match fuel with
  | O => obj
  | S fuel' =>
      match obj with
      | PyObj attrs =>
          let attrs := update_attr "glyphs" (on_list (rename_item inter_name_map)) attrs in
          let attrs := update_attr "classDefs" (rename_classDefs inter_name_map) attrs in
          let attrs := update_attr "ClassDef1" (rename_ClassDef inter_name_map) attrs in
          let attrs := update_attr "ClassDef2" (rename_ClassDef inter_name_map) attrs in
          let attrs := update_attr "PairSet" (rename_PairSet inter_name_map) attrs in
          let attrs := update_attr "ExtSubTable" (remap_fuel inter_name_map fuel') attrs in
          PyObj (map (scan_attr (remap_fuel inter_name_map fuel')) attrs)
      | _ => obj
      end
  end.

(** nesting depth of a tree *)
Fixpoint height (v : pyval) : nat :=
  match v with
  | PyList l | PyTuple l => S (foldr (fun x acc => max (height x) acc) 0%nat l)
  | PyObj attrs => S (foldr (fun nv acc => max (height nv.2) acc) 0%nat attrs)
  | _ => 1%nat
  end.

Definition remap (inter_name_map : list (string * string)) (obj : pyval) : pyval :=
  remap_fuel inter_name_map (height obj) obj.

(** One attribute through the steps of [remap]: the value after the
    assignments that concern its name, then the scan. *)
Definition assigned_value (inter_name_map : list (string * string)) (rec : pyval -> pyval)
    (name : string) (val : pyval) : pyval :=
  if decide (name = "glyphs") then on_list (rename_item inter_name_map) val
  else if decide (name = "classDefs") then rename_classDefs inter_name_map val
  else if decide (name = "ClassDef1") then rename_ClassDef inter_name_map val
  else if decide (name = "ClassDef2") then rename_ClassDef inter_name_map val
  else if decide (name = "PairSet") then rename_PairSet inter_name_map val
  else if decide (name = "ExtSubTable") then rec val
  else val.

Definition remap_attr (inter_name_map : list (string * string)) (rec : pyval -> pyval)
    (nv : string * pyval) : string * pyval :=
  scan_attr rec (nv.1, assigned_value inter_name_map rec nv.1 nv.2).

(** [remap(new_gpos.table)]: from the table object the scan reaches the
    lookups through [LookupList.Lookup]; the feature and script lists
    hold tags and indices only and come back unchanged. *)
Definition remap_table (inter_name_map : list (string * string)) (t : otl_table pyval)
    : otl_table pyval :=
  mkOtl (ScriptList t) (FeatureList t)
        ((fun ll => mkLookupList (LookupCount ll) (map (remap inter_name_map) (Lookup ll)))
           <$> LookupList t).

(** ** [merge_inter_font_gpos_table] *)

(** [new_fr.Feature.LookupListIndex = [lookup_offset + i for i in ...]] *)
Definition offset_feature_record (lookup_offset : nat) (fr : feature_record)
    : feature_record :=
  mkFeatureRecord (FeatureTag fr)
    (mkFeature (map (fun i => (lookup_offset + i)%nat) (LookupListIndex (Feature fr)))).

Definition offset_lang_sys (feature_offset : nat) (ls : lang_sys) : lang_sys :=
  mkLangSys (map (fun fi => (feature_offset + fi)%nat) (FeatureIndex ls)).

Definition offset_script_record (feature_offset : nat) (srec : script_record)
    : script_record :=
  mkScriptRecord (ScriptTag srec)
    (mkScript (offset_lang_sys feature_offset <$> DefaultLangSys (Script srec))
              (map (fun lsr => mkLangSysRecord (LangSysTag lsr)
                                 (offset_lang_sys feature_offset (LangSys lsr)))
                   (LangSysRecord (Script srec)))).

(** [for src_lookup in ...: tgt.LookupList.Lookup.insert(0, src_lookup)] *)
Definition insert_lookups (src tgt : list pyval) : list pyval :=
  fold_left (fun acc src_lookup => src_lookup :: acc) src tgt.

Definition merge_gpos_tables (tgt_gpos src_gpos : otl_table pyval)
    : result (otl_table pyval) :=
  tgt_ll ← match LookupList tgt_gpos with
           | Some ll => OK ll
           | None => Raise (AttributeError "LookupCount")
           end;
  let lookup_offset := LookupCount tgt_ll in
  tgt_fl ← match FeatureList tgt_gpos with
           | Some fl => OK fl
           | None => Raise (AttributeError "FeatureCount")
           end;
  let feature_offset := FeatureCount tgt_fl in
  src_ll ← match LookupList src_gpos with
           | Some ll => OK ll
           | None => Raise (AttributeError "Lookup")
           end;
  let lookups := insert_lookups (Lookup src_ll) (Lookup tgt_ll) in
  let src_features := match FeatureList src_gpos with
                      | Some fl => FeatureRecord fl
                      | None => []
                      end in
  let features :=
    FeatureRecord tgt_fl ++ map (offset_feature_record lookup_offset) src_features in
  let src_scripts := match ScriptList src_gpos with
                     | Some sl => ScriptRecord sl
                     | None => []
                     end in
  tgt_sl ← match ScriptList tgt_gpos with
           | Some sl => OK sl
           | None => Raise (AttributeError "ScriptRecord")
           end;
  let scripts :=
    ScriptRecord tgt_sl ++ map (offset_script_record feature_offset) src_scripts in
  mret (mkOtl (Some (mkScriptList (length scripts) scripts))
              (Some (mkFeatureList (length features) features))
              (Some (mkLookupList (length lookups) lookups))).

Definition merge_inter_font_gpos_table (target_font inter_font : TTFont)
    (inter_name_map : list (string * string)) : result TTFont :=
  if inter_gpos_merged target_font then mret target_font
  else match GPOS inter_font with
       | None => mret (set_inter_gpos_merged target_font true)
       | Some inter_gpos =>
           match GPOS target_font with
           | None =>
               let new_gpos := remap_table inter_name_map inter_gpos in
               mret (set_inter_gpos_merged (set_GPOS target_font (Some new_gpos)) true)
           | Some tgt_gpos =>
               merged ← merge_gpos_tables tgt_gpos (remap_table inter_name_map inter_gpos);
               mret (set_inter_gpos_merged (set_GPOS target_font (Some merged)) true)
           end
       end.

(** ** [merge_inter_font] *)

(** The loop that fills [inter_name_map] and appends the prefixed names
    to the glyph order of the target. *)
Definition add_inter_name (st : list (string * string) * list string)
    (inter_glyph_name : string) : list (string * string) * list string :=
  let new_glyph_name := merge_font_prefix +:+ inter_glyph_name in
  (dict_set st.1 inter_glyph_name new_glyph_name, st.2 ++ [new_glyph_name]).

Definition build_inter_name_map (inter_glyph_order target_glyph_order : list string)
    : list (string * string) * list string :=
  fold_left add_inter_name inter_glyph_order ([], target_glyph_order).

(** Step 1: copy of one glyph and its metrics. *)
Definition copy_inter_glyph (inter_glyf : gmap string Glyph)
    (inter_hmtx : gmap string (Z * Z))
    (st : gmap string Glyph * gmap string (Z * Z)) (names : string * string)
    : result (gmap string Glyph * gmap string (Z * Z)) :=
  let '(inter_glyph_name, new_glyph_name) := names in
  glyph ← getitem inter_glyf inter_glyph_name;
  if isComposite glyph then Raise (NotImplementedError "Composite glyph not supported.")
  else
    let target_glyf := <[new_glyph_name := pen_glyph Identity glyph]> st.1 in
    let target_hmtx := match inter_hmtx !! inter_glyph_name with
                       | Some m => <[new_glyph_name := m]> st.2
                       | None => st.2
                       end in
    mret (target_glyf, target_hmtx).

(** The punctuation tiers. *)
Definition inter_punc_map (replace_punc : Z) : list (Z * string) :=
  if 2 <=? replace_punc then
    [(0xFF0C, "comma"); (0xFF1A, "colon"); (0xFF1B, "semicolon");
     (0xFF01, "exclam"); (0xFF1F, "question")]
  else if 1 <=? replace_punc then [(0xFF01, "exclam"); (0xFF1F, "question")]
  else [].

(** [get_glyph_bbox]: the box and its centre *)
Definition get_glyph_bbox (glyph : Glyph) : result (Z * Z * Z * Z * number * number) :=
  match bbox glyph with
  | Some (xMin, yMin, xMax, yMax) =>
      mret (xMin, yMin, xMax, yMax,
            halve (Int (xMin + xMax)), halve (Int (yMin + yMax)))
  | None => Raise (ValueError "Glyph has no bounding box.")
  end.

Definition replace_punctuation (target_font : TTFont) (inter_glyf : gmap string Glyph)
    (inter_hmtx target_hmtx : gmap string (Z * Z)) (inter_name_map : list (string * string))
    (target_glyf : gmap string Glyph) (entry : Z * string)
    : result (gmap string Glyph) :=
  let '(cp, inter_glyph_name) := entry in
  match dict_get inter_name_map inter_glyph_name with
  | None =>
      Raise (ValueError ("Inter glyph '" +:+ inter_glyph_name
                         +:+ "' not found in Inter font."))
  | Some _ =>
      match dict_get (getBestCmap target_font) cp with
      | None => mret target_glyf
      | Some target_glyph_name =>
          '(cjk_width, cjk_lsb) ← getitem target_hmtx target_glyph_name;
          '(inter_width, inter_lsb) ← getitem inter_hmtx inter_glyph_name;
          let shift := (cjk_width - inter_width) `div` 2 - inter_lsb in
          transform ←
            (if bool_decide (cp = 0xFF0C ∨ cp = 0xFF1A ∨ cp = 0xFF1B) then
               target_glyph ← getitem target_glyf target_glyph_name;
               original_bbox ← get_glyph_bbox target_glyph;
               inter_glyph ← getitem inter_glyf inter_glyph_name;
               inter_bbox ← get_glyph_bbox inter_glyph;
               mret (translate (original_bbox.1.2 - inter_bbox.1.2)%number
                               (original_bbox.2 - inter_bbox.2)%number)
             else mret (translate (Int shift) 0));
          inter_glyph ← getitem inter_glyf inter_glyph_name;
          mret (<[target_glyph_name := pen_glyph transform inter_glyph]> target_glyf)
      end
  end.

(** Step 2: the character map.  [union_cmap] is the dict built by
    [d.update(table.cmap)] over all subtables. *)
Definition union_cmap (tables : list cmap_subtable) : list (Z * string) :=
  fold_left (fun acc table => dict_update acc (cmap_dict table)) tables [].

Definition is_control (cp : Z) : bool :=
  (cp <? 0x20) || ((0x7F <=? cp) && (cp <? 0xA0)).

(** the width test that keeps an existing mapping *)
Definition keeps_target (target_cmap : list (Z * string))
    (target_hmtx : gmap string (Z * Z)) (cp : Z) : bool :=
  match dict_get target_cmap cp with
  | Some target_glyph_name =>
      if bool_decide (target_glyph_name = "") then false
      else match target_hmtx !! target_glyph_name with
           | Some (width, lsb) => 1000 <=? width
           | None => false
           end
  | None => false
  end.

(** the update of one subtable of the target *)
Definition update_subtable (cp : Z) (new_glyph_name : string) (table : cmap_subtable)
    : cmap_subtable :=
  if isUnicode table then
    if format table =? 4 then
      if cp <=? 0xFFFF then
        mkCmapSubtable (format table) (isUnicode table)
                       (dict_set (cmap_dict table) cp new_glyph_name)
      else table
    else if format table =? 12 then
      mkCmapSubtable (format table) (isUnicode table)
                     (dict_set (cmap_dict table) cp new_glyph_name)
    else table
  else table.

Definition update_cmap_entry (target_cmap : list (Z * string))
    (target_hmtx : gmap string (Z * Z)) (inter_name_map : list (string * string))
    (tables : list cmap_subtable) (entry : Z * string) : result (list cmap_subtable) :=
  let '(cp, inter_glyph_name) := entry in
  if is_control cp then mret tables
  else if keeps_target target_cmap target_hmtx cp then mret tables
  else
    new_glyph_name ← match dict_get inter_name_map inter_glyph_name with
                     | Some n => OK n
                     | None => Raise (KeyError inter_glyph_name)
                     end;
    mret (map (update_subtable cp new_glyph_name) tables).

Definition update_cmap (inter_tables target_tables : list cmap_subtable)
    (target_hmtx : gmap string (Z * Z)) (inter_name_map : list (string * string))
    : result (list cmap_subtable) :=
  let inter_cmap := union_cmap inter_tables in
  let target_cmap := union_cmap target_tables in
  rfold (update_cmap_entry target_cmap target_hmtx inter_name_map) inter_cmap
        target_tables.

(** [target_glyph_order] is the list object held by the font, so the
    appended names are in the glyph order of the target from the first
    loop on. *)
Definition merge_inter_font (target_font inter_font : TTFont) (replace_punc : Z)
    : result TTFont :=
  if has_table inter_font "fvar" then
    Raise (ValueError "Inter font must be a static font without 'fvar' table.")
  else
    inter_glyf ← gettable "glyf" (glyf inter_font);
    inter_hmtx ← gettable "hmtx" (hmtx inter_font);
    target_glyf ← gettable "glyf" (glyf target_font);
    target_hmtx ← gettable "hmtx" (hmtx target_font);
    let '(inter_name_map, target_glyph_order) :=
      build_inter_name_map (glyphOrder inter_font) (glyphOrder target_font) in
    let target_font := set_glyphOrder target_font target_glyph_order in
    target_font ← merge_inter_font_gpos_table target_font inter_font inter_name_map;
    '(target_glyf, target_hmtx) ←
      rfold (copy_inter_glyph inter_glyf inter_hmtx) inter_name_map
            (target_glyf, target_hmtx);
    let target_font := set_hmtx (set_glyf target_font target_glyf) target_hmtx in
    target_glyf ←
      rfold (replace_punctuation target_font inter_glyf inter_hmtx target_hmtx
                                 inter_name_map)
            (inter_punc_map replace_punc) target_glyf;
    let target_font := set_glyf target_font target_glyf in
    inter_tables ← gettable "cmap" (cmap inter_font);
    target_tables ← gettable "cmap" (cmap target_font);
    tables ← update_cmap inter_tables target_tables target_hmtx inter_name_map;
    mret (set_cmap target_font tables).

(** ** [build_font]

    [static_font] is the font read from [input_path] and [merge_font]
    the one read from [merge_font_path]; the result is the font handed
    to [save]. *)

Record FontBuildConfig := mkFontBuildConfig {
  cjk_width_adjust : number;
  apply_stylistic_set : option string;
  merge_font : option TTFont;
  replace_punc : Z;
  new_line_gap : Z
}.

Definition build_font (static_font : TTFont) (config : FontBuildConfig) : result TTFont :=
  if has_table static_font "cvar" || has_table static_font "fvar"
     || has_table static_font "gvar" then
    Raise (ValueError "Input font must be a static font.")
  else
    static_font ← match apply_stylistic_set config with
                  | Some tag => if bool_decide (tag = "") then mret static_font
                                else apply_stylistic_sets static_font tag
                  | None => mret static_font
                  end;
    static_font ← remove_stylistic_sets static_font;
    let static_font := remove_font_tables static_font in
    static_font ← remove_locl_feature static_font;
    static_font ← match merge_font config with
                  | Some inter_font =>
                      merge_inter_font static_font inter_font (replace_punc config)
                  | None => mret static_font
                  end;
    r ← process_glyphs static_font (cjk_width_adjust config);
    static_font ← set_font_parameter r.1.1;
    mret (if new_line_gap config =? 0 then static_font else set_line_gap static_font).
End BuildFont.

(** * Glyph names held by a positioning table

    The places the remapper rewrites: the strings of a [glyphs] list
    (coverage), the keys of a [classDefs] dict, and the [SecondGlyph] of
    the pair value records below [PairSet]; they are collected along the
    paths the attribute scan follows (attributes not starting with an
    underscore, items of lists, nested objects). *)

Definition str_site (v : pyval) : list string :=
  match v with
  | PyStr s => [s]
  | _ => []
  end.

Definition pvr_sites (pvr : pyval) : list string :=
  match pvr with
  | PyObj attrs =>
      flat_map (fun nv => if decide (nv.1 = "SecondGlyph") then str_site nv.2 else []) attrs
  | _ => []
  end.

Definition pairset_sites (pairSet : pyval) : list string :=
  match pairSet with
  | PyObj attrs =>
      flat_map (fun nv => if decide (nv.1 = "PairValueRecord")
                          then match nv.2 with
                               | PyList pvrs => flat_map pvr_sites pvrs
                               | _ => []
                               end
                          else []) attrs
  | _ => []
  end.

(** names held directly by one attribute *)
Definition own_sites (nv : string * pyval) : list string :=
  if decide (nv.1 = "glyphs") then
    match nv.2 with PyList l => flat_map str_site l | _ => [] end
  else if decide (nv.1 = "classDefs") then
    match nv.2 with PyDict d => map fst d | _ => [] end
  else if decide (nv.1 = "PairSet") then
    match nv.2 with PyList sets => flat_map pairset_sites sets | _ => [] end
  else [].

Fixpoint sites (v : pyval) : list string :=
  match v with
  | PyObj attrs =>
      flat_map (fun nv =>
                  own_sites nv ++
                  (if startswith "_" nv.1 then []
                   else match nv.2 with
                        | PyList l => flat_map sites l
                        | PyObj _ => sites nv.2
                        | _ => []
                        end)) attrs
  | _ => []
  end.

(** the names reached through one attribute *)
Definition child_sites (nv : string * pyval) : list string :=
  if startswith "_" nv.1 then []
  else match nv.2 with
       | PyList l => flat_map sites l
       | PyObj _ => sites nv.2
       | _ => []
       end.

Definition attr_sites (nv : string * pyval) : list string :=
  own_sites nv ++ child_sites nv.

Definition table_sites (t : otl_table pyval) : list string :=
  match LookupList t with
  | Some ll => flat_map sites (Lookup ll)
  | None => []
  end.

Definition font_sites (font : TTFont) : list string :=
  match GPOS font with
  | Some t => table_sites t
  | None => []
  end.

(** every string of a tree, wherever it is held *)
Fixpoint strings_of (v : pyval) : list string :=
  match v with
  | PyStr s => [s]
  | PyList l | PyTuple l => flat_map strings_of l
  | PyDict d => map fst d
  | PyObj attrs => flat_map (fun nv => strings_of nv.2) attrs
  | _ => []
  end.

Definition font_strings (font : TTFont) : list string :=
  match GPOS font with
  | Some t => match LookupList t with
              | Some ll => flat_map strings_of (Lookup ll)
              | None => []
              end
  | None => []
  end.

(** a donor glyph name under the merge prefix *)
Definition namespaced (inter_glyph_order : list string) (s : string) : Prop :=
  exists g, g ∈ inter_glyph_order /\ s = merge_font_prefix +:+ g.

(** the test under which [update_subtable] writes a code point into a
    subtable: a Unicode subtable of format 12, or of format 4 for a code
    point of at most 16 bits *)
Definition subtable_accepts (table : cmap_subtable) (cp : Z) : bool :=
  isUnicode table && (((format table =? 4) && (cp <=? 0xFFFF)) || (format table =? 12)).


(** the [(src, dst)] pairs of the single substitutions reached from the
    feature records with a tag, in the order the loops of
    [apply_stylistic_sets] visit them *)
Definition substitution_pairs (gsub : otl_table gsub_lookup) (tag : string)
    : list (string * string) :=
  flat_map (fun f =>
    flat_map (fun lookup_idx =>
      match LookupList gsub ≫= (fun ll => Lookup ll !! lookup_idx) with
      | Some lookup => flat_map (fun subtable => default [] (mapping subtable))
                                (SubTable lookup)
      | None => []
      end) (LookupListIndex (Feature f)))
    (filter (fun f => FeatureTag f = tag)
            (default [] (FeatureRecord <$> FeatureList gsub))).

(** ** The tables behind [set_font_parameter] and [set_line_gap]

    [set_font_parameter] rewrites the records of the [name] table and
    [set_line_gap] four fields of [hhea] and [OS/2].  These tables are
    not part of [TTFont] above; the two functions are given here on the
    values they read and write.  A name record is its [nameID] and the
    text that is stored, encoded, in [record.string]. *)

Record name_record := mkNameRecord {
  nameID : Z;
  name_text : string }.

(** [s.replace(old, new)] for one-character [old] and [new] *)
Fixpoint replace_char (old new : Ascii.ascii) (s : string) : string :=
  match s with
  | EmptyString => EmptyString
  | String c s' => String (if Ascii.eqb c old then new else c) (replace_char old new s')
  end.

(** the body of the loop over [name_table.names] *)
Definition set_name_record (new_name new_version : string) (record : name_record)
    : name_record :=
  if (nameID record =? 1) || (nameID record =? 4) then
    mkNameRecord (nameID record) new_name
  else if nameID record =? 6 then
    mkNameRecord (nameID record) (replace_char " "%char "-"%char new_name)
  else if nameID record =? 5 then
    mkNameRecord (nameID record) new_version
  else if nameID record =? 2 then
    mkNameRecord (nameID record) "Regular"
  else record.

Definition set_name_records (names : list name_record) (new_name new_version : string)
    : list name_record :=
  map (set_name_record new_name new_version)
      (filter (fun record => nameID record <> 17) names).

Record hhea_table := mkHhea { lineGap : Z }.

Record OS2_table := mkOS2 {
  sTypoLineGap : Z;
  usWinAscent : Z;
  usWinDescent : Z }.

(** [set_line_gap] on the two tables, each of which may be absent;
    [//] is the floor division *)
Definition set_line_gap_tables (hhea : option hhea_table) (os2 : option OS2_table)
    (new_line_gap : Z) : option hhea_table * option OS2_table :=
  ((fun _ => mkHhea new_line_gap) <$> hhea,
   (fun t => mkOS2 new_line_gap
                   (usWinAscent t + new_line_gap `div` 2)
                   (usWinDescent t + new_line_gap `div` 2)) <$> os2).

(** * A stand-in for the library, and sample fonts

    [sample_tools] implements the library operations for outlines that
    are only translated: enough to run the programs on small fonts. *)

Definition sample_tools : FontTools := {|
  pen_glyph := fun t g =>
    mkGlyph (shift_outline (py_round (dx t)) (py_round (dy t)) (outline g)) None;
  decomposed_glyph := fun glyf_table name =>
    default (mkGlyph (Contours []) None) (glyf_table !! name);
  recalcBounds := fun _ g => g;
  instantiateVariableFont := fun font _ =>
    OK (set_other_tables font (other_tables font ∖ {["fvar"]}));
  removeOverlaps := fun font => OK font;
  getBestCmap := fun font =>
    match cmap font with
    | Some (table :: _) => cmap_dict table
    | _ => []
    end
|}.

Definition square : Glyph :=
  mkGlyph (Contours [[(0, 0); (100, 0); (100, 100); (0, 100)]]) (Some (0, 0, 100, 100)).

Definition accented : Glyph := mkGlyph (Components ["A"; "acute"]) None.

(** a font with a full-width glyph, a narrower one and a composite *)
Definition font_cjk : TTFont :=
  mkTTFont ["uni4E00"; "A"]
           (Some {[ "uni4E00" := square; "A" := square ]})
           (Some {[ "uni4E00" := (1000, 50); "A" := (900, 40) ]})
           (Some [mkCmapSubtable 4 true [(0x4E00, "uni4E00"); (0x41, "A")]])
           None None {[ "name" ]} false.

Definition font_with_composite : TTFont :=
  mkTTFont ["uni4E00"; "Aacute"]
           (Some {[ "uni4E00" := square; "Aacute" := accented ]})
           (Some {[ "uni4E00" := (1000, 50); "Aacute" := (900, 40) ]})
           (Some []) None None {[ "name" ]} false.

Definition font_variable : TTFont :=
  mkTTFont ["A"] (Some {[ "A" := square ]}) (Some {[ "A" := (900, 40) ]})
           (Some []) None None {[ "name"; "fvar" ]} false.

(** a donor in the manner of a Latin font: pair kerning, a contextual
    rule given by glyph sequences, and two features *)
Definition coverage (names : list string) : pyval :=
  PyObj [("glyphs", PyList (map PyStr names))].

Definition pair_value_record (second : string) (adv : Z) : pyval :=
  PyObj [("SecondGlyph", PyStr second); ("Value1", PyObj [("XAdvance", PyInt adv)])].

Definition lookup_kern : pyval :=
  PyObj [("LookupType", PyInt 2);
         ("SubTable", PyList [PyObj [
            ("Coverage", coverage ["A"]);
            ("Format", PyInt 1);
            ("PairSet",
             PyList [PyObj [("PairValueRecord", PyList [pair_value_record "V" (-40)])]])]])].

Definition lookup_context : pyval :=
  PyObj [("LookupType", PyInt 7);
         ("SubTable", PyList [PyObj [
            ("Coverage", coverage ["A"]);
            ("Format", PyInt 1);
            ("PosRuleSet",
             PyList [PyObj [("PosRule", PyList [PyObj [("Input", PyList [PyStr "V"])]])]])]])].

Definition gpos_inter : otl_table pyval :=
  mkOtl (Some (mkScriptList 1 [mkScriptRecord "latn"
                 (mkScript (Some (mkLangSys [0; 1]%nat))
                           [mkLangSysRecord "TRK " (mkLangSys [0]%nat)])]))
        (Some (mkFeatureList 2 [mkFeatureRecord "kern" (mkFeature [0]%nat);
                                mkFeatureRecord "cpsp" (mkFeature [1]%nat)]))
        (Some (mkLookupList 2 [lookup_kern; lookup_context])).

Definition font_inter : TTFont :=
  mkTTFont ["A"; "V"]
           (Some {[ "A" := square; "V" := square ]})
           (Some {[ "A" := (600, 20); "V" := (580, 10) ]})
           (Some [mkCmapSubtable 4 true [(0x41, "A"); (0x56, "V")]])
           None (Some gpos_inter) {[ "name" ]} false.

(** a primary font with a positioning table of its own, whose glyph [A]
    is 1200 units wide *)
Definition lookup_palt : pyval :=
  PyObj [("LookupType", PyInt 1);
         ("SubTable", PyList [PyObj [
            ("Coverage", coverage ["uni4E00"; "A"]);
            ("Format", PyInt 1);
            ("Value", PyObj [("XAdvance", PyInt (-100))])]])].

Definition gpos_primary : otl_table pyval :=
  mkOtl (Some (mkScriptList 1 [mkScriptRecord "hani"
                 (mkScript (Some (mkLangSys [0]%nat)) [])]))
        (Some (mkFeatureList 1 [mkFeatureRecord "palt" (mkFeature [0]%nat)]))
        (Some (mkLookupList 1 [lookup_palt])).

Definition font_primary : TTFont :=
  mkTTFont ["uni4E00"; "A"]
           (Some {[ "uni4E00" := square; "A" := square ]})
           (Some {[ "uni4E00" := (1000, 50); "A" := (1200, 40) ]})
           (Some [mkCmapSubtable 4 true [(0x4E00, "uni4E00"); (0x41, "A")];
                  mkCmapSubtable 12 true [(0x4E00, "uni4E00"); (0x41, "A")]])
           None (Some gpos_primary) {[ "name" ]} false.

Definition inter_names : list (string * string) :=
  (build_inter_name_map (glyphOrder font_inter) (glyphOrder font_primary)).1.

(** a primary font with a substitution table: a stylistic set, a locale
    feature and ligatures, all referenced by the default language system *)
Definition gsub_sample : otl_table gsub_lookup :=
  mkOtl (Some (mkScriptList 1 [mkScriptRecord "DFLT"
                 (mkScript (Some (mkLangSys [0; 1; 2]%nat)) [])]))
        (Some (mkFeatureList 3 [mkFeatureRecord "ss01" (mkFeature [0]%nat);
                                mkFeatureRecord "locl" (mkFeature [1]%nat);
                                mkFeatureRecord "liga" (mkFeature [2]%nat)]))
        (Some (mkLookupList 3
                 [mkGsubLookup [mkGsubSubtable (Some [("A", "A.ss01")])];
                  mkGsubLookup [mkGsubSubtable (Some [("uni4E00", "A")])];
                  mkGsubLookup [mkGsubSubtable None]])).

Definition font_gsub : TTFont :=
  mkTTFont ["uni4E00"; "A"; "A.ss01"]
           (Some {[ "uni4E00" := square; "A" := square; "A.ss01" := square ]})
           (Some {[ "uni4E00" := (1000, 50); "A" := (900, 40); "A.ss01" := (950, 45) ]})
           (Some [mkCmapSubtable 4 true [(0x4E00, "uni4E00"); (0x41, "A")]])
           (Some gsub_sample) None {[ "name"; "STAT"; "cvt "; "cv01" ]} false.

Definition config_sample : FontBuildConfig :=
  mkFontBuildConfig (py_float (1 # 8)) (Some "ss01") (Some font_inter) 0 0.


(** a donor with the two punctuation glyphs of the first tier, and a
    primary font that maps the full-width exclamation mark *)
Definition font_inter_punc : TTFont :=
  mkTTFont ["A"; "exclam"; "question"]
           (Some {[ "A" := square; "exclam" := square; "question" := square ]})
           (Some {[ "A" := (600, 20); "exclam" := (300, 100); "question" := (500, 30) ]})
           (Some [mkCmapSubtable 4 true [(0x41, "A"); (0x21, "exclam"); (0x3F, "question")]])
           None None {[ "name" ]} false.

Definition font_primary_punc : TTFont :=
  mkTTFont ["uni4E00"; "uniFF01"]
           (Some {[ "uni4E00" := square; "uniFF01" := square ]})
           (Some {[ "uni4E00" := (1000, 50); "uniFF01" := (1000, 400) ]})
           (Some [mkCmapSubtable 4 true [(0x4E00, "uni4E00"); (0xFF01, "uniFF01")];
                  mkCmapSubtable 0 false [(0x41, "uni4E00")]])
           None None {[ "name" ]} false.

(** a font with pair kerning whose records carry both value records,
    the second being [None], and a contextual lookup *)
Definition lookup_pairs : pyval :=
  PyObj [("LookupType", PyInt 2);
         ("SubTable", PyList [PyObj [
            ("Coverage", coverage ["A"]);
            ("Format", PyInt 1);
            ("PairSet",
             PyList [PyObj [("PairValueRecord",
                PyList [PyObj [("SecondGlyph", PyStr "V");
                               ("Value1", PyObj [("XAdvance", PyInt (-40))]);
                               ("Value2", PyNone)]])]])]])].

Definition font_kerned : TTFont :=
  mkTTFont ["A"; "V"]
           (Some {[ "A" := square; "V" := square ]})
           (Some {[ "A" := (600, 20); "V" := (580, 10) ]})
           (Some [mkCmapSubtable 4 true [(0x41, "A"); (0x56, "V")]])
           None
           (Some (mkOtl (ScriptList gpos_inter) (FeatureList gpos_inter)
                        (Some (mkLookupList 2 [lookup_pairs; lookup_context]))))
           {[ "name" ]} false.




(** * Properties of extract_font.py *)

Section ExtractFontProps.
Context `{FontTools}.

(** *** Loops *)

Lemma rfold_app {A S} (body : S -> A -> result S) (l1 l2 : list A) (s : S) :
  rfold body (l1 ++ l2) s = (s' ← rfold body l1 s; rfold body l2 s').
Proof.
  revert s. induction l1 as [|x l1 IH]; intros s; cbn; [reflexivity|].
  destruct (body s x) as [s'|e]; cbn; [apply IH | reflexivity].
Qed.

Lemma rfold_cons_ok {A S} (body : S -> A -> result S) x l s s1 :
  body s x = OK s1 -> rfold body (x :: l) s = rfold body l s1.
Proof. intros Hx. cbn. rewrite Hx. reflexivity. Qed.

Lemma rfold_cons_raise {A S} (body : S -> A -> result S) x l s e :
  body s x = Raise e -> rfold body (x :: l) s = Raise e.
Proof. intros Hx. cbn. rewrite Hx. reflexivity. Qed.

(** *** One step of [apply_glyph_transform] *)

Lemma transform_glyph_composite transform cjk_mode_transform glyf_table hmtx_table count
    glyph_name g :
  glyf_table !! glyph_name = Some g ->
  isComposite g = true ->
  transform_glyph transform cjk_mode_transform (glyf_table, hmtx_table, count) glyph_name
    = Raise (ValueError (composite_msg glyph_name)).
Proof.
  intros Hg Hc. unfold transform_glyph, getitem. rewrite Hg. cbn. rewrite Hc. reflexivity.
Qed.

Lemma transform_glyph_simple transform cjk_mode_transform glyf_table hmtx_table count
    glyph_name g :
  glyf_table !! glyph_name = Some g ->
  isComposite g = false ->
  exists glyf_table' hmtx_table' count',
    transform_glyph transform cjk_mode_transform (glyf_table, hmtx_table, count) glyph_name
      = OK (glyf_table', hmtx_table', count').
Proof.
  intros Hg Hc. unfold transform_glyph, getitem. rewrite Hg. cbn. rewrite Hc.
  destruct (cjk_mode_transform && cjk_skip hmtx_table glyph_name); cbn; eauto.
Qed.

(** a step leaves every other glyph alone; in CJK mode it also leaves the
    metrics and the glyphs it skips alone *)
Lemma transform_glyph_frame transform cjk_mode_transform glyf_table hmtx_table count
    glyph_name glyf_table' hmtx_table' count' :
  transform_glyph transform cjk_mode_transform (glyf_table, hmtx_table, count) glyph_name
    = OK (glyf_table', hmtx_table', count') ->
  (forall other, other <> glyph_name -> glyf_table' !! other = glyf_table !! other)
  /\ (cjk_mode_transform = true -> hmtx_table' = hmtx_table)
  /\ (cjk_mode_transform = true -> cjk_skip hmtx_table glyph_name = true ->
      glyf_table' = glyf_table).
Proof.
  unfold transform_glyph, getitem.
  destruct (glyf_table !! glyph_name) as [g|]; cbn; [|discriminate].
  destruct (isComposite g); [discriminate|].
  destruct cjk_mode_transform; cbn.
  - destruct (cjk_skip hmtx_table glyph_name); cbn; intros [= <- <- <-].
    + repeat split; reflexivity.
    + repeat split; try discriminate.
      intros other Hne. destruct (0 <? numberOfContours g); [|reflexivity].
      rewrite lookup_insert_ne; [reflexivity | congruence].
  - intros [= <- <- <-]. repeat split; try discriminate.
    intros other Hne. destruct (0 <? numberOfContours g); [|reflexivity].
    rewrite lookup_insert_ne; [reflexivity | congruence].
Qed.

Lemma transform_glyphs_frame transform cjk_mode_transform names glyf_table hmtx_table count
    glyf_table' hmtx_table' count' :
  rfold (transform_glyph transform cjk_mode_transform) names (glyf_table, hmtx_table, count)
    = OK (glyf_table', hmtx_table', count') ->
  (forall other, other ∉ names -> glyf_table' !! other = glyf_table !! other)
  /\ (cjk_mode_transform = true -> hmtx_table' = hmtx_table)
  /\ (cjk_mode_transform = true ->
      forall name, cjk_skip hmtx_table name = true ->
                   glyf_table' !! name = glyf_table !! name).
Proof.
  revert glyf_table hmtx_table count.
  induction names as [|n names IH]; intros G Hm c.
  - cbn. intros [= <- <- <-]. repeat split; reflexivity.
  - destruct (transform_glyph transform cjk_mode_transform (G, Hm, c) n)
      as [[[G1 Hm1] c1]|e] eqn:Hstep;
      [rewrite (rfold_cons_ok _ _ _ _ _ Hstep)
      |rewrite (rfold_cons_raise _ _ _ _ _ Hstep); discriminate].
    intros Hrest.
    destruct (transform_glyph_frame _ _ _ _ _ _ _ _ _ Hstep) as (Hother & Hhm & Hskip).
    destruct (IH _ _ _ Hrest) as (IHother & IHhm & IHskip).
    repeat split.
    + intros other Hnotin.
      rewrite IHother by (intros Hin; apply Hnotin; right; exact Hin).
      apply Hother. intros ->. apply Hnotin. left.
    + intros Hcjk. rewrite IHhm, Hhm by assumption. reflexivity.
    + intros Hcjk name Hs.
      specialize (Hhm Hcjk). subst Hm1.
      rewrite IHskip by assumption.
      destruct (decide (name = n)) as [->|Hne].
      * rewrite (Hskip Hcjk Hs). reflexivity.
      * apply Hother. exact Hne.
Qed.

(** the loop runs to its end over distinct simple glyphs *)
Lemma transform_glyphs_ok transform cjk_mode_transform names glyf_table hmtx_table count :
  NoDup names ->
  Forall (fun n => exists g, glyf_table !! n = Some g /\ isComposite g = false) names ->
  exists st, rfold (transform_glyph transform cjk_mode_transform) names
                   (glyf_table, hmtx_table, count) = OK st.
Proof.
  revert glyf_table hmtx_table count.
  induction names as [|n names IH]; intros G Hm c Hnd Hall; [cbn; eauto|].
  apply NoDup_cons in Hnd as [Hn Hnd].
  apply Forall_cons in Hall as [(g & Hg & Hsimple) Hall].
  destruct (transform_glyph_simple transform cjk_mode_transform G Hm c n g Hg Hsimple)
    as (G1 & Hm1 & c1 & Hstep).
  rewrite (rfold_cons_ok _ _ _ _ _ Hstep).
  destruct (transform_glyph_frame _ _ _ _ _ _ _ _ _ Hstep) as (Hother & _ & _).
  apply IH; [exact Hnd|].
  rewrite Forall_forall in Hall |- *.
  intros m Hin. destruct (Hall m Hin) as (g' & Hg' & Hs').
  exists g'. split; [|exact Hs'].
  rewrite Hother; [exact Hg'|]. intros ->. contradiction.
Qed.

(** a composite glyph anywhere in the list stops the loop *)
Lemma transform_glyphs_composite transform cjk_mode_transform names glyf_table hmtx_table
    count name g :
  name ∈ names ->
  glyf_table !! name = Some g ->
  isComposite g = true ->
  exists e, rfold (transform_glyph transform cjk_mode_transform) names
                  (glyf_table, hmtx_table, count) = Raise e.
Proof.
  revert glyf_table hmtx_table count.
  induction names as [|n names IH]; intros G Hm c Hin Hg Hc.
  - inversion Hin.
  - destruct (decide (n = name)) as [->|Hne].
    + rewrite (rfold_cons_raise _ _ _ _ _ (transform_glyph_composite _ _ _ _ _ _ _ Hg Hc)).
      eauto.
    + destruct (transform_glyph transform cjk_mode_transform (G, Hm, c) n)
        as [[[G1 Hm1] c1]|e] eqn:Hstep;
        [rewrite (rfold_cons_ok _ _ _ _ _ Hstep)
        |rewrite (rfold_cons_raise _ _ _ _ _ Hstep); eauto].
      destruct (transform_glyph_frame _ _ _ _ _ _ _ _ _ Hstep) as (Hother & _ & _).
      apply IH.
      * apply elem_of_cons in Hin as [->|Hin]; [congruence | exact Hin].
      * rewrite Hother; [exact Hg | congruence].
      * exact Hc.
Qed.

Lemma cjk_skip_not_1000 hmtx_table name :
  (forall lsb, (match hmtx_table with Some t => t !! name | None => None end)
               <> Some (1000, lsb)) ->
  cjk_skip hmtx_table name = true.
Proof.
  intros Hw. unfold cjk_skip. destruct hmtx_table as [h|]; [|reflexivity].
  destruct (h !! name) as [[w lsb]|]; [|reflexivity].
  destruct (Z.eqb_spec w 1000) as [->|Hne]; [|reflexivity].
  exfalso. exact (Hw lsb eq_refl).
Qed.

(** C9. A composite glyph in the glyph order makes [apply_glyph_transform]
    raise, whatever the mode and whatever the advance width of the
    glyph: the test comes before the width filter of the CJK mode.  When
    the glyphs before it are distinct and simple, the error is the
    [ValueError] naming that glyph. *)
Theorem apply_glyph_transform_composite
    (font : TTFont) (transform : Transform) (cjk_mode_transform : bool)
    (glyf_table : gmap string Glyph) (glyph_name : string) (g : Glyph) :
  glyf font = Some glyf_table ->
  glyph_name ∈ glyphOrder font ->
  glyf_table !! glyph_name = Some g ->
  isComposite g = true ->
  (exists e, apply_glyph_transform font transform cjk_mode_transform = Raise e)
  /\ (forall before after,
        glyphOrder font = before ++ glyph_name :: after ->
        NoDup before ->
        Forall (fun n => exists g', glyf_table !! n = Some g' /\ isComposite g' = false)
               before ->
        apply_glyph_transform font transform cjk_mode_transform
          = Raise (ValueError (composite_msg glyph_name))).
Proof.
  intros Hglyf Hin Hg Hc. unfold apply_glyph_transform. rewrite Hglyf. split.
  - destruct (transform_glyphs_composite transform cjk_mode_transform (glyphOrder font)
                glyf_table (hmtx font) 0%nat glyph_name g Hin Hg Hc) as [e He].
    rewrite He. exists e. reflexivity.
  - intros before after Horder Hnd Hsimple.
    rewrite Horder, rfold_app.
    destruct (transform_glyphs_ok transform cjk_mode_transform before glyf_table
                (hmtx font) 0%nat Hnd Hsimple) as [[[G1 Hm1] c1] Hpre].
    rewrite Hpre.
    destruct (transform_glyphs_frame _ _ _ _ _ _ _ _ _ Hpre) as (Hother & _ & _).
    assert (Hnotin : glyph_name ∉ before).
    { intros Hb. rewrite Forall_forall in Hsimple.
      destruct (Hsimple _ Hb) as (g' & Hg' & Hs'). congruence. }
    assert (Hg1 : G1 !! glyph_name = Some g) by (rewrite Hother; assumption).
    cbn [mbind result_bind].
    rewrite (rfold_cons_raise _ _ _ _ _
               (transform_glyph_composite transform cjk_mode_transform G1 Hm1 c1
                  glyph_name g Hg1 Hc)).
    reflexivity.
Qed.

(** C7. In CJK mode the transform stage of [extract_font] runs to its
    end on a font whose glyphs are distinct and simple, and then the
    positioning table and the metrics are those of the input, and so is
    every glyph whose advance width is not exactly 1000 (or that has no
    metrics): only glyphs of width 1000 can have a new outline. *)
Theorem cjk_transform_frame (font : TTFont) (transform : Transform) :
  NoDup (glyphOrder font) ->
  (forall glyf_table, glyf font = Some glyf_table ->
     Forall (fun n => exists g, glyf_table !! n = Some g /\ isComposite g = false)
            (glyphOrder font)) ->
  exists font',
    transform_stage font (Some transform) true = OK font'
    /\ GPOS font' = GPOS font
    /\ hmtx font' = hmtx font
    /\ (forall name,
          (forall lsb, metrics_of font name <> Some (1000, lsb)) ->
          glyph_of font' name = glyph_of font name)
    /\ (forall name,
          glyph_of font' name <> glyph_of font name ->
          exists lsb, metrics_of font name = Some (1000, lsb)).
Proof.
  intros Hnd Hsimple. unfold transform_stage, apply_glyph_transform.
  destruct (glyf font) as [glyf_table|] eqn:Hglyf.
  - destruct (transform_glyphs_ok transform true (glyphOrder font) glyf_table
                (hmtx font) 0%nat Hnd (Hsimple _ eq_refl)) as [[[G1 Hm1] c1] Hloop].
    rewrite Hloop. cbn.
    destruct (transform_glyphs_frame _ _ _ _ _ _ _ _ _ Hloop) as (_ & Hhm & Hskip).
    specialize (Hhm eq_refl). specialize (Hskip eq_refl). subst Hm1.
    eexists. split; [reflexivity|]. cbn.
    assert (Hframe : forall name,
               (forall lsb, metrics_of font name <> Some (1000, lsb)) ->
               G1 !! name = glyf_table !! name).
    { intros name Hw. apply Hskip. apply cjk_skip_not_1000. exact Hw. }
    repeat split; try reflexivity.
    + unfold glyph_of. cbn. rewrite Hglyf. exact Hframe.
    + unfold glyph_of. cbn. rewrite Hglyf. intros name Hchanged.
      destruct (metrics_of font name) as [[w lsb]|] eqn:Hm.
      * destruct (decide (w = 1000)) as [->|Hne]; [eauto|].
        exfalso. apply Hchanged. apply Hframe. intros lsb'. rewrite Hm. congruence.
      * exfalso. apply Hchanged. apply Hframe. intros lsb'. rewrite Hm. congruence.
  - cbn. exists font. repeat split; try reflexivity.
    intros name Hchanged. exfalso. apply Hchanged. reflexivity.
Qed.

(** C8. A variable font without axis settings makes [extract_font]
    raise; axis settings given for a static font are dropped with the
    warning, and the run continues exactly as the run without them. *)
Theorem extract_font_axis_settings
    (font_var font_static : TTFont) (none some : option (list (string * Q)))
    (transform : option Transform) (cjk_mode_transform skip_decomposition : bool) :
  has_table font_var "fvar" = true ->
  axis_settings_given none = false ->
  has_table font_static "fvar" = false ->
  axis_settings_given some = true ->
  extract_font font_var none transform cjk_mode_transform skip_decomposition
    = Raise (ValueError "Font is variable but no axis settings provided.")
  /\ instantiate font_static some = OK (font_static, [Warning_axis_settings_ignored])
  /\ extract_font font_static some transform cjk_mode_transform skip_decomposition
     = (r ← extract_font font_static None transform cjk_mode_transform skip_decomposition;
        mret (r.1, [Warning_axis_settings_ignored])).
Proof.
  intros Hvar Hnone Hstatic Hsome.
  unfold extract_font, instantiate.
  rewrite Hvar, Hnone, Hstatic, Hsome. cbn.
  repeat split.
  destruct skip_decomposition; cbn.
  - destruct (transform_stage font_static transform cjk_mode_transform); reflexivity.
  - destruct (decompose_composites font_static) as [d|e]; cbn; [|reflexivity].
    destruct (transform_stage d.1 transform cjk_mode_transform); reflexivity.
Qed.
End ExtractFontProps.

(** * Properties of build_font.py *)

Section BuildFontProps.
Context `{FontTools}.

Lemma bind_ok_inv {A B} (r : result A) (k : A -> result B) (b : B) :
  (r ≫= k) = OK b -> exists a, r = OK a /\ k a = OK b.
Proof. destruct r as [a|e]; cbn; [eauto | discriminate]. Qed.

Lemma mret_ok_inv {A} (a b : A) : (mret a : result A) = OK b -> a = b.
Proof. intros [= ->]. reflexivity. Qed.

(** ** Removal of tables *)

Lemma fold_left_difference (l : list string) (tags : gset string) :
  fold_left (fun acc tag => acc ∖ {[tag]}) l tags = tags ∖ list_to_set l.
Proof.
  revert tags. induction l as [|x l IH]; intros tags; cbn.
  - set_solver.
  - rewrite IH. set_solver.
Qed.

Lemma has_table_GSUB font : has_table font "GSUB" = bool_decide (is_Some (GSUB font)).
Proof. unfold has_table. repeat (case_decide; try congruence). Qed.

Lemma has_table_other font tag :
  tag <> "glyf" -> tag <> "hmtx" -> tag <> "cmap" -> tag <> "GSUB" -> tag <> "GPOS" ->
  has_table font tag = bool_decide (tag ∈ other_tables font).
Proof. intros. unfold has_table. repeat (case_decide; try congruence). Qed.

Lemma remove_font_tables_other_tables font tag :
  tag ∈ other_tables (remove_font_tables font) <->
  tag ∈ other_tables font /\ tag <> "STAT" /\ startswith "cv" tag = false.
Proof.
  unfold remove_font_tables.
  set (tags1 := if has_table font "STAT" then other_tables font ∖ {["STAT"]}
                else other_tables font).
  assert (Htags1 : tag ∈ tags1 <-> tag ∈ other_tables font /\ tag <> "STAT").
  { subst tags1. rewrite has_table_other by discriminate.
    destruct (bool_decide ("STAT" ∈ other_tables font)) eqn:Hs.
    - set_solver.
    - apply bool_decide_eq_false in Hs. set_solver. }
  assert (Hother : forall font', other_tables
            (if has_table font' "GSUB" then set_GSUB font' None else font')
            = other_tables font').
  { intros font'. destruct (has_table font' "GSUB"); reflexivity. }
  rewrite Hother. cbn. rewrite fold_left_difference.
  rewrite elem_of_difference, elem_of_list_to_set, list_elem_of_filter, elem_of_elements.
  rewrite Htags1. destruct (startswith "cv" tag); intuition congruence.
Qed.

Lemma remove_font_tables_GSUB font : GSUB (remove_font_tables font) = None.
Proof.
  unfold remove_font_tables.
  match goal with |- GSUB (if has_table ?f "GSUB" then _ else _) = None =>
    generalize f end.
  intros font'. rewrite has_table_GSUB.
  destruct (GSUB font') eqn:Hg; cbn; [reflexivity | exact Hg].
Qed.

(** a tag beginning with [cv] is none of the tables the model names *)
Lemma has_table_cv font tag :
  startswith "cv" tag = true ->
  has_table font tag = bool_decide (tag ∈ other_tables font).
Proof.
  intros Hcv. unfold has_table.
  repeat (case_decide; [subst tag; cbn in Hcv; discriminate|]).
  reflexivity.
Qed.

(** what [remove_font_tables] leaves behind *)
Definition no_gsub_stat_cv (font : TTFont) : Prop :=
  has_table font "GSUB" = false
  /\ has_table font "STAT" = false
  /\ (forall tag, startswith "cv" tag = true -> has_table font tag = false).

Lemma no_gsub_stat_cv_eq font font' :
  GSUB font' = GSUB font -> other_tables font' = other_tables font ->
  no_gsub_stat_cv font -> no_gsub_stat_cv font'.
Proof.
  intros Hg Ho (H1 & H2 & H3). repeat split.
  - rewrite has_table_GSUB in *. rewrite Hg. exact H1.
  - rewrite has_table_other in * by discriminate. rewrite Ho. exact H2.
  - intros tag Hcv. specialize (H3 tag Hcv).
    rewrite has_table_cv in * by assumption. rewrite Ho. exact H3.
Qed.

Lemma remove_font_tables_spec font : no_gsub_stat_cv (remove_font_tables font).
Proof.
  repeat split.
  - rewrite has_table_GSUB, remove_font_tables_GSUB.
    apply bool_decide_eq_false_2. intros [? ?]; discriminate.
  - rewrite has_table_other by discriminate. apply bool_decide_eq_false_2.
    rewrite remove_font_tables_other_tables. intuition congruence.
  - intros tag Hcv. rewrite has_table_cv by assumption.
    apply bool_decide_eq_false_2.
    rewrite remove_font_tables_other_tables. intuition congruence.
Qed.

Lemma remove_locl_feature_no_GSUB font :
  GSUB font = None -> remove_locl_feature font = OK font.
Proof. intros Hg. unfold remove_locl_feature. rewrite Hg. reflexivity. Qed.

(** ** What the later stages leave alone *)

Ltac inv_ok H :=
  repeat match type of H with
         | (_ ≫= _) = OK _ =>
             let a := fresh "a" in let Ha := fresh "Ha" in
             apply bind_ok_inv in H as (a & Ha & H)
         | mret _ = OK _ => apply mret_ok_inv in H
         | OK _ = OK _ => injection H as H
         | Raise _ = OK _ => discriminate H
         | (let '(_, _) := ?x in _) = OK _ => destruct x eqn:?
         | (if ?b then _ else _) = OK _ => destruct b eqn:?
         | (match ?x with _ => _ end) = OK _ => destruct x eqn:?
         end.

Lemma merge_inter_font_gpos_table_frame target_font inter_font inter_name_map font :
  merge_inter_font_gpos_table target_font inter_font inter_name_map = OK font ->
  glyphOrder font = glyphOrder target_font
  /\ glyf font = glyf target_font
  /\ hmtx font = hmtx target_font
  /\ cmap font = cmap target_font
  /\ GSUB font = GSUB target_font
  /\ other_tables font = other_tables target_font
  /\ inter_gpos_merged font = true.
Proof.
  unfold merge_inter_font_gpos_table. intros Hm.
  destruct (inter_gpos_merged target_font) eqn:Hflag.
  - inv_ok Hm. subst font. repeat split; assumption.
  - destruct (GPOS inter_font) as [inter_gpos|].
    + destruct (GPOS target_font) as [tgt_gpos|]; inv_ok Hm; subst font;
        repeat split; reflexivity.
    + inv_ok Hm. subst font. repeat split; reflexivity.
Qed.

Lemma merge_inter_font_frame target_font inter_font punc font :
  merge_inter_font target_font inter_font punc = OK font ->
  GSUB font = GSUB target_font /\ other_tables font = other_tables target_font.
Proof.
  unfold merge_inter_font. intros Hm.
  destruct (has_table inter_font "fvar"); [discriminate|].
  inv_ok Hm. subst font. cbn.
  match goal with
  | Hg : merge_inter_font_gpos_table _ _ _ = OK _ |- _ =>
      destruct (merge_inter_font_gpos_table_frame _ _ _ _ Hg)
        as (_ & _ & _ & _ & Hgsub & Hother & _)
  end.
  rewrite Hgsub, Hother. split; reflexivity.
Qed.

(** the positioning table and the glyph order after [merge_inter_font]
    are those produced by its first two steps *)
Lemma merge_inter_font_inv target_font inter_font punc font :
  merge_inter_font target_font inter_font punc = OK font ->
  exists merged,
    merge_inter_font_gpos_table
      (set_glyphOrder target_font
         (build_inter_name_map (glyphOrder inter_font) (glyphOrder target_font)).2)
      inter_font
      (build_inter_name_map (glyphOrder inter_font) (glyphOrder target_font)).1
      = OK merged
    /\ GPOS font = GPOS merged
    /\ glyphOrder font
       = (build_inter_name_map (glyphOrder inter_font) (glyphOrder target_font)).2
    /\ inter_gpos_merged font = true.
Proof.
  unfold merge_inter_font. intros Hm.
  destruct (has_table inter_font "fvar"); [discriminate|].
  inv_ok Hm. subst font. cbn.
  match goal with
  | Hg : merge_inter_font_gpos_table _ _ _ = OK ?m |- _ =>
      exists m;
      destruct (merge_inter_font_gpos_table_frame _ _ _ _ Hg)
        as (Horder & _ & _ & _ & _ & _ & Hflag)
  end.
  repeat split; assumption.
Qed.

(** C6. Once [merge_inter_font_gpos_table] has returned, the flag is set
    on the font, and a second call with any donor and any name map
    returns that font as it is; a second [merge_inter_font] leaves its
    positioning table (lookups, features, scripts, counts and indices)
    as the first merge left it. *)
Theorem merge_gpos_idempotent (target_font inter_font : TTFont)
    (inter_name_map : list (string * string)) (merged : TTFont) :
  merge_inter_font_gpos_table target_font inter_font inter_name_map = OK merged ->
  inter_gpos_merged merged = true
  /\ (forall inter_font' inter_name_map',
        merge_inter_font_gpos_table merged inter_font' inter_name_map' = OK merged)
  /\ (forall inter_font' punc font,
        merge_inter_font merged inter_font' punc = OK font ->
        GPOS font = GPOS merged)
  /\ (forall primary donor donor' punc punc' once twice,
        merge_inter_font primary donor punc = OK once ->
        merge_inter_font once donor' punc' = OK twice ->
        GPOS twice = GPOS once).
Proof.
  intros Hfirst.
  destruct (merge_inter_font_gpos_table_frame _ _ _ _ Hfirst)
    as (_ & _ & _ & _ & _ & _ & Hflag).
  assert (Hskip : forall font, inter_gpos_merged font = true ->
            forall donor m, merge_inter_font_gpos_table font donor m = OK font).
  { intros font Hf donor m. unfold merge_inter_font_gpos_table. rewrite Hf. reflexivity. }
  assert (Hagain : forall font donor punc font',
            inter_gpos_merged font = true ->
            merge_inter_font font donor punc = OK font' -> GPOS font' = GPOS font).
  { intros font donor punc font' Hf Hsecond.
    destruct (merge_inter_font_inv _ _ _ _ Hsecond) as (m & Hm & Hgpos & _).
    rewrite Hskip in Hm by exact Hf. injection Hm as <-. exact Hgpos. }
  split; [exact Hflag|]. split; [intros; apply Hskip; exact Hflag|].
  split.
  - intros donor punc font. apply Hagain. exact Hflag.
  - intros primary donor donor' punc punc' once twice Honce Htwice.
    destruct (merge_inter_font_inv _ _ _ _ Honce) as (_ & _ & _ & _ & Hf).
    exact (Hagain _ _ _ _ Hf Htwice).
Qed.

(** ** Pruning of features *)

Lemma elem_of_feature_indices p (records : list feature_record) idx :
  idx ∈ feature_indices p records <->
  exists f, records !! idx = Some f /\ p (FeatureTag f) = true.
Proof.
  unfold feature_indices. rewrite list_elem_of_In, in_map_iff. split.
  - intros ([i f] & <- & Hin). apply list_elem_of_In, list_elem_of_filter in Hin.
    destruct Hin as [Hp Hin]. apply elem_of_lookup_imap in Hin as (j & y & [= -> ->] & Hy).
    exists y. split; assumption.
  - intros (f & Hf & Hp). exists (idx, f). split; [reflexivity|].
    apply list_elem_of_In, list_elem_of_filter. split; [exact Hp|].
    apply (elem_of_lookup_imap_2 pair). exact Hf.
Qed.

Lemma filter_ext_elem {A} (P Q : A -> Prop) `{!forall x, Decision (P x)}
    `{!forall x, Decision (Q x)} (l : list A) :
  (forall x, x ∈ l -> P x <-> Q x) -> filter P l = filter Q l.
Proof.
  induction l as [|x l IH]; intros Hext; [reflexivity|].
  rewrite !filter_cons. rewrite IH by (intros y Hy; apply Hext; right; exact Hy).
  destruct (decide (P x)) as [Hp|Hp], (decide (Q x)) as [Hq|Hq]; try reflexivity;
    exfalso; apply (Hext x) in Hp || apply (Hext x) in Hq; try left; contradiction.
Qed.

Lemma map_snd_filter {A B} (P : A * B -> Prop) (Q : B -> Prop)
    `{!forall x, Decision (P x)} `{!forall x, Decision (Q x)} (l : list (A * B)) :
  (forall x, x ∈ l -> P x <-> Q x.2) ->
  map snd (filter P l) = filter Q (map snd l).
Proof.
  induction l as [|[a b] l IH]; intros Hext; [reflexivity|].
  cbn [map]. rewrite !filter_cons. cbn [snd].
  specialize (IH (fun y Hy => Hext y (list_elem_of_further _ _ _ Hy))).
  pose proof (Hext (a, b) (list_elem_of_here _ _)) as Hab. cbn in Hab.
  destruct (decide (P (a, b))), (decide (Q b)); cbn [map snd]; rewrite ?IH;
    try reflexivity; tauto.
Qed.

Lemma map_snd_imap {A} (g : nat -> nat) (l : list A) :
  map snd (imap (fun i x => (g i, x)) l) = l.
Proof.
  revert g. induction l as [|x l IH]; intros g; [reflexivity|].
  rewrite imap_cons. cbn. f_equal. apply (IH (fun i => g (S i))).
Qed.

(** dropping the records at the indices of a tag class keeps exactly the
    records outside the class, in their order *)
Lemma drop_indices_filter p (records : list feature_record) :
  drop_indices (feature_indices p records) records
  = filter (fun f => p (FeatureTag f) <> true) records.
Proof.
  unfold drop_indices.
  rewrite (map_snd_filter _ (fun f => p (FeatureTag f) <> true)).
  - rewrite (map_snd_imap (fun i => i)). reflexivity.
  - intros [i f] Hin. apply elem_of_lookup_imap in Hin as (j & y & [= -> ->] & Hy).
    cbn. rewrite elem_of_feature_indices. split.
    + intros Hno Hp. apply Hno. eauto.
    + intros Hp (f' & Hf' & Hp'). rewrite Hy in Hf'. injection Hf' as <-. contradiction.
Qed.

(** C5, as the code has it.  [remove_stylistic_sets] keeps exactly the
    feature records whose tag is not one of [ss01] ... [ss20], in their
    order, and takes out of every feature-index list the indices that
    pointed to a removed record; the indices it keeps are not
    renumbered. *)
Theorem remove_stylistic_sets_spec (font : TTFont) (gsub : otl_table gsub_lookup)
    (fl : feature_list) (sl : script_list) :
  GSUB font = Some gsub ->
  FeatureList gsub = Some fl ->
  ScriptList gsub = Some sl ->
  let removed := feature_indices is_ssXX (FeatureRecord fl) in
  let keep := fun ls =>
    mkLangSys (filter (fun idx => idx ∉ removed) (FeatureIndex ls)) in
  exists font' gsub' fl' sl',
    remove_stylistic_sets font = OK font'
    /\ GSUB font' = Some gsub'
    /\ FeatureList gsub' = Some fl'
    /\ ScriptList gsub' = Some sl'
    /\ FeatureRecord fl' = filter (fun f => FeatureTag f ∉ ssXX_tags) (FeatureRecord fl)
    /\ Forall (fun f => FeatureTag f ∉ ssXX_tags) (FeatureRecord fl')
    /\ (forall idx, idx ∈ removed <->
                    exists f, FeatureRecord fl !! idx = Some f /\ FeatureTag f ∈ ssXX_tags)
    /\ ScriptRecord sl'
       = map (fun sr => mkScriptRecord (ScriptTag sr)
                (mkScript (keep <$> DefaultLangSys (Script sr))
                          (map (fun lsr => mkLangSysRecord (LangSysTag lsr)
                                             (keep (LangSys lsr)))
                               (LangSysRecord (Script sr)))))
             (ScriptRecord sl).
Proof.
  intros Hgsub Hfl Hsl. cbn zeta.
  unfold remove_stylistic_sets. rewrite Hgsub, Hfl, Hsl. cbn.
  eexists _, _, _, _. split; [reflexivity|]. cbn.
  split; [reflexivity|]. split; [reflexivity|]. split; [reflexivity|].
  assert (Hkept : drop_indices (feature_indices is_ssXX (FeatureRecord fl)) (FeatureRecord fl)
                  = filter (fun f => FeatureTag f ∉ ssXX_tags) (FeatureRecord fl)).
  { rewrite drop_indices_filter. apply filter_ext_elem. intros f _.
    unfold is_ssXX. rewrite bool_decide_eq_true. reflexivity. }
  split; [exact Hkept|]. split.
  - rewrite Hkept. apply Forall_forall. intros f Hf.
    apply list_elem_of_filter in Hf. tauto.
  - split; [|reflexivity].
    intros idx. rewrite elem_of_feature_indices. unfold is_ssXX.
    setoid_rewrite bool_decide_eq_true. reflexivity.
Qed.

(** ** The width adjustment *)






(** ** The character map *)

Lemma keeps_target_spec target_cmap (target_hmtx : gmap string (Z * Z)) cp :
  keeps_target target_cmap target_hmtx cp = true <->
  exists target_glyph_name width lsb,
    dict_get target_cmap cp = Some target_glyph_name
    /\ target_glyph_name <> ""
    /\ target_hmtx !! target_glyph_name = Some (width, lsb)
    /\ 1000 <= width.
Proof.
  unfold keeps_target. split.
  - destruct (dict_get target_cmap cp) as [g|]; [|discriminate].
    case_bool_decide; [discriminate|].
    destruct (target_hmtx !! g) as [[w lsb]|] eqn:Hg; [|discriminate].
    intros Hw. apply Z.leb_le in Hw. exists g, w, lsb. auto.
  - intros (g & w & lsb & -> & Hne & -> & Hw).
    rewrite bool_decide_eq_false_2 by exact Hne. apply Z.leb_le. exact Hw.
Qed.

(** a code point whose glyph in the primary font is 1000 units wide or
    wider is passed over *)
Lemma update_cmap_entry_kept target_cmap target_hmtx inter_name_map tables cp
    inter_glyph_name :
  keeps_target target_cmap target_hmtx cp = true ->
  update_cmap_entry target_cmap target_hmtx inter_name_map tables (cp, inter_glyph_name)
    = OK tables.
Proof.
  intros Hk. unfold update_cmap_entry. rewrite Hk.
  destruct (is_control cp); reflexivity.
Qed.

(** a code point that is rewritten lands in every Unicode subtable of
    format 12, and of format 4 when it fits in 16 bits *)
Lemma update_cmap_entry_rewritten target_cmap target_hmtx inter_name_map tables cp
    inter_glyph_name new_glyph_name :
  is_control cp = false ->
  keeps_target target_cmap target_hmtx cp = false ->
  dict_get inter_name_map inter_glyph_name = Some new_glyph_name ->
  update_cmap_entry target_cmap target_hmtx inter_name_map tables (cp, inter_glyph_name)
    = OK (map (update_subtable cp new_glyph_name) tables).
Proof.
  intros Hc Hk Hn. unfold update_cmap_entry. rewrite Hc, Hk, Hn. reflexivity.
Qed.

(** ** The glyph name map *)

Lemma dict_get_set {K V} `{EqDecision K} (d : list (K * V)) k v k' :
  dict_get (dict_set d k v) k' = if decide (k = k') then Some v else dict_get d k'.
Proof.
  induction d as [|[k0 v0] d IH]; cbn.
  - destruct (decide (k = k')); reflexivity.
  - destruct (decide (k0 = k)) as [->|Hne]; cbn.
    + destruct (decide (k = k')); reflexivity.
    + rewrite IH. destruct (decide (k0 = k')) as [->|]; [|reflexivity].
      destruct (decide (k = k')); [congruence | reflexivity].
Qed.

Lemma build_inter_name_map_fold inter_glyph_order m order :
  fold_left add_inter_name inter_glyph_order (m, order)
  = (fold_left (fun m g => dict_set m g (merge_font_prefix +:+ g)) inter_glyph_order m,
     order ++ map (fun g => merge_font_prefix +:+ g) inter_glyph_order).
Proof.
  revert m order. induction inter_glyph_order as [|g l IH]; intros m order; cbn.
  - rewrite app_nil_r. reflexivity.
  - unfold add_inter_name at 2. cbn. rewrite IH, <- app_assoc. reflexivity.
Qed.

Lemma dict_get_name_map inter_glyph_order m g :
  dict_get (fold_left (fun m g => dict_set m g (merge_font_prefix +:+ g))
                      inter_glyph_order m) g
  = if decide (g ∈ inter_glyph_order) then Some (merge_font_prefix +:+ g)
    else dict_get m g.
Proof.
  revert m. induction inter_glyph_order as [|x l IH]; intros m; cbn.
  - rewrite decide_False by (intros Hin; inversion Hin). reflexivity.
  - rewrite IH, dict_get_set.
    destruct (decide (g ∈ l)) as [Hin|Hnotin].
    + rewrite decide_True by (right; exact Hin). reflexivity.
    + destruct (decide (x = g)) as [->|Hne].
      * rewrite decide_True by left. reflexivity.
      * rewrite decide_False; [reflexivity|].
        intros Hin. apply elem_of_cons in Hin as [->|Hin]; contradiction.
Qed.

(** the combined glyph order, and the name map as a function *)
Lemma build_inter_name_map_spec inter_glyph_order target_glyph_order :
  (build_inter_name_map inter_glyph_order target_glyph_order).2
  = target_glyph_order ++ map (fun g => merge_font_prefix +:+ g) inter_glyph_order
  /\ forall g,
       rename (build_inter_name_map inter_glyph_order target_glyph_order).1 g
       = if decide (g ∈ inter_glyph_order) then merge_font_prefix +:+ g else g.
Proof.
  unfold build_inter_name_map. rewrite build_inter_name_map_fold. cbn.
  split; [reflexivity|]. intros g. unfold rename. rewrite dict_get_name_map.
  destruct (decide (g ∈ inter_glyph_order)); reflexivity.
Qed.

(** ** The reference remapper *)

Lemma update_binding_fst name f nv : (update_binding name f nv).1 = nv.1.
Proof. unfold update_binding. destruct (decide (nv.1 = name)); reflexivity. Qed.

Lemma update_binding_snd name f nv :
  (update_binding name f nv).2 = if decide (nv.1 = name) then f nv.2 else nv.2.
Proof. unfold update_binding. destruct (decide (nv.1 = name)); reflexivity. Qed.

(** the sequence of assignments of [remap], seen from one attribute *)
Lemma remap_fuel_obj m n attrs :
  remap_fuel m (S n) (PyObj attrs) = PyObj (map (remap_attr m (remap_fuel m n)) attrs).
Proof.
  cbn [remap_fuel]. unfold update_attr. rewrite !map_map. f_equal.
  apply map_ext. intros [name val]. unfold remap_attr. f_equal.
  apply injective_projections; cbn [fst snd].
  - rewrite !update_binding_fst. reflexivity.
  - unfold assigned_value. rewrite !update_binding_snd, !update_binding_fst. cbn [fst snd].
    repeat (case_decide; subst; try congruence).
Qed.

(** *** Heights *)

Lemma height_item (x : pyval) (l : list pyval) :
  x ∈ l -> (height x <= foldr (fun x acc => max (height x) acc) 0 l)%nat.
Proof.
  induction l as [|y l IH]; intros Hin; [inversion Hin|].
  cbn. apply elem_of_cons in Hin as [->|Hin]; [lia|]. specialize (IH Hin). lia.
Qed.

Lemma height_attr (nv : string * pyval) (attrs : list (string * pyval)) :
  nv ∈ attrs -> (height nv.2 <= foldr (fun nv acc => max (height nv.2) acc) 0 attrs)%nat.
Proof.
  induction attrs as [|y l IH]; intros Hin; [inversion Hin|].
  cbn. apply elem_of_cons in Hin as [->|Hin]; [lia|]. specialize (IH Hin). lia.
Qed.

Lemma height_on_list f v :
  (forall x, height (f x) = height x) -> height (on_list f v) = height v.
Proof.
  intros Hf. destruct v as [| | |l| | |]; try reflexivity.
  cbn. f_equal. induction l as [|x l IH]; [reflexivity|].
  cbn. rewrite Hf, IH. reflexivity.
Qed.

Lemma height_on_obj_update name f v :
  (forall x, height (f x) = height x) ->
  height (on_obj (update_attr name f) v) = height v.
Proof.
  intros Hf. destruct v as [| | | | | |attrs]; try reflexivity.
  unfold on_obj, update_attr. cbn [height]. f_equal.
  induction attrs as [|nv l IH]; [reflexivity|].
  cbn [map foldr]. rewrite update_binding_snd, IH.
  destruct (decide (nv.1 = name)); [rewrite Hf|]; reflexivity.
Qed.

Lemma height_rename_item m v : height (rename_item m v) = height v.
Proof. destruct v; reflexivity. Qed.

Lemma height_rename_classDefs m v : height (rename_classDefs m v) = height v.
Proof. destruct v; reflexivity. Qed.

Lemma height_rename_ClassDef m v : height (rename_ClassDef m v) = height v.
Proof. apply height_on_obj_update, height_rename_classDefs. Qed.

Lemma height_rename_pairSet m v : height (rename_pairSet m v) = height v.
Proof.
  apply height_on_obj_update. intros x. apply height_on_list. intros y.
  apply height_on_obj_update, height_rename_item.
Qed.

(** ** The merge of the positioning tables *)

Lemma insert_lookups_rev (src tgt : list pyval) :
  insert_lookups src tgt = rev src ++ tgt.
Proof.
  unfold insert_lookups. revert tgt.
  induction src as [|x src IH]; intros tgt; cbn; [reflexivity|].
  rewrite IH, <- app_assoc. reflexivity.
Qed.

(** X23. What the merge of the positioning tables builds, for any two
    tables.  With a positioning table in the primary font, the donor's
    remapped lookups are put in front of the primary's in reverse order
    (each is inserted at index 0 in turn), every donor feature record is
    appended with its lookup indices increased by the primary's
    [LookupCount], and every donor script record is appended with the
    feature indices of its language systems increased by the primary's
    [FeatureCount]; without one, the remapped donor table becomes the
    table of the primary. *)
Theorem merge_inter_font_gpos_table_spec
    (target_with target_without inter_font : TTFont)
    (inter_name_map : list (string * string))
    (tgt_gpos inter_gpos : otl_table pyval)
    (tgt_sl : script_list) (tgt_fl : feature_list) (tgt_ll src_ll : lookup_list pyval) :
  inter_gpos_merged target_with = false ->
  inter_gpos_merged target_without = false ->
  GPOS inter_font = Some inter_gpos ->
  LookupList inter_gpos = Some src_ll ->
  GPOS target_with = Some tgt_gpos ->
  ScriptList tgt_gpos = Some tgt_sl ->
  FeatureList tgt_gpos = Some tgt_fl ->
  LookupList tgt_gpos = Some tgt_ll ->
  GPOS target_without = None ->
  let lookups := rev (map (remap inter_name_map) (Lookup src_ll)) ++ Lookup tgt_ll in
  let features :=
    FeatureRecord tgt_fl ++
    map (fun fr => mkFeatureRecord (FeatureTag fr)
                     (mkFeature (map (fun i => (LookupCount tgt_ll + i)%nat)
                                     (LookupListIndex (Feature fr)))))
        (match FeatureList inter_gpos with Some fl => FeatureRecord fl | None => [] end) in
  let offset_ls := fun ls =>
    mkLangSys (map (fun fi => (FeatureCount tgt_fl + fi)%nat) (FeatureIndex ls)) in
  let scripts :=
    ScriptRecord tgt_sl ++
    map (fun srec => mkScriptRecord (ScriptTag srec)
           (mkScript (offset_ls <$> DefaultLangSys (Script srec))
                     (map (fun lsr => mkLangSysRecord (LangSysTag lsr)
                                        (offset_ls (LangSys lsr)))
                          (LangSysRecord (Script srec)))))
        (match ScriptList inter_gpos with Some sl => ScriptRecord sl | None => [] end) in
  merge_inter_font_gpos_table target_with inter_font inter_name_map
    = OK (set_inter_gpos_merged
            (set_GPOS target_with
               (Some (mkOtl (Some (mkScriptList (length scripts) scripts))
                            (Some (mkFeatureList (length features) features))
                            (Some (mkLookupList (length lookups) lookups)))))
            true)
  /\ merge_inter_font_gpos_table target_without inter_font inter_name_map
     = OK (set_inter_gpos_merged
             (set_GPOS target_without (Some (remap_table inter_name_map inter_gpos)))
             true).
Proof.
  intros Hflag Hflag' Hinter Hsrc Htgt Hsl Hfl Hll Hnone. cbn zeta.
  unfold merge_inter_font_gpos_table.
  rewrite Hflag, Hflag', Hinter, Htgt, Hnone. split; [|reflexivity].
  unfold merge_gpos_tables, remap_table. rewrite Hsl, Hfl, Hll, Hsrc. cbn.
  rewrite insert_lookups_rev. reflexivity.
Qed.

Lemma process_glyphs_frame font pct font' processed unprocessed :
  process_glyphs font pct = OK (font', processed, unprocessed) ->
  GSUB font' = GSUB font /\ other_tables font' = other_tables font
  /\ GPOS font' = GPOS font /\ cmap font' = cmap font
  /\ glyphOrder font' = glyphOrder font.
Proof.
  unfold process_glyphs. intros Hp. inv_ok Hp.
  injection Hp as <- _ _. repeat split; reflexivity.
Qed.

Lemma set_font_parameter_frame font font' :
  set_font_parameter font = OK font' -> font' = font.
Proof.
  unfold set_font_parameter. destruct (has_table font "name"); [|discriminate].
  intros [= <-]. reflexivity.
Qed.

(** C10. [remove_font_tables] leaves no [GSUB], no [STAT] and no table
    whose tag begins with [cv]; [remove_locl_feature], which runs next,
    returns the font as it is; and whenever [build_font] reaches [save],
    the font it saves has none of these tables. *)
Theorem build_font_drops_gsub (static_font : TTFont) (config : FontBuildConfig)
    (saved : TTFont) :
  build_font static_font config = OK saved ->
  (forall font, no_gsub_stat_cv (remove_font_tables font)
                /\ GSUB (remove_font_tables font) = None
                /\ remove_locl_feature (remove_font_tables font)
                   = OK (remove_font_tables font))
  /\ GSUB saved = None
  /\ no_gsub_stat_cv saved.
Proof.
  intros Hbuild. split.
  - intros font. split; [apply remove_font_tables_spec|].
    split; [apply remove_font_tables_GSUB|].
    apply remove_locl_feature_no_GSUB, remove_font_tables_GSUB.
  - unfold build_font in Hbuild.
    destruct (has_table static_font "cvar" || has_table static_font "fvar"
              || has_table static_font "gvar"); [discriminate|].
    apply bind_ok_inv in Hbuild as (f1 & _ & Hbuild).
    apply bind_ok_inv in Hbuild as (f2 & _ & Hbuild).
    rewrite (remove_locl_feature_no_GSUB _ (remove_font_tables_GSUB f2)) in Hbuild.
    cbn [mbind result_bind] in Hbuild.
    apply bind_ok_inv in Hbuild as (f3 & Hmerge & Hbuild).
    apply bind_ok_inv in Hbuild as ([[f4 processed] unprocessed] & Hprocess & Hbuild).
    apply bind_ok_inv in Hbuild as (f5 & Hparam & Hbuild).
    apply set_font_parameter_frame in Hparam. cbn in Hparam. subst f5.
    assert (Hsaved : saved = f4).
    { apply mret_ok_inv in Hbuild. unfold set_line_gap in Hbuild.
      destruct (new_line_gap config =? 0); congruence. }
    subst saved.
    destruct (process_glyphs_frame _ _ _ _ _ Hprocess) as (Hg4 & Ho4 & _).
    assert (Hf3 : GSUB f3 = GSUB (remove_font_tables f2)
                  /\ other_tables f3 = other_tables (remove_font_tables f2)).
    { destruct (merge_font config) as [inter_font|].
      - apply merge_inter_font_frame in Hmerge. exact Hmerge.
      - cbn in Hmerge. injection Hmerge as <-. split; reflexivity. }
    destruct Hf3 as [Hg3 Ho3]. split.
    + rewrite Hg4, Hg3. apply remove_font_tables_GSUB.
    + apply (no_gsub_stat_cv_eq (remove_font_tables f2)); [congruence | congruence |].
      apply remove_font_tables_spec.
Qed.
(** ** Glyph names after the remapper *)
Lemma sites_obj attrs : sites (PyObj attrs) = flat_map attr_sites attrs.
Proof. reflexivity. Qed.

Lemma height_pos v : (1 <= height v)%nat.
Proof. destruct v; cbn; lia. Qed.

Lemma remap_fuel_other m n v :
  (forall attrs, v <> PyObj attrs) -> remap_fuel m n v = v.
Proof. intros Hv. destruct n, v; try reflexivity. exfalso. eapply Hv. reflexivity. Qed.

Lemma str_site_remap_fuel m n v : str_site (remap_fuel m n v) = str_site v.
Proof.
  destruct v; try (rewrite remap_fuel_other by discriminate; reflexivity).
  destruct n; [reflexivity|]. rewrite remap_fuel_obj. reflexivity.
Qed.

Lemma remap_fuel_is_obj m n attrs :
  exists attrs', remap_fuel m n (PyObj attrs) = PyObj attrs'.
Proof. destruct n; [eexists; reflexivity|]. rewrite remap_fuel_obj. eexists; reflexivity. Qed.

Lemma scan_attr_fst rec nv : (scan_attr rec nv).1 = nv.1.
Proof.
  unfold scan_attr. destruct (startswith "_" nv.1); [reflexivity|].
  destruct nv.2; try reflexivity. destruct (decide (nv.1 = "ExtSubTable")); reflexivity.
Qed.

Lemma remap_attr_fst m rec nv : (remap_attr m rec nv).1 = nv.1.
Proof. unfold remap_attr. rewrite scan_attr_fst. reflexivity. Qed.


Lemma dict_set_keys {V} (d : list (string * V)) k v x :
  x ∈ map fst (dict_set d k v) -> x = k \/ x ∈ map fst d.
Proof.
  induction d as [|[k0 v0] d IH]; cbn.
  - intros Hx. apply list_elem_of_singleton in Hx. auto.
  - destruct (decide (k0 = k)) as [->|Hne]; cbn.
    + intros Hx. right. exact Hx.
    + intros Hx. apply elem_of_cons in Hx as [->|Hx].
      * right. left.
      * destruct (IH Hx) as [->|Hd]; [left; reflexivity | right; right; exact Hd].
Qed.

Lemma dict_update_keys {V} (d l : list (string * V)) x :
  x ∈ map fst (dict_update d l) -> x ∈ map fst d \/ x ∈ map fst l.
Proof.
  unfold dict_update. revert d. induction l as [|[k v] l IH]; intros d; cbn.
  - auto.
  - intros Hx. destruct (IH _ Hx) as [Hd|Hl].
    + apply dict_set_keys in Hd as [->|Hd]; [right; left | left; exact Hd].
    + right. right. exact Hl.
Qed.

Lemma dict_of_items_keys {V} (l : list (string * V)) x :
  x ∈ map fst (dict_of_items l) -> x ∈ map fst l.
Proof.
  intros Hx. apply dict_update_keys in Hx as [Hx|Hx]; [inversion Hx | exact Hx].
Qed.

Lemma Forall_mono {A} (P Q : A -> Prop) (l : list A) :
  (forall x, P x -> Q x) -> Forall P l -> Forall Q l.
Proof. intros HPQ Hl. eapply Forall_impl; [exact Hl | exact HPQ]. Qed.

Lemma flat_map_map {A B C} (f : B -> list C) (g : A -> B) (l : list A) :
  flat_map f (map g l) = flat_map (fun x => f (g x)) l.
Proof. induction l as [|x l IH]; [reflexivity|]. cbn. rewrite IH. reflexivity. Qed.

Section RemapSites.
Variable m : list (string * string).
Variables R P : string -> Prop.
Hypothesis HRP : forall s, R s -> P (rename m s).
Hypothesis HPR : forall s, P s -> R s.

Lemma Forall_str_site_rename v :
  Forall R (str_site v) -> Forall P (str_site (rename_item m v)).
Proof.
  destruct v; cbn; try solve [intros; constructor].
  intros Hs. apply Forall_cons in Hs as [Hs _]. constructor; [apply HRP; exact Hs | constructor].
Qed.

Lemma Forall_classDefs_keys (d : list (string * Z)) :
  Forall R (map fst d) ->
  Forall P (map fst (dict_of_items (map (fun gc => (rename m gc.1, gc.2)) d))).
Proof.
  intros Hd. apply Forall_forall. intros x Hx.
  apply dict_of_items_keys in Hx. rewrite map_map in Hx. cbn in Hx.
  apply list_elem_of_In, in_map_iff in Hx as (gc & <- & Hgc).
  apply HRP. rewrite Forall_forall in Hd. apply Hd.
  apply list_elem_of_In, in_map_iff. exists gc. split; [reflexivity | exact Hgc].
Qed.

Lemma Forall_pvr_sites_rename p :
  Forall R (pvr_sites p) -> Forall P (pvr_sites (rename_pvr m p)).
Proof.
  destruct p as [| | | | | |attrs]; cbn; try solve [intros; constructor].
  unfold update_attr. rewrite !Forall_flat_map, Forall_map.
  apply Forall_mono. intros nv. rewrite update_binding_fst, update_binding_snd.
  destruct (decide (nv.1 = "SecondGlyph")); [|intros; constructor].
  apply Forall_str_site_rename.
Qed.

Lemma Forall_pairset_sites_rename x :
  Forall R (pairset_sites x) -> Forall P (pairset_sites (rename_pairSet m x)).
Proof.
  destruct x as [| | | | | |attrs]; cbn; try solve [intros; constructor].
  unfold update_attr. rewrite !Forall_flat_map, Forall_map.
  apply Forall_mono. intros nv. rewrite update_binding_fst, update_binding_snd.
  destruct (decide (nv.1 = "PairValueRecord")); [|intros; constructor].
  destruct nv.2; cbn; try solve [intros; constructor].
  rewrite !Forall_flat_map, Forall_map. apply Forall_mono. intros p.
  apply Forall_pvr_sites_rename.
Qed.

Lemma pvr_sites_remap_fuel n p : pvr_sites (remap_fuel m n p) = pvr_sites p.
Proof.
  destruct p as [| | | | | |attrs]; try (rewrite remap_fuel_other by discriminate; reflexivity).
  destruct n; [reflexivity|]. rewrite remap_fuel_obj. cbn.
  rewrite flat_map_map.
  apply flat_map_ext. intros nv. rewrite remap_attr_fst.
  destruct (decide (nv.1 = "SecondGlyph")) as [Hn|]; [|reflexivity].
  unfold remap_attr, assigned_value. rewrite Hn.
  repeat (case_decide; try congruence).
  unfold scan_attr. cbn.
  destruct nv.2; try reflexivity.
  case_decide; cbn [snd]; rewrite ?str_site_remap_fuel; reflexivity.
Qed.

Lemma pairset_sites_remap_fuel n x : pairset_sites (remap_fuel m n x) = pairset_sites x.
Proof.
  destruct x as [| | | | | |attrs]; try (rewrite remap_fuel_other by discriminate; reflexivity).
  destruct n; [reflexivity|]. rewrite remap_fuel_obj. cbn.
  rewrite flat_map_map.
  apply flat_map_ext. intros nv. rewrite remap_attr_fst.
  destruct (decide (nv.1 = "PairValueRecord")) as [Hn|]; [|reflexivity].
  unfold remap_attr, assigned_value. rewrite Hn.
  repeat (case_decide; try congruence).
  unfold scan_attr. cbn.
  destruct nv.2; try reflexivity.
  - cbn [snd]. rewrite flat_map_map.
    apply flat_map_ext. intros p. apply pvr_sites_remap_fuel.
  - case_decide; [reflexivity|]. cbn [snd].
    destruct (remap_fuel_is_obj m n attrs0) as [attrs' ->]. reflexivity.
Qed.

Lemma attr_sites_update_SecondGlyph nv :
  attr_sites (update_binding "SecondGlyph" (rename_item m) nv) = attr_sites nv.
Proof.
  unfold update_binding. destruct (decide (nv.1 = "SecondGlyph")) as [Hn|]; [|reflexivity].
  unfold attr_sites, own_sites, child_sites. cbn [fst snd]. rewrite Hn.
  repeat (case_decide; try congruence). cbn.
  destruct nv.2; reflexivity.
Qed.

Lemma sites_rename_pvr p : sites (rename_pvr m p) = sites p.
Proof.
  destruct p as [| | | | | |attrs]; try reflexivity.
  unfold rename_pvr, on_obj, update_attr. rewrite !sites_obj, flat_map_map.
  apply flat_map_ext. intros nv. apply attr_sites_update_SecondGlyph.
Qed.

Lemma sites_rename_pairSet x : sites (rename_pairSet m x) = sites x.
Proof.
  destruct x as [| | | | | |attrs]; try reflexivity.
  unfold rename_pairSet, on_obj, update_attr. rewrite !sites_obj, flat_map_map.
  apply flat_map_ext. intros nv.
  unfold update_binding. destruct (decide (nv.1 = "PairValueRecord")) as [Hn|]; [|reflexivity].
  unfold attr_sites, own_sites, child_sites. cbn [fst snd]. rewrite Hn.
  repeat (case_decide; try congruence). cbn.
  destruct nv.2; try reflexivity.
  cbn. rewrite flat_map_map. apply flat_map_ext. intros p. apply sites_rename_pvr.
Qed.

Lemma sites_rename_ClassDef v :
  Forall R (sites v) -> Forall R (sites (rename_ClassDef m v)).
Proof.
  destruct v as [| | | | | |attrs]; try (intros; assumption).
  unfold rename_ClassDef, on_obj, update_attr. rewrite !sites_obj, flat_map_map.
  rewrite !Forall_flat_map. apply Forall_mono. intros nv.
  unfold update_binding. destruct (decide (nv.1 = "classDefs")) as [Hn|]; [|tauto].
  unfold attr_sites, own_sites, child_sites. cbn [fst snd]. rewrite Hn.
  repeat (case_decide; try congruence). cbn.
  destruct nv.2; try tauto.
  cbn. rewrite !app_nil_r. intros Hd.
  apply (Forall_mono P R); [exact HPR|]. apply Forall_classDefs_keys. exact Hd.
Qed.

Section Step.
Variable n : nat.
Let rec := remap_fuel m n.
Hypothesis IH : forall v, (height v <= n)%nat -> Forall R (sites v) -> Forall P (sites (rec v)).

Lemma items_step (h : pyval -> pyval) (l : list pyval) :
  (forall x, height (h x) = height x) ->
  (forall x, Forall R (sites x) -> Forall R (sites (h x))) ->
  (height (PyList l) <= n)%nat ->
  Forall R (flat_map sites l) ->
  Forall P (flat_map sites (map rec (map h l))).
Proof.
  intros Hheight Hsites Hl. rewrite !flat_map_map, !Forall_flat_map.
  rewrite !Forall_forall. intros Hall x Hx. apply IH.
  - rewrite Hheight. pose proof (height_item x l Hx). cbn in Hl. lia.
  - apply Hsites, Hall, Hx.
Qed.

Lemma items_step_id (l : list pyval) :
  (height (PyList l) <= n)%nat ->
  Forall R (flat_map sites l) ->
  Forall P (flat_map sites (map rec l)).
Proof.
  intros Hl Hs. rewrite <- (map_id l) at 1.
  apply (items_step (fun x => x)); auto.
Qed.

Lemma sites_rename_item x : sites (rename_item m x) = sites x.
Proof. destruct x; reflexivity. Qed.

Lemma own_sites_remap_attr nv :
  Forall R (own_sites nv) -> Forall P (own_sites (remap_attr m rec nv)).
Proof.
  unfold own_sites. rewrite remap_attr_fst.
  unfold remap_attr, assigned_value, scan_attr. cbn [fst snd].
  destruct nv as [name val]. cbn [fst snd].
  repeat (case_decide; subst; try congruence); try solve [intros; constructor].
  - (* glyphs *)
    destruct val as [| | |l| | |a]; cbn; try solve [intros; constructor].
    + rewrite !flat_map_map, !Forall_flat_map. apply Forall_mono. intros x.
      unfold rec. rewrite str_site_remap_fuel. apply Forall_str_site_rename.
    + destruct (remap_fuel_is_obj m n a) as [a' Ha]. unfold rec. rewrite Ha. constructor.
  - (* classDefs *)
    destruct val as [| | |l| |d|a]; cbn; try solve [intros; constructor].
    + apply Forall_classDefs_keys.
    + destruct (remap_fuel_is_obj m n a) as [a' Ha]. unfold rec. rewrite Ha. constructor.
  - (* PairSet *)
    destruct val as [| | |l| | |a]; cbn; try solve [intros; constructor].
    + rewrite !flat_map_map, !Forall_flat_map. apply Forall_mono. intros x.
      unfold rec. rewrite pairset_sites_remap_fuel. apply Forall_pairset_sites_rename.
    + destruct (remap_fuel_is_obj m n a) as [a' Ha]. unfold rec. rewrite Ha. constructor.
Qed.

Lemma obj_step (h : pyval -> pyval) (v : pyval) :
  (forall x, height (h x) = height x) ->
  (forall x, Forall R (sites x) -> Forall R (sites (h x))) ->
  (height v <= n)%nat ->
  Forall R (sites v) ->
  Forall P (sites (rec (h v))).
Proof. intros Hheight Hsites Hv Hs. apply IH; [rewrite Hheight; exact Hv | auto]. Qed.

Lemma rec_other v : (forall attrs, v <> PyObj attrs) -> rec v = v.
Proof. apply remap_fuel_other. Qed.

Lemma scanned_obj_sites a :
  match rec (PyObj a) with
  | PyList l => flat_map sites l
  | PyObj _ => sites (rec (PyObj a))
  | _ => []
  end = sites (rec (PyObj a)).
Proof. unfold rec. destruct (remap_fuel_is_obj m n a) as [a' ->]. reflexivity. Qed.

Lemma child_sites_remap_attr nv :
  (height nv.2 <= n)%nat ->
  Forall R (child_sites nv) -> Forall P (child_sites (remap_attr m rec nv)).
Proof.
  unfold child_sites. rewrite remap_attr_fst.
  destruct (startswith "_" nv.1) eqn:Hprivate; [intros; constructor|].
  unfold remap_attr, assigned_value, scan_attr. cbn [fst snd]. rewrite Hprivate.
  destruct nv as [name val]. cbn [fst snd] in *.
  repeat (case_decide; subst; try congruence);
    destruct val as [| | |l| |d|a];
    cbn [on_list on_obj rename_classDefs rename_ClassDef rename_PairSet snd fst];
    try rewrite !rec_other by discriminate;
    try solve [intros; constructor];
    try solve [apply items_step_id];
    try solve [rewrite scanned_obj_sites; apply IH].
  - (* glyphs, list *)
    apply items_step; [apply height_rename_item|].
    intros x. rewrite sites_rename_item. auto.
  - (* ClassDef1, object *)
    rewrite scanned_obj_sites.
    apply (obj_step (rename_ClassDef m) (PyObj a));
      [apply height_rename_ClassDef | apply sites_rename_ClassDef].
  - (* ClassDef2, object *)
    rewrite scanned_obj_sites.
    apply (obj_step (rename_ClassDef m) (PyObj a));
      [apply height_rename_ClassDef | apply sites_rename_ClassDef].
  - (* PairSet, list *)
    apply items_step; [apply height_rename_pairSet|].
    intros x. rewrite sites_rename_pairSet. auto.
  - (* ExtSubTable, object *)
    intros Hh Hs. pose proof (IH _ Hh Hs) as Hrec. revert Hrec.
    destruct (rec (PyObj a)) eqn:Ha; cbn [snd]; try solve [intros; constructor].
    + unfold rec in Ha. destruct (remap_fuel_is_obj m n a) as [a' Ha']. congruence.
    + auto.
Qed.

Lemma attr_sites_remap_attr nv :
  (height nv.2 <= n)%nat ->
  Forall R (attr_sites nv) -> Forall P (attr_sites (remap_attr m rec nv)).
Proof.
  unfold attr_sites. rewrite !Forall_app. intros Hh [Hown Hchild].
  split; [apply own_sites_remap_attr | apply child_sites_remap_attr]; assumption.
Qed.
End Step.

(** names that were donor names or are already prefixed come out
    prefixed, at every place the remapper rewrites *)
Lemma sites_remap_fuel n v :
  (height v <= n)%nat -> Forall R (sites v) -> Forall P (sites (remap_fuel m n v)).
Proof.
  revert v. induction n as [|n IH]; intros v Hh Hs.
  - pose proof (height_pos v). lia.
  - destruct v as [| | | | | |attrs];
      try (rewrite remap_fuel_other by discriminate; constructor).
    rewrite remap_fuel_obj, sites_obj, flat_map_map.
    rewrite sites_obj in Hs. rewrite Forall_flat_map in *.
    rewrite Forall_forall in *. intros nv Hnv.
    apply attr_sites_remap_attr; [exact IH | | apply Hs; exact Hnv].
    pose proof (height_attr nv attrs Hnv). cbn in Hh. lia.
Qed.

Lemma sites_remap v : Forall R (sites v) -> Forall P (sites (remap m v)).
Proof. apply sites_remap_fuel. reflexivity. Qed.
End RemapSites.

Lemma sites_remap_lookups inter_glyph_order target_glyph_order (lookups : list pyval) :
  Forall (fun s => s ∈ inter_glyph_order) (flat_map sites lookups) ->
  Forall (namespaced inter_glyph_order)
    (flat_map sites
       (map (remap (build_inter_name_map inter_glyph_order target_glyph_order).1) lookups)).
Proof.
  destruct (build_inter_name_map_spec inter_glyph_order target_glyph_order) as [_ Hrename].
  rewrite flat_map_map, !Forall_flat_map. apply Forall_mono. intros v Hv.
  apply (sites_remap _ (fun s => s ∈ inter_glyph_order \/ namespaced inter_glyph_order s)).
  - intros s Hs. rewrite Hrename. destruct (decide (s ∈ inter_glyph_order)) as [Hin|Hout].
    + exists s. split; [exact Hin | reflexivity].
    + destruct Hs as [Hs|Hs]; [contradiction | exact Hs].
  - intros s Hs. right. exact Hs.
  - eapply Forall_mono; [|exact Hv]. intros s Hs. left. exact Hs.
Qed.

Lemma table_sites_remap_table m t :
  table_sites (remap_table m t)
  = flat_map sites (map (remap m) (match LookupList t with Some ll => Lookup ll | None => [] end)).
Proof. unfold table_sites, remap_table. cbn. destruct (LookupList t); reflexivity. Qed.

Lemma merge_gpos_tables_sites tgt src merged :
  merge_gpos_tables tgt src = OK merged ->
  table_sites merged
  = flat_map sites (rev (match LookupList src with Some ll => Lookup ll | None => [] end))
    ++ table_sites tgt.
Proof.
  unfold merge_gpos_tables. intros Hm.
  destruct (LookupList tgt) as [tgt_ll|] eqn:Htll; [|cbn in Hm; discriminate].
  destruct (FeatureList tgt) as [tgt_fl|]; [|cbn in Hm; discriminate].
  destruct (LookupList src) as [src_ll|] eqn:Hsll; [|cbn in Hm; discriminate].
  destruct (ScriptList tgt) as [tgt_sl|]; [|cbn in Hm; discriminate].
  cbn in Hm. injection Hm as <-. unfold table_sites. cbn.
  rewrite Htll, insert_lookups_rev, flat_map_app. reflexivity.
Qed.

Lemma merge_inter_font_gpos_table_sites target_font inter_font m font :
  merge_inter_font_gpos_table target_font inter_font m = OK font ->
  exists lookups,
    font_sites font = flat_map sites (map (remap m) lookups) ++ font_sites target_font
    /\ Forall (fun v => v ∈ match GPOS inter_font ≫= LookupList with
                            | Some ll => Lookup ll
                            | None => []
                            end) lookups.
Proof.
  unfold merge_inter_font_gpos_table. intros Hm.
  destruct (inter_gpos_merged target_font).
  { inv_ok Hm. subst font. exists []. split; [reflexivity | constructor]. }
  destruct (GPOS inter_font) as [inter_gpos|] eqn:Hinter.
  2:{ inv_ok Hm. subst font. exists []. split; [reflexivity | constructor]. }
  destruct (GPOS target_font) as [tgt_gpos|] eqn:Htgt.
  - apply bind_ok_inv in Hm as (merged & Hmerged & Hm). inv_ok Hm. subst font.
    apply merge_gpos_tables_sites in Hmerged.
    exists (rev (match LookupList inter_gpos with Some ll => Lookup ll | None => [] end)).
    split.
    + unfold font_sites. cbn. rewrite Htgt, Hmerged. f_equal.
      unfold remap_table. cbn. destruct (LookupList inter_gpos); cbn; [|reflexivity].
      rewrite map_rev. reflexivity.
    + apply Forall_forall. intros v Hv.
      apply list_elem_of_In in Hv. apply <- in_rev in Hv. apply list_elem_of_In in Hv.
      exact Hv.
  - inv_ok Hm. subst font.
    exists (match LookupList inter_gpos with Some ll => Lookup ll | None => [] end).
    split.
    + unfold font_sites. cbn. rewrite Htgt, app_nil_r. apply table_sites_remap_table.
    + apply Forall_forall. intros v Hv. exact Hv.
Qed.

(** X1. After [merge_inter_font], with every name the donor's positioning
    lookups hold in a coverage list, a class-definition map or a
    [SecondGlyph] field being a glyph of the donor, and likewise for the
    primary: the glyph order is the primary's followed by the prefixed
    donor names; the names held at those places are the names the
    remapped donor lookups hold, each a prefixed donor name, followed by
    the names of the primary's lookups, unchanged; and every one of them
    is in the glyph order. *)
Theorem merge_inter_font_glyph_names
    (target_font inter_font : TTFont) (replace_punc : Z) (font : TTFont) :
  merge_inter_font target_font inter_font replace_punc = OK font ->
  Forall (fun s => s ∈ glyphOrder inter_font) (font_sites inter_font) ->
  Forall (fun s => s ∈ glyphOrder target_font) (font_sites target_font) ->
  glyphOrder font
    = glyphOrder target_font ++ map (fun g => merge_font_prefix +:+ g) (glyphOrder inter_font)
  /\ Forall (fun s => s ∈ glyphOrder font) (font_sites font)
  /\ exists donor_sites,
       font_sites font = donor_sites ++ font_sites target_font
       /\ Forall (namespaced (glyphOrder inter_font)) donor_sites.
Proof.
  intros Hmerge Hinter Htarget.
  destruct (merge_inter_font_inv _ _ _ _ Hmerge) as (merged & Hm & Hgpos & Horder & _).
  destruct (build_inter_name_map_spec (glyphOrder inter_font) (glyphOrder target_font))
    as [Horder' _].
  rewrite Horder' in Horder.
  destruct (merge_inter_font_gpos_table_sites _ _ _ _ Hm) as (lookups & Hsites & Hlookups).
  assert (Hfont : font_sites font = font_sites merged)
    by (unfold font_sites; rewrite Hgpos; reflexivity).
  assert (Hdonor : Forall (namespaced (glyphOrder inter_font))
            (flat_map sites
               (map (remap (build_inter_name_map (glyphOrder inter_font)
                              (glyphOrder target_font)).1) lookups))).
  { apply sites_remap_lookups. rewrite Forall_flat_map.
    rewrite Forall_forall in Hlookups |- *. intros v Hv. specialize (Hlookups v Hv).
    unfold font_sites, table_sites in Hinter.
    destruct (GPOS inter_font) as [t|]; cbn in Hlookups; [|inversion Hlookups].
    destruct (LookupList t) as [ll|]; [|inversion Hlookups].
    rewrite Forall_flat_map, Forall_forall in Hinter. apply Hinter. exact Hlookups. }
  rewrite Hfont, Hsites. cbn [glyphOrder set_glyphOrder] in *.
  split; [exact Horder|]. split.
  - rewrite Horder. apply Forall_app. split.
    + eapply Forall_mono; [|exact Hdonor]. intros s (g & Hg & ->).
      apply elem_of_app. right. apply list_elem_of_In, in_map_iff.
      exists g. split; [reflexivity | apply list_elem_of_In; exact Hg].
    + eapply Forall_mono; [|exact Htarget]. intros s Hs. apply elem_of_app. left. exact Hs.
  - eexists. split; [reflexivity | exact Hdonor].
Qed.

(** ** The steps of [merge_inter_font] *)

(** a merge that returns went through every step *)
Lemma merge_inter_font_steps target_font inter_font punc font :
  merge_inter_font target_font inter_font punc = OK font ->
  exists inter_glyf inter_hmtx target_glyf target_hmtx merged glyf1 hmtx1 glyf2
         inter_tables target_tables tables,
    has_table inter_font "fvar" = false
    /\ glyf inter_font = Some inter_glyf
    /\ hmtx inter_font = Some inter_hmtx
    /\ glyf target_font = Some target_glyf
    /\ hmtx target_font = Some target_hmtx
    /\ cmap inter_font = Some inter_tables
    /\ cmap target_font = Some target_tables
    /\ merge_inter_font_gpos_table
         (set_glyphOrder target_font
            (build_inter_name_map (glyphOrder inter_font) (glyphOrder target_font)).2)
         inter_font
         (build_inter_name_map (glyphOrder inter_font) (glyphOrder target_font)).1
       = OK merged
    /\ rfold (copy_inter_glyph inter_glyf inter_hmtx)
             (build_inter_name_map (glyphOrder inter_font) (glyphOrder target_font)).1
             (target_glyf, target_hmtx) = OK (glyf1, hmtx1)
    /\ rfold (replace_punctuation (set_hmtx (set_glyf merged glyf1) hmtx1)
                inter_glyf inter_hmtx hmtx1
                (build_inter_name_map (glyphOrder inter_font) (glyphOrder target_font)).1)
             (inter_punc_map punc) glyf1 = OK glyf2
    /\ update_cmap inter_tables target_tables hmtx1
         (build_inter_name_map (glyphOrder inter_font) (glyphOrder target_font)).1
       = OK tables
    /\ font = set_cmap (set_glyf (set_hmtx (set_glyf merged glyf1) hmtx1) glyf2) tables.
Proof.
  unfold merge_inter_font. intros Hm.
  destruct (has_table inter_font "fvar"); [discriminate|].
  destruct (glyf inter_font) as [inter_glyf|]; [|discriminate].
  destruct (hmtx inter_font) as [inter_hmtx|]; [|discriminate].
  destruct (glyf target_font) as [target_glyf|]; [|discriminate].
  destruct (hmtx target_font) as [target_hmtx|]; [|discriminate].
  cbn [gettable mbind result_bind] in Hm.
  destruct (build_inter_name_map (glyphOrder inter_font) (glyphOrder target_font))
    as [inter_name_map target_glyph_order].
  apply bind_ok_inv in Hm as (merged & Hmerged & Hm).
  apply bind_ok_inv in Hm as ([glyf1 hmtx1] & Hcopy & Hm).
  apply bind_ok_inv in Hm as (glyf2 & Hpunc & Hm).
  apply bind_ok_inv in Hm as (inter_tables & Hit & Hm).
  apply bind_ok_inv in Hm as (target_tables & Htt & Hm).
  apply bind_ok_inv in Hm as (tables & Hupd & Hm).
  apply mret_ok_inv in Hm.
  destruct (merge_inter_font_gpos_table_frame _ _ _ _ Hmerged)
    as (_ & _ & _ & Hcmap & _).
  cbn in Htt. rewrite Hcmap in Htt. cbn in Htt.
  destruct (cmap inter_font) as [it|]; [|discriminate]. injection Hit as ->.
  destruct (cmap target_font) as [tt|]; [|discriminate]. injection Htt as ->.
  exists inter_glyf, inter_hmtx, target_glyf, target_hmtx, merged, glyf1, hmtx1, glyf2,
         inter_tables, target_tables, tables.
  repeat (split; [first [reflexivity | assumption]|]). symmetry. exact Hm.
Qed.

(** *** The glyph name map, item by item *)

Lemma prefix_inj (p a b : string) : p +:+ a = p +:+ b -> a = b.
Proof. apply (inj (String.app p)). Qed.

Lemma elem_of_dict_set {K V} `{EqDecision K} (d : list (K * V)) k v kv :
  kv ∈ dict_set d k v -> kv = (k, v) \/ kv ∈ d.
Proof.
  induction d as [|[k0 v0] d IH]; cbn.
  - intros Hkv. apply list_elem_of_singleton in Hkv. left. exact Hkv.
  - destruct (decide (k0 = k)) as [->|Hne].
    + intros Hkv. apply elem_of_cons in Hkv as [->|Hkv]; [left; reflexivity|].
      right. right. exact Hkv.
    + intros Hkv. apply elem_of_cons in Hkv as [->|Hkv]; [right; left|].
      destruct (IH Hkv) as [->|Hd]; [left; reflexivity | right; right; exact Hd].
Qed.

Lemma dict_get_elem {K V} `{EqDecision K} (d : list (K * V)) k v :
  dict_get d k = Some v -> (k, v) ∈ d.
Proof.
  induction d as [|[k0 v0] d IH]; cbn; [discriminate|].
  destruct (decide (k0 = k)) as [->|Hne].
  - intros [= ->]. left.
  - intros Hd. right. apply IH. exact Hd.
Qed.

(** the glyph name map holds the pairs [(g, prefix + g)] for the donor's
    glyph names [g] and nothing else *)
Lemma name_map_items inter_glyph_order target_glyph_order kv :
  kv ∈ (build_inter_name_map inter_glyph_order target_glyph_order).1 ->
  kv.1 ∈ inter_glyph_order /\ kv.2 = merge_font_prefix +:+ kv.1.
Proof.
  unfold build_inter_name_map. rewrite build_inter_name_map_fold. cbn [fst].
  assert (Hgen : forall m,
            kv ∈ fold_left (fun m g => dict_set m g (merge_font_prefix +:+ g))
                           inter_glyph_order m ->
            kv ∈ m \/ (kv.1 ∈ inter_glyph_order /\ kv.2 = merge_font_prefix +:+ kv.1)).
  { induction inter_glyph_order as [|g l IH]; intros m; cbn; [auto|].
    intros Hkv. destruct (IH _ Hkv) as [Hm|[Hin Heq]].
    - apply elem_of_dict_set in Hm as [->|Hm]; [|left; exact Hm].
      right. split; [left | reflexivity].
    - right. split; [right; exact Hin | exact Heq]. }
  intros Hkv. destruct (Hgen [] Hkv) as [Hnil|Hok]; [inversion Hnil | exact Hok].
Qed.

Lemma name_map_lookup inter_glyph_order target_glyph_order g :
  dict_get (build_inter_name_map inter_glyph_order target_glyph_order).1 g
  = if decide (g ∈ inter_glyph_order) then Some (merge_font_prefix +:+ g) else None.
Proof.
  unfold build_inter_name_map. rewrite build_inter_name_map_fold. cbn [fst].
  rewrite dict_get_name_map. reflexivity.
Qed.

(** *** The copy of the donor's glyphs *)

Lemma copy_inter_glyph_inv inter_glyf inter_hmtx G Hm k n G' Hm' :
  copy_inter_glyph inter_glyf inter_hmtx (G, Hm) (k, n) = OK (G', Hm') ->
  exists glyph,
    inter_glyf !! k = Some glyph
    /\ isComposite glyph = false
    /\ G' = <[n := pen_glyph Identity glyph]> G
    /\ Hm' = match inter_hmtx !! k with
             | Some m => <[n := m]> Hm
             | None => Hm
             end.
Proof.
  unfold copy_inter_glyph, getitem.
  destruct (inter_glyf !! k) as [glyph|]; cbn; [|discriminate].
  destruct (isComposite glyph) eqn:Hc; [discriminate|].
  intros Hok. apply mret_ok_inv in Hok. injection Hok as <- <-.
  exists glyph. repeat split. exact Hc.
Qed.

Lemma copy_inter_glyphs_spec inter_glyf inter_hmtx (l : list (string * string)) :
  forall G Hm G' Hm',
    rfold (copy_inter_glyph inter_glyf inter_hmtx) l (G, Hm) = OK (G', Hm') ->
    (forall kv, kv ∈ l ->
       exists glyph, inter_glyf !! kv.1 = Some glyph /\ isComposite glyph = false)
    /\ (forall name, name ∉ map snd l ->
          G' !! name = G !! name /\ Hm' !! name = Hm !! name)
    /\ (forall kv, kv ∈ l ->
          (forall kv', kv' ∈ l -> kv'.2 = kv.2 -> kv'.1 = kv.1) ->
          G' !! kv.2 = pen_glyph Identity <$> inter_glyf !! kv.1
          /\ (forall m, inter_hmtx !! kv.1 = Some m -> Hm' !! kv.2 = Some m)
          /\ (inter_hmtx !! kv.1 = None -> Hm' !! kv.2 = Hm !! kv.2)).
Proof.
  induction l as [|[k n] l IH]; intros G Hm G' Hm'.
  - cbn. intros [= <- <-]. split; [intros kv Hkv; inversion Hkv|].
    split; [auto|]. intros kv Hkv. inversion Hkv.
  - cbn [rfold]. intros Hrun.
    apply bind_ok_inv in Hrun as ([G1 Hm1] & Hstep & Hrest).
    apply copy_inter_glyph_inv in Hstep as (glyph & Hglyph & Hsimple & -> & ->).
    destruct (IH _ _ _ _ Hrest) as (IHsimple & IHframe & IHcopy).
    split; [|split].
    + intros kv Hkv. apply elem_of_cons in Hkv as [->|Hkv]; [eauto | auto].
    + intros name Hname. cbn in Hname.
      assert (name <> n) by (intros ->; apply Hname; left).
      assert (name ∉ map snd l) by (intros Hin; apply Hname; right; exact Hin).
      destruct (IHframe name) as [-> ->]; [assumption|].
      split; [apply lookup_insert_ne; congruence|].
      destruct (inter_hmtx !! k); [apply lookup_insert_ne; congruence | reflexivity].
    + intros kv Hkv Hinj.
      destruct (decide (kv.2 ∈ map snd l)) as [Hlater|Hnot].
      * apply list_elem_of_In, in_map_iff in Hlater as (kv' & Heq & Hkv').
        apply list_elem_of_In in Hkv'.
        assert (Hk : kv'.1 = kv.1) by (apply Hinj; [right; exact Hkv' | exact Heq]).
        destruct (IHcopy kv' Hkv') as (Hg & Hsome & Hnone).
        { intros kv'' Hkv'' Heq'. rewrite Hk. apply Hinj; [right; exact Hkv''|].
          congruence. }
        rewrite Heq, Hk in Hg, Hsome, Hnone.
        split; [exact Hg|]. split; [exact Hsome|].
        intros Hmissing. rewrite (Hnone Hmissing).
        destruct (decide (kv.2 = n)) as [Hn|Hn].
        -- assert (Hkk : k = kv.1).
           { apply (Hinj (k, n)); [left | symmetry; exact Hn]. }
           rewrite Hkk, Hmissing. reflexivity.
        -- destruct (inter_hmtx !! k); [apply lookup_insert_ne; congruence | reflexivity].
      * destruct (IHframe kv.2 Hnot) as [-> ->].
        apply elem_of_cons in Hkv as [->|Hkv].
        -- cbn [fst snd]. rewrite lookup_insert_eq, Hglyph.
           split; [reflexivity|]. split.
           ++ intros m Hm_k. rewrite Hm_k. apply lookup_insert_eq.
           ++ intros Hmissing. rewrite Hmissing. reflexivity.
        -- exfalso. apply Hnot. apply list_elem_of_In, in_map_iff.
           exists kv. split; [reflexivity | apply list_elem_of_In; exact Hkv].
Qed.

(** *** The punctuation tiers *)

Lemma replace_punctuation_names target_font inter_glyf inter_hmtx target_hmtx
    inter_name_map (l : list (Z * string)) :
  forall G G',
    rfold (replace_punctuation target_font inter_glyf inter_hmtx target_hmtx inter_name_map)
          l G = OK G' ->
    Forall (fun entry => is_Some (dict_get inter_name_map entry.2)) l.
Proof.
  induction l as [|[cp name] l IH]; intros G G'; [constructor|].
  cbn [rfold]. intros Hrun. apply bind_ok_inv in Hrun as (G1 & Hstep & Hrest).
  constructor; [|apply (IH _ _ Hrest)].
  unfold replace_punctuation in Hstep. cbn [snd].
  destruct (dict_get inter_name_map name); [eauto | discriminate].
Qed.

Lemma name_map_is_Some inter_glyph_order target_glyph_order g :
  is_Some (dict_get (build_inter_name_map inter_glyph_order target_glyph_order).1 g) ->
  g ∈ inter_glyph_order.
Proof.
  rewrite name_map_lookup. destruct (decide (g ∈ inter_glyph_order)); [auto|].
  intros [x Hx]. discriminate.
Qed.

(** X2. A merge that returns has met these conditions on the donor: it
    has no [fvar] table, every name of its glyph order has a glyph that
    is not composite, and the glyphs named by the punctuation tier in
    force are among its glyphs. *)
Theorem merge_inter_font_requires
    (target_font inter_font : TTFont) (replace_punc : Z) (font : TTFont) :
  merge_inter_font target_font inter_font replace_punc = OK font ->
  has_table inter_font "fvar" = false
  /\ (forall g, g ∈ glyphOrder inter_font ->
        exists glyph, glyph_of inter_font g = Some glyph /\ isComposite glyph = false)
  /\ (1 <= replace_punc ->
        "exclam" ∈ glyphOrder inter_font /\ "question" ∈ glyphOrder inter_font)
  /\ (2 <= replace_punc ->
        "comma" ∈ glyphOrder inter_font /\ "colon" ∈ glyphOrder inter_font
        /\ "semicolon" ∈ glyphOrder inter_font).
Proof.
  intros Hmerge.
  destruct (merge_inter_font_steps _ _ _ _ Hmerge)
    as (inter_glyf & inter_hmtx & target_glyf & target_hmtx & merged & glyf1 & hmtx1
        & glyf2 & inter_tables & target_tables & tables
        & Hfvar & Hig & Hih & Htg & Hth & Hic & Htc & Hgpos & Hcopy & Hpunc & Hupd & ->).
  destruct (copy_inter_glyphs_spec _ _ _ _ _ _ _ Hcopy) as (Hsimple & _ & _).
  apply replace_punctuation_names in Hpunc. rewrite Forall_forall in Hpunc.
  assert (Hneed : forall cp name, (cp, name) ∈ inter_punc_map replace_punc ->
                                  name ∈ glyphOrder inter_font).
  { intros cp name Hin. eapply name_map_is_Some. apply (Hpunc _ Hin). }
  split; [exact Hfvar|]. split; [|split].
  - intros g Hg. unfold glyph_of. rewrite Hig.
    apply (Hsimple (g, merge_font_prefix +:+ g)).
    apply dict_get_elem. rewrite name_map_lookup, decide_True by exact Hg. reflexivity.
  - intros Hp. unfold inter_punc_map in Hneed.
    destruct (2 <=? replace_punc) eqn:H2.
    + split; [apply (Hneed 0xFF01) | apply (Hneed 0xFF1F)]; set_solver.
    + replace (1 <=? replace_punc) with true in Hneed by (symmetry; apply Z.leb_le; lia).
      split; [apply (Hneed 0xFF01) | apply (Hneed 0xFF1F)]; set_solver.
  - intros Hp. unfold inter_punc_map in Hneed.
    replace (2 <=? replace_punc) with true in Hneed by (symmetry; apply Z.leb_le; lia).
    split; [apply (Hneed 0xFF0C) | split; [apply (Hneed 0xFF1A) | apply (Hneed 0xFF1B)]];
      set_solver.
Qed.

(** X3. [merge_inter_font] copies the metrics of every donor glyph under
    its prefixed name and leaves the metrics of every other name as they
    were; with no punctuation tier it does the same for the outlines,
    each donor outline being redrawn through the identity. *)
Theorem merge_inter_font_copies_glyphs
    (target_font inter_font : TTFont) (replace_punc : Z) (font : TTFont) :
  merge_inter_font target_font inter_font replace_punc = OK font ->
  (forall g, g ∈ glyphOrder inter_font ->
     (forall m, metrics_of inter_font g = Some m ->
                metrics_of font (merge_font_prefix +:+ g) = Some m)
     /\ (metrics_of inter_font g = None ->
         metrics_of font (merge_font_prefix +:+ g)
         = metrics_of target_font (merge_font_prefix +:+ g)))
  /\ (forall name, ~ namespaced (glyphOrder inter_font) name ->
        metrics_of font name = metrics_of target_font name)
  /\ (replace_punc < 1 ->
      (forall g, g ∈ glyphOrder inter_font ->
         glyph_of font (merge_font_prefix +:+ g)
         = pen_glyph Identity <$> glyph_of inter_font g)
      /\ (forall name, ~ namespaced (glyphOrder inter_font) name ->
            glyph_of font name = glyph_of target_font name)).
Proof.
  intros Hmerge.
  destruct (merge_inter_font_steps _ _ _ _ Hmerge)
    as (inter_glyf & inter_hmtx & target_glyf & target_hmtx & merged & glyf1 & hmtx1
        & glyf2 & inter_tables & target_tables & tables
        & Hfvar & Hig & Hih & Htg & Hth & Hic & Htc & Hgpos & Hcopy & Hpunc & Hupd & ->).
  destruct (copy_inter_glyphs_spec _ _ _ _ _ _ _ Hcopy) as (_ & Hframe & Hcopied).
  unfold metrics_of, glyph_of. cbn. rewrite Hih, Hth, Hig, Htg.
  assert (Hentry : forall g, g ∈ glyphOrder inter_font ->
            (g, merge_font_prefix +:+ g)
              ∈ (build_inter_name_map (glyphOrder inter_font) (glyphOrder target_font)).1).
  { intros g Hg. apply dict_get_elem.
    rewrite name_map_lookup, decide_True by exact Hg. reflexivity. }
  assert (Hinj : forall g kv',
            kv' ∈ (build_inter_name_map (glyphOrder inter_font)
                     (glyphOrder target_font)).1 ->
            kv'.2 = merge_font_prefix +:+ g -> kv'.1 = g).
  { intros g kv' Hkv' Heq. apply name_map_items in Hkv' as [_ Hp].
    rewrite Hp in Heq. apply prefix_inj in Heq. exact Heq. }
  assert (Hout : forall name, ~ namespaced (glyphOrder inter_font) name ->
            name ∉ map snd (build_inter_name_map (glyphOrder inter_font)
                              (glyphOrder target_font)).1).
  { intros name Hname Hin. apply Hname.
    apply list_elem_of_In, in_map_iff in Hin as (kv & <- & Hkv).
    apply list_elem_of_In, name_map_items in Hkv as [Hk Hv].
    exists kv.1. split; assumption. }
  split; [|split].
  - intros g Hg.
    destruct (Hcopied _ (Hentry g Hg) (Hinj g)) as (_ & Hsome & Hnone).
    split; [exact Hsome|]. intros Hmissing. apply Hnone. exact Hmissing.
  - intros name Hname. apply (Hframe name (Hout name Hname)).
  - intros Hp. unfold inter_punc_map in Hpunc.
    replace (2 <=? replace_punc) with false in Hpunc by (symmetry; apply Z.leb_gt; lia).
    replace (1 <=? replace_punc) with false in Hpunc by (symmetry; apply Z.leb_gt; lia).
    cbn in Hpunc. injection Hpunc as <-. split.
    + intros g Hg. destruct (Hcopied _ (Hentry g Hg) (Hinj g)) as (Hglyph & _).
      exact Hglyph.
    + intros name Hname. apply (Hframe name (Hout name Hname)).
Qed.

(** X4. The glyph order after the merge has no repeated name when
    neither font's order has one and no glyph of the primary already
    bears the prefixed name of a donor glyph. *)
Theorem merge_inter_font_glyph_order_NoDup
    (target_font inter_font : TTFont) (replace_punc : Z) (font : TTFont) :
  merge_inter_font target_font inter_font replace_punc = OK font ->
  NoDup (glyphOrder target_font) ->
  NoDup (glyphOrder inter_font) ->
  (forall name, name ∈ glyphOrder target_font ->
                ~ namespaced (glyphOrder inter_font) name) ->
  NoDup (glyphOrder font).
Proof.
  intros Hmerge Htarget Hinter Hfresh.
  destruct (merge_inter_font_inv _ _ _ _ Hmerge) as (merged & _ & _ & Horder & _).
  destruct (build_inter_name_map_spec (glyphOrder inter_font) (glyphOrder target_font))
    as [Hspec _].
  rewrite Horder, Hspec. apply NoDup_app. split; [exact Htarget|]. split.
  - intros name Hname Hin. apply (Hfresh name Hname).
    apply list_elem_of_In, in_map_iff in Hin as (g & <- & Hg).
    exists g. split; [apply list_elem_of_In; exact Hg | reflexivity].
  - apply (NoDup_fmap_2 (String.app merge_font_prefix)). exact Hinter.
Qed.

(** ** The character map, code point by code point *)

Lemma dict_get_None_keys {K V} `{EqDecision K} (d : list (K * V)) k :
  k ∉ map fst d -> dict_get d k = None.
Proof.
  induction d as [|[k0 v0] d IH]; cbn; [reflexivity|].
  intros Hk. destruct (decide (k0 = k)) as [->|Hne]; [exfalso; apply Hk; left|].
  apply IH. intros Hin. apply Hk. right. exact Hin.
Qed.

Lemma dict_set_keys_NoDup {K V} `{EqDecision K} (d : list (K * V)) k v :
  NoDup (map fst d) -> NoDup (map fst (dict_set d k v)).
Proof.
  induction d as [|[k0 v0] d IH]; cbn.
  - intros _. apply NoDup_singleton.
  - intros Hnd. apply NoDup_cons in Hnd as [Hk0 Hnd].
    destruct (decide (k0 = k)) as [->|Hne]; cbn.
    + apply NoDup_cons. split; assumption.
    + apply NoDup_cons. split; [|apply IH; exact Hnd].
      intros Hin. apply list_elem_of_In, in_map_iff in Hin as ([k1 v1] & Hk1 & Hin).
      cbn in Hk1. subst k1. apply list_elem_of_In, elem_of_dict_set in Hin as [Heq|Hin].
      * congruence.
      * apply Hk0. apply list_elem_of_In, in_map_iff. exists (k0, v1).
        split; [reflexivity | apply list_elem_of_In; exact Hin].
Qed.

Lemma dict_update_keys_NoDup {K V} `{EqDecision K} (d other : list (K * V)) :
  NoDup (map fst d) -> NoDup (map fst (dict_update d other)).
Proof.
  unfold dict_update. revert d. induction other as [|[k v] other IH]; intros d Hd; cbn.
  - exact Hd.
  - apply IH, dict_set_keys_NoDup, Hd.
Qed.

Lemma union_cmap_NoDup tables : NoDup (map fst (union_cmap tables)).
Proof.
  unfold union_cmap.
  assert (Hgen : forall acc, NoDup (map fst acc) ->
            NoDup (map fst (fold_left (fun acc table => dict_update acc (cmap_dict table))
                                      tables acc))).
  { induction tables as [|t tables IH]; intros acc Hacc; cbn; [exact Hacc|].
    apply IH, dict_update_keys_NoDup, Hacc. }
  apply Hgen. constructor.
Qed.

(** *** One subtable *)

Lemma update_subtable_spec cp0 n t :
  format (update_subtable cp0 n t) = format t
  /\ isUnicode (update_subtable cp0 n t) = isUnicode t
  /\ (subtable_accepts t cp0 = false -> update_subtable cp0 n t = t)
  /\ forall cp,
       dict_get (cmap_dict (update_subtable cp0 n t)) cp
       = if decide (cp0 = cp) then
           if subtable_accepts t cp0 then Some n else dict_get (cmap_dict t) cp
         else dict_get (cmap_dict t) cp.
Proof.
  unfold update_subtable, subtable_accepts.
  destruct (isUnicode t) eqn:Hu; cbn [andb];
    [destruct (format t =? 4) eqn:H4; cbn [andb orb];
     [destruct (cp0 <=? 65535) eqn:Hbmp; cbn [orb];
      [|destruct (format t =? 12) eqn:H12;
        [apply Z.eqb_eq in H4, H12; lia|]]
     |destruct (format t =? 12) eqn:H12]|];
    repeat split;
    first [ reflexivity | assumption
          | intros Hx; discriminate Hx
          | intros _; reflexivity
          | intros cp; cbn; rewrite ?dict_get_set;
            destruct (decide (cp0 = cp)); reflexivity ].
Qed.

Lemma subtable_accepts_ext t t' cp :
  format t' = format t -> isUnicode t' = isUnicode t ->
  subtable_accepts t' cp = subtable_accepts t cp.
Proof. unfold subtable_accepts. intros -> ->. reflexivity. Qed.

(** *** The loop over the donor's code points *)

Lemma update_cmap_entry_inv target_cmap target_hmtx names tables cp g tables' :
  update_cmap_entry target_cmap target_hmtx names tables (cp, g) = OK tables' ->
  (is_control cp || keeps_target target_cmap target_hmtx cp = true /\ tables' = tables)
  \/ (is_control cp || keeps_target target_cmap target_hmtx cp = false
      /\ exists n, dict_get names g = Some n
                   /\ tables' = map (update_subtable cp n) tables).
Proof.
  unfold update_cmap_entry.
  destruct (is_control cp); cbn [orb].
  - intros Hok. apply mret_ok_inv in Hok. left. auto.
  - destruct (keeps_target target_cmap target_hmtx cp).
    + intros Hok. apply mret_ok_inv in Hok. left. auto.
    + destruct (dict_get names g) as [n|]; [|discriminate].
      cbn. intros Hok. apply mret_ok_inv in Hok. right. eauto.
Qed.

Lemma update_cmap_loop target_cmap target_hmtx names (l : list (Z * string)) :
  NoDup (map fst l) ->
  forall tables tables',
    rfold (update_cmap_entry target_cmap target_hmtx names) l tables = OK tables' ->
    (forall cp g, (cp, g) ∈ l ->
       is_control cp || keeps_target target_cmap target_hmtx cp = false ->
       is_Some (dict_get names g))
    /\ Forall2 (fun t t' =>
         format t' = format t
         /\ isUnicode t' = isUnicode t
         /\ (isUnicode t && ((format t =? 4) || (format t =? 12)) = false -> t' = t)
         /\ forall cp,
              dict_get (cmap_dict t') cp
              = match dict_get l cp with
                | Some g =>
                    if negb (is_control cp || keeps_target target_cmap target_hmtx cp)
                       && subtable_accepts t cp
                    then dict_get names g
                    else dict_get (cmap_dict t) cp
                | None => dict_get (cmap_dict t) cp
                end) tables tables'.
Proof.
  induction l as [|[cp0 g0] l IH]; intros Hnd tables tables'.
  - cbn. intros [= <-]. split; [intros cp g Hin; inversion Hin|].
    apply Forall2_same_length_lookup_2; [reflexivity|].
    intros i t t' Ht Ht'. rewrite Ht in Ht'. injection Ht' as <-. repeat split.
  - cbn [map fst] in Hnd. apply NoDup_cons in Hnd as [Hcp0 Hnd].
    cbn [rfold]. intros Hrun. apply bind_ok_inv in Hrun as (tables1 & Hstep & Hrest).
    destruct (IH Hnd _ _ Hrest) as [IHnames IHrel].
    apply update_cmap_entry_inv in Hstep.
    split.
    + intros cp g Hin Hgo. apply elem_of_cons in Hin as [[= -> ->]|Hin]; [|eauto].
      destruct Hstep as [[Hskip _]|[_ (n & Hn & _)]]; [congruence | eauto].
    + assert (Hfirst : Forall2 (fun t t1 =>
                format t1 = format t /\ isUnicode t1 = isUnicode t
                /\ (isUnicode t && ((format t =? 4) || (format t =? 12)) = false -> t1 = t)
                /\ forall cp,
                     dict_get (cmap_dict t1) cp
                     = if decide (cp0 = cp) then
                         if negb (is_control cp0
                                  || keeps_target target_cmap target_hmtx cp0)
                            && subtable_accepts t cp0
                         then dict_get names g0
                         else dict_get (cmap_dict t) cp
                       else dict_get (cmap_dict t) cp) tables tables1).
      { destruct Hstep as [[Hskip ->]|[Hgo (n & Hn & ->)]].
        - apply Forall2_same_length_lookup_2; [reflexivity|].
          intros i t t' Ht Ht'. rewrite Ht in Ht'. injection Ht' as <-.
          repeat split. intros cp. rewrite Hskip. cbn.
          destruct (decide (cp0 = cp)); reflexivity.
        - apply Forall2_fmap_r, Forall2_same_length_lookup_2; [reflexivity|].
          intros i t t' Ht Ht'. rewrite Ht in Ht'. injection Ht' as <-.
          destruct (update_subtable_spec cp0 n t) as (Hf & Hu & Hsame & Hget).
          split; [exact Hf|]. split; [exact Hu|]. split.
          + intros Hno. apply Hsame. unfold subtable_accepts.
            destruct (isUnicode t); [|reflexivity]. cbn in Hno |- *.
            apply orb_false_iff in Hno as [-> ->]. reflexivity.
          + intros cp. rewrite Hget, Hgo, Hn. reflexivity. }
      clear Hstep Hrest.
      revert tables' IHrel. induction Hfirst as [|t t1 ts ts1 Hrel _ IHf];
        intros tables' IHrel.
      * inversion IHrel. constructor.
      * inversion IHrel as [|? t' ? ts' Hrel' Hrest']; subst. constructor; [|auto].
        destruct Hrel as (Hf & Hu & Hsame & Hget).
        destruct Hrel' as (Hf' & Hu' & Hsame' & Hget').
        split; [congruence|]. split; [congruence|]. split.
        -- intros Hno. rewrite Hsame', Hsame; [reflexivity | exact Hno |].
           rewrite Hf, Hu. exact Hno.
        -- intros cp. rewrite Hget'. cbn [dict_get].
           rewrite (subtable_accepts_ext t t1 cp Hf Hu), Hget.
           destruct (decide (cp0 = cp)) as [->|Hne].
           ++ rewrite (dict_get_None_keys l cp Hcp0). reflexivity.
           ++ reflexivity.
Qed.

(** X5. The character map after the merge, subtable by subtable and code
    point by code point.  Formats and encodings are kept, and a subtable
    that is not a Unicode one of format 4 or 12 is returned as it is.  A
    code point the donor maps to [g] is mapped to the prefixed [g] in
    the subtables that accept it (Unicode, format 12, or format 4 up to
    [0xFFFF]) unless it is a control character or the glyph the primary
    had for it has metrics at least 1000 wide; every other mapping is
    the one of the primary. *)
Theorem merge_inter_font_cmap
    (target_font inter_font : TTFont) (replace_punc : Z) (font : TTFont) :
  merge_inter_font target_font inter_font replace_punc = OK font ->
  exists inter_tables target_tables tables hmtx_table,
    cmap inter_font = Some inter_tables
    /\ cmap target_font = Some target_tables
    /\ cmap font = Some tables
    /\ hmtx font = Some hmtx_table
    /\ Forall2 (fun t t' =>
         format t' = format t
         /\ isUnicode t' = isUnicode t
         /\ (isUnicode t && ((format t =? 4) || (format t =? 12)) = false -> t' = t)
         /\ forall cp,
              dict_get (cmap_dict t') cp
              = match dict_get (union_cmap inter_tables) cp with
                | Some g =>
                    if negb (is_control cp
                             || keeps_target (union_cmap target_tables) hmtx_table cp)
                       && subtable_accepts t cp
                    then Some (merge_font_prefix +:+ g)
                    else dict_get (cmap_dict t) cp
                | None => dict_get (cmap_dict t) cp
                end) target_tables tables.
Proof.
  intros Hmerge.
  destruct (merge_inter_font_steps _ _ _ _ Hmerge)
    as (inter_glyf & inter_hmtx & target_glyf & target_hmtx & merged & glyf1 & hmtx1
        & glyf2 & inter_tables & target_tables & tables
        & Hfvar & Hig & Hih & Htg & Hth & Hic & Htc & Hgpos & Hcopy & Hpunc & Hupd & ->).
  exists inter_tables, target_tables, tables, hmtx1.
  split; [exact Hic|]. split; [exact Htc|]. split; [reflexivity|]. split; [reflexivity|].
  unfold update_cmap in Hupd.
  destruct (update_cmap_loop _ _ _ _ (union_cmap_NoDup inter_tables) _ _ Hupd)
    as [Hnames Hrel].
  eapply Forall2_impl; [exact Hrel|]. cbn beta.
  intros t t' (Hf & Hu & Hsame & Hget).
  split; [exact Hf|]. split; [exact Hu|]. split; [exact Hsame|].
  intros cp. rewrite Hget.
  destruct (dict_get (union_cmap inter_tables) cp) as [g|] eqn:Hg; [|reflexivity].
  destruct (is_control cp || keeps_target (union_cmap target_tables) hmtx1 cp) eqn:Hskip;
    [reflexivity|].
  cbn [negb andb]. destruct (subtable_accepts t cp); [|reflexivity].
  apply dict_get_elem in Hg. specialize (Hnames cp g Hg Hskip).
  rewrite name_map_lookup in Hnames |- *.
  destruct (decide (g ∈ glyphOrder inter_font)); [reflexivity|].
  destruct Hnames as [x Hx]. discriminate.
Qed.

(** ** Tables kept by [remove_font_tables] *)

Lemma has_table_named font tag :
  has_table font tag
  = if decide (tag = "glyf") then bool_decide (is_Some (glyf font))
    else if decide (tag = "hmtx") then bool_decide (is_Some (hmtx font))
    else if decide (tag = "cmap") then bool_decide (is_Some (cmap font))
    else if decide (tag = "GSUB") then bool_decide (is_Some (GSUB font))
    else if decide (tag = "GPOS") then bool_decide (is_Some (GPOS font))
    else bool_decide (tag ∈ other_tables font).
Proof. reflexivity. Qed.

Lemma remove_font_tables_frame font :
  glyphOrder (remove_font_tables font) = glyphOrder font
  /\ glyf (remove_font_tables font) = glyf font
  /\ hmtx (remove_font_tables font) = hmtx font
  /\ cmap (remove_font_tables font) = cmap font
  /\ GPOS (remove_font_tables font) = GPOS font
  /\ inter_gpos_merged (remove_font_tables font) = inter_gpos_merged font.
Proof.
  unfold remove_font_tables.
  match goal with |- context [if has_table ?f "GSUB" then _ else _] =>
    destruct (has_table f "GSUB") end; repeat split; reflexivity.
Qed.

(** X6. [remove_font_tables] removes exactly the tables [STAT] and
    [GSUB] and those whose tag begins with [cv] (the control value table
    [cvt ] among them); every other table, the glyph order and the
    merge flag are kept. *)
Theorem remove_font_tables_exact (font : TTFont) (tag : string) :
  (has_table (remove_font_tables font) tag = true <->
   has_table font tag = true
   /\ tag <> "STAT" /\ tag <> "GSUB" /\ startswith "cv" tag = false)
  /\ has_table (remove_font_tables font) "cvt " = false
  /\ glyphOrder (remove_font_tables font) = glyphOrder font
  /\ glyf (remove_font_tables font) = glyf font
  /\ hmtx (remove_font_tables font) = hmtx font
  /\ cmap (remove_font_tables font) = cmap font
  /\ GPOS (remove_font_tables font) = GPOS font.
Proof.
  destruct (remove_font_tables_frame font) as (Ho & Hg & Hh & Hc & Hp & _).
  split; [|split; [|repeat split; assumption]].
  - rewrite !has_table_named, Hg, Hh, Hc, Hp, remove_font_tables_GSUB.
    destruct (decide (tag = "glyf")) as [->|Hn1];
      [intuition (first [discriminate | reflexivity])|].
    destruct (decide (tag = "hmtx")) as [->|Hn2];
      [intuition (first [discriminate | reflexivity])|].
    destruct (decide (tag = "cmap")) as [->|Hn3];
      [intuition (first [discriminate | reflexivity])|].
    destruct (decide (tag = "GSUB")) as [->|Hn4].
    { split; [intros Hx; discriminate Hx | intros (_ & _ & Hx & _); congruence]. }
    destruct (decide (tag = "GPOS")) as [->|Hn5];
      [intuition (first [discriminate | reflexivity])|].
    rewrite !bool_decide_eq_true, remove_font_tables_other_tables. tauto.
  - rewrite has_table_cv by reflexivity. apply bool_decide_eq_false.
    rewrite remove_font_tables_other_tables. cbn. intros (_ & _ & Hx). discriminate.
Qed.

(** ** Removal of the locale feature *)

Lemma filter_all {A} (P : A -> Prop) `{!forall x, Decision (P x)} (l : list A) :
  (forall x, x ∈ l -> P x) -> filter P l = l.
Proof.
  induction l as [|x l IH]; intros Hall; [reflexivity|].
  rewrite filter_cons, decide_True by (apply Hall; left).
  rewrite IH; [reflexivity|]. intros y Hy. apply Hall. right. exact Hy.
Qed.

Lemma prune_lang_sys_nil ls : prune_lang_sys [] ls = ls.
Proof.
  destruct ls as [idx]. unfold prune_lang_sys. cbn. f_equal.
  apply filter_all. intros x _ Hx. inversion Hx.
Qed.

Lemma prune_script_record_nil sr : prune_script_record [] sr = sr.
Proof.
  destruct sr as [tag [dflt recs]]. unfold prune_script_record. cbn. do 2 f_equal.
  - destruct dflt as [ls|]; cbn; [rewrite prune_lang_sys_nil|]; reflexivity.
  - induction recs as [|[t ls] recs IH]; [reflexivity|].
    cbn. rewrite prune_lang_sys_nil, IH. reflexivity.
Qed.

(** X7. On a font with a substitution table, [remove_locl_feature]
    returns; the feature records left are those whose tag is not
    [locl], in their order; every feature-index list has lost the
    indices of the removed records and keeps the others as they were;
    lookups and the feature count field are not touched; and a table
    without a [locl] feature comes back as it was. *)
Theorem remove_locl_feature_spec (font : TTFont) (gsub : otl_table gsub_lookup)
    (fl : feature_list) (sl : script_list) :
  GSUB font = Some gsub ->
  FeatureList gsub = Some fl ->
  ScriptList gsub = Some sl ->
  let removed :=
    feature_indices (fun tag => bool_decide (tag = "locl")) (FeatureRecord fl) in
  let keep := fun ls =>
    mkLangSys (filter (fun idx => idx ∉ removed) (FeatureIndex ls)) in
  exists font' gsub' fl' sl',
    remove_locl_feature font = OK font'
    /\ GSUB font' = Some gsub'
    /\ FeatureList gsub' = Some fl'
    /\ ScriptList gsub' = Some sl'
    /\ FeatureRecord fl' = filter (fun f => FeatureTag f <> "locl") (FeatureRecord fl)
    /\ ScriptRecord sl'
       = map (fun sr => mkScriptRecord (ScriptTag sr)
                (mkScript (keep <$> DefaultLangSys (Script sr))
                          (map (fun lsr => mkLangSysRecord (LangSysTag lsr)
                                             (keep (LangSys lsr)))
                               (LangSysRecord (Script sr)))))
             (ScriptRecord sl)
    /\ LookupList gsub' = LookupList gsub
    /\ FeatureCount fl' = FeatureCount fl
    /\ (Forall (fun f => FeatureTag f <> "locl") (FeatureRecord fl) -> font' = font).
Proof.
  intros Hgsub Hfl Hsl. cbn zeta.
  assert (Hkept : drop_indices
                    (feature_indices (fun tag => bool_decide (tag = "locl"))
                                     (FeatureRecord fl)) (FeatureRecord fl)
                  = filter (fun f => FeatureTag f <> "locl") (FeatureRecord fl)).
  { rewrite drop_indices_filter. apply filter_ext_elem. intros f _.
    rewrite bool_decide_eq_true. reflexivity. }
  unfold remove_locl_feature. rewrite Hgsub, Hfl. cbn.
  destruct (feature_indices (fun tag => bool_decide (tag = "locl")) (FeatureRecord fl))
    as [|i removed] eqn:Hremoved.
  - cbn. exists font, gsub, fl, sl. split; [reflexivity|].
    split; [exact Hgsub|]. split; [exact Hfl|]. split; [exact Hsl|].
    assert (Hnone : forall f, f ∈ FeatureRecord fl -> FeatureTag f <> "locl").
    { intros f Hf Htag. apply list_elem_of_lookup in Hf as [idx Hidx].
      assert (Hin : idx ∈ feature_indices (fun tag => bool_decide (tag = "locl"))
                            (FeatureRecord fl)).
      { apply elem_of_feature_indices. exists f. split; [exact Hidx|].
        apply bool_decide_eq_true. exact Htag. }
      rewrite Hremoved in Hin. inversion Hin. }
    split; [symmetry; apply filter_all; exact Hnone|].
    split; [|repeat split; reflexivity].
    rewrite <- (map_id (ScriptRecord sl)) at 1. apply map_ext.
    intros sr. rewrite <- (prune_script_record_nil sr) at 1. reflexivity.
  - rewrite Hsl. cbn. eexists _, _, _, _. split; [reflexivity|]. cbn.
    split; [reflexivity|]. split; [reflexivity|]. split; [reflexivity|].
    split; [exact Hkept|]. split; [reflexivity|]. split; [reflexivity|].
    split; [reflexivity|].
    intros Hnone. exfalso.
    assert (Hin : i ∈ feature_indices (fun tag => bool_decide (tag = "locl"))
                        (FeatureRecord fl)) by (rewrite Hremoved; left).
    apply elem_of_feature_indices in Hin as (f & Hf & Htag).
    apply bool_decide_eq_true in Htag.
    rewrite Forall_forall in Hnone. apply (Hnone f); [|exact Htag].
    apply list_elem_of_lookup. eauto.
Qed.

(** *** Strings the remapper passes over *)

Lemma remap_fuel_str m n s : remap_fuel m n (PyStr s) = PyStr s.
Proof. apply remap_fuel_other. discriminate. Qed.

(** X8. A list of glyph names held under an attribute other than
    [glyphs] (the [Input], [Backtrack] and [LookAhead] sequences of
    contextual rules) is not rewritten: an object whose attributes are
    such lists is returned by [remap] as it is, whatever the name map. *)
Theorem remap_keeps_glyph_sequences
    (inter_name_map : list (string * string)) (attrs : list (string * pyval)) :
  Forall (fun nv =>
            (nv.1 ∉ ["glyphs"; "classDefs"; "ClassDef1"; "ClassDef2"; "PairSet";
                     "ExtSubTable"])
            /\ exists names, nv.2 = PyList (map PyStr names)) attrs ->
  remap inter_name_map (PyObj attrs) = PyObj attrs.
Proof.
  intros Hattrs. unfold remap.
  destruct (height (PyObj attrs)) as [|n] eqn:Hh; [reflexivity|].
  rewrite remap_fuel_obj. f_equal.
  rewrite <- (map_id attrs) at 2. apply map_ext_in.
  intros [name val] Hin. apply list_elem_of_In in Hin.
  rewrite Forall_forall in Hattrs. destruct (Hattrs _ Hin) as [Hname (names & Hval)].
  cbn [fst snd] in Hname, Hval. subst val.
  unfold remap_attr, assigned_value. cbn [fst snd].
  repeat (case_decide; [subst name; exfalso; apply Hname; set_solver|]).
  unfold scan_attr. cbn [fst snd].
  destruct (startswith "_" name); [reflexivity|].
  do 2 f_equal. rewrite map_map. apply map_ext. intros s. apply remap_fuel_str.
Qed.

(** ** What the stages of [build_font] leave alone *)

Lemma apply_stylistic_sets_frame font tag font' :
  apply_stylistic_sets font tag = OK font' ->
  glyphOrder font' = glyphOrder font /\ cmap font' = cmap font
  /\ GSUB font' = GSUB font /\ GPOS font' = GPOS font
  /\ other_tables font' = other_tables font
  /\ inter_gpos_merged font' = inter_gpos_merged font.
Proof.
  unfold apply_stylistic_sets. destruct (GSUB font) as [gsub|] eqn:Hgsub.
  - destruct (FeatureList gsub) as [fl|]; [|discriminate]. cbn [mbind result_bind].
    intros Hrun. apply bind_ok_inv in Hrun as ([glyf' hmtx'] & _ & Hrun).
    apply mret_ok_inv in Hrun. subst font'. cbn. repeat split; first [reflexivity | symmetry; assumption | assumption].
  - intros Hrun. apply mret_ok_inv in Hrun. subst font'. repeat split. exact Hgsub.
Qed.

Lemma remove_stylistic_sets_frame font font' :
  remove_stylistic_sets font = OK font' ->
  glyphOrder font' = glyphOrder font /\ cmap font' = cmap font
  /\ GPOS font' = GPOS font /\ other_tables font' = other_tables font
  /\ glyf font' = glyf font /\ hmtx font' = hmtx font.
Proof.
  unfold remove_stylistic_sets. destruct (GSUB font) as [gsub|].
  - destruct (FeatureList gsub) as [fl|]; [|discriminate].
    destruct (ScriptList gsub) as [sl|]; [|discriminate].
    cbn. intros Hrun. apply mret_ok_inv in Hrun. subst font'. repeat split.
  - intros Hrun. apply mret_ok_inv in Hrun. subst font'. repeat split.
Qed.

(** X9. [apply_stylistic_sets] only ever writes outlines and metrics:
    glyph order, character map, layout tables and the other tables come
    back as they were.  Without a substitution table, or when no feature
    record carries the tag, the font comes back as it was. *)
Theorem apply_stylistic_sets_unchanged (font : TTFont) (tag : string) :
  (forall font', apply_stylistic_sets font tag = OK font' ->
     glyphOrder font' = glyphOrder font /\ cmap font' = cmap font
     /\ GSUB font' = GSUB font /\ GPOS font' = GPOS font
     /\ other_tables font' = other_tables font)
  /\ (GSUB font = None -> apply_stylistic_sets font tag = OK font)
  /\ (forall gsub fl,
        GSUB font = Some gsub -> FeatureList gsub = Some fl ->
        Forall (fun f => FeatureTag f <> tag) (FeatureRecord fl) ->
        apply_stylistic_sets font tag = OK font).
Proof.
  split; [|split].
  - intros font' Hrun.
    destruct (apply_stylistic_sets_frame _ _ _ Hrun) as (H1 & H2 & H3 & H4 & H5 & _).
    repeat split; assumption.
  - intros Hnone. unfold apply_stylistic_sets. rewrite Hnone. reflexivity.
  - intros gsub fl Hgsub Hfl Hnone. unfold apply_stylistic_sets.
    rewrite Hgsub, Hfl. cbn [mbind result_bind].
    replace (filter (fun f => FeatureTag f = tag) (FeatureRecord fl)) with
      (@nil feature_record).
    + cbn. destruct font; cbn in *. rewrite Hgsub. reflexivity.
    + symmetry. induction Hnone as [|f l Hf _ IH]; [reflexivity|].
      rewrite filter_cons, decide_False by exact Hf. exact IH.
Qed.

(** X10. A [build_font] run that reaches [save] started from a font
    without [cvar], [fvar] and [gvar] that has a [name] table; without
    a font to merge, the saved font has the glyph order, the character
    map and the positioning table of the input. *)
Theorem build_font_frame (static_font : TTFont) (config : FontBuildConfig)
    (saved : TTFont) :
  build_font static_font config = OK saved ->
  has_table static_font "cvar" = false
  /\ has_table static_font "fvar" = false
  /\ has_table static_font "gvar" = false
  /\ has_table static_font "name" = true
  /\ (merge_font config = None ->
      glyphOrder saved = glyphOrder static_font
      /\ cmap saved = cmap static_font
      /\ GPOS saved = GPOS static_font).
Proof.
  unfold build_font. intros Hbuild.
  destruct (has_table static_font "cvar") eqn:Hcvar; [discriminate|].
  destruct (has_table static_font "fvar") eqn:Hfvar; [discriminate|].
  destruct (has_table static_font "gvar") eqn:Hgvar; [discriminate|].
  cbn [orb] in Hbuild.
  apply bind_ok_inv in Hbuild as (f1 & Hss & Hbuild).
  apply bind_ok_inv in Hbuild as (f2 & Hrm & Hbuild).
  rewrite (remove_locl_feature_no_GSUB _ (remove_font_tables_GSUB f2)) in Hbuild.
  cbn [mbind result_bind] in Hbuild.
  apply bind_ok_inv in Hbuild as (f3 & Hmerge & Hbuild).
  apply bind_ok_inv in Hbuild as ([[f4 processed] unprocessed] & Hprocess & Hbuild).
  apply bind_ok_inv in Hbuild as (f5 & Hparam & Hbuild).
  assert (Hname5 : has_table f4 "name" = true).
  { unfold set_font_parameter in Hparam. cbn in Hparam.
    destruct (has_table f4 "name"); [reflexivity | discriminate]. }
  apply set_font_parameter_frame in Hparam. cbn in Hparam. subst f5.
  assert (Hsaved : saved = f4).
  { apply mret_ok_inv in Hbuild. unfold set_line_gap in Hbuild.
    destruct (new_line_gap config =? 0); congruence. }
  subst saved.
  destruct (process_glyphs_frame _ _ _ _ _ Hprocess) as (_ & Ho4 & Hp4 & Hc4 & Hg4).
  assert (Hf1 : glyphOrder f1 = glyphOrder static_font /\ cmap f1 = cmap static_font
                /\ GPOS f1 = GPOS static_font
                /\ other_tables f1 = other_tables static_font).
  { destruct (apply_stylistic_set config) as [tag|].
    - destruct (bool_decide (tag = "")).
      + apply mret_ok_inv in Hss. subst f1. repeat split.
      + apply apply_stylistic_sets_frame in Hss as (H1 & H2 & _ & H4 & H5 & _).
        repeat split; assumption.
    - apply mret_ok_inv in Hss. subst f1. repeat split. }
  destruct Hf1 as (Ho1 & Hc1 & Hp1 & Ht1).
  destruct (remove_stylistic_sets_frame _ _ Hrm) as (Ho2 & Hc2 & Hp2 & Ht2 & _).
  destruct (remove_font_tables_frame f2) as (Ho3 & _ & _ & Hc3 & Hp3 & _).
  assert (Hname3 : has_table f3 "name" = true).
  { rewrite has_table_other in Hname5 |- * by discriminate.
    rewrite Ho4 in Hname5. exact Hname5. }
  split; [reflexivity|]. split; [reflexivity|]. split; [reflexivity|]. split.
  - assert (Hother3 : other_tables f3 = other_tables (remove_font_tables f2)).
    { destruct (merge_font config) as [inter_font|].
      - apply merge_inter_font_frame in Hmerge as [_ Hother]. exact Hother.
      - apply mret_ok_inv in Hmerge. subst f3. reflexivity. }
    rewrite has_table_other in Hname3 |- * by discriminate.
    apply bool_decide_eq_true in Hname3. apply bool_decide_eq_true.
    rewrite Hother3 in Hname3.
    apply remove_font_tables_other_tables in Hname3 as [Hin _].
    rewrite Ht2, Ht1 in Hin. exact Hin.
  - intros Hnone. rewrite Hnone in Hmerge. apply mret_ok_inv in Hmerge. subst f3.
    rewrite Hg4, Hc4, Hp4, Ho3, Hc3, Hp3, Ho2, Hc2, Hp2, Ho1, Hc1, Hp1.
    repeat split.
Qed.

(** *** The sets returned by the width adjustment *)






(** *** Substitution of stylistic alternates *)

Lemma rfold_flat_map {A B S} (body : S -> A -> result S) (inner : S -> B -> result S)
    (g : A -> list B) (l : list A) :
  (forall x, x ∈ l -> forall s, body s x = rfold inner (g x) s) ->
  forall s, rfold body l s = rfold inner (flat_map g l) s.
Proof.
  induction l as [|x l IH]; intros Hbody s; [reflexivity|].
  cbn [rfold flat_map]. rewrite rfold_app, (Hbody x) by left.
  destruct (rfold inner (g x) s) as [s'|e]; cbn; [|reflexivity].
  apply IH. intros y Hy. apply Hbody. right. exact Hy.
Qed.

Lemma dict_get_app {K V} `{EqDecision K} (d1 d2 : list (K * V)) k :
  dict_get (d1 ++ d2) k
  = match dict_get d1 k with Some v => Some v | None => dict_get d2 k end.
Proof.
  induction d1 as [|[k0 v0] d1 IH]; cbn; [reflexivity|].
  destruct (decide (k0 = k)); [reflexivity | exact IH].
Qed.

Lemma apply_substitution_some glyph_order (G : gmap string Glyph)
    (Hm : gmap string (Z * Z)) s d :
  (s ∈ glyph_order -> d ∈ glyph_order -> is_Some (G !! d) /\ is_Some (Hm !! d)) ->
  exists G1 Hm1,
    apply_substitution glyph_order (Some G, Some Hm) (s, d) = OK (Some G1, Some Hm1)
    /\ (forall name,
          G1 !! name = if bool_decide (s ∈ glyph_order /\ d ∈ glyph_order)
                          && bool_decide (name = s)
                       then G !! d else G !! name)
    /\ (forall name,
          Hm1 !! name = if bool_decide (s ∈ glyph_order /\ d ∈ glyph_order)
                           && bool_decide (name = s)
                        then Hm !! d else Hm !! name).
Proof.
  intros Hpresent. unfold apply_substitution.
  destruct (decide (s ∈ glyph_order)) as [Hs|Hs];
    [rewrite (bool_decide_eq_true_2 _ Hs)|rewrite (bool_decide_eq_false_2 _ Hs)];
    cbn [andb].
  - destruct (decide (d ∈ glyph_order)) as [Hd|Hd];
      [rewrite (bool_decide_eq_true_2 _ Hd)|rewrite (bool_decide_eq_false_2 _ Hd)].
    + destruct (Hpresent Hs Hd) as [[gd Hgd] [md Hmd]]. cbn [fst snd].
      assert (Hne : dom G <> ∅).
      { intros Hempty. apply (not_elem_of_empty (C := gset string) d).
        rewrite <- Hempty. apply elem_of_dom. eauto. }
      rewrite (bool_decide_eq_false_2 _ Hne). unfold getitem. rewrite Hgd, Hmd. cbn.
      eexists _, _. split; [reflexivity|].
      rewrite (bool_decide_eq_true_2 (s ∈ glyph_order /\ d ∈ glyph_order)) by auto.
      cbn [andb]. split; intros name; case_bool_decide; subst;
        rewrite ?lookup_insert_eq, ?lookup_insert_ne by congruence; reflexivity.
    + eexists _, _. split; [reflexivity|].
      rewrite (bool_decide_eq_false_2 (s ∈ glyph_order /\ d ∈ glyph_order)) by tauto.
      split; reflexivity.
  - eexists _, _. split; [reflexivity|].
    rewrite (bool_decide_eq_false_2 (s ∈ glyph_order /\ d ∈ glyph_order)) by tauto.
    split; reflexivity.
Qed.

Lemma apply_substitutions_spec glyph_order (l : list (string * string)) :
  forall (G : gmap string Glyph) (Hm : gmap string (Z * Z)),
    let applied := filter (fun sd => sd.1 ∈ glyph_order /\ sd.2 ∈ glyph_order) l in
    (forall sd, sd ∈ applied -> is_Some (G !! sd.2) /\ is_Some (Hm !! sd.2)) ->
    (forall sd, sd ∈ applied -> sd.2 ∉ map fst applied) ->
    exists G' Hm',
      rfold (apply_substitution glyph_order) l (Some G, Some Hm) = OK (Some G', Some Hm')
      /\ (forall name, G' !! name = G !! default name (dict_get (rev applied) name))
      /\ (forall name, Hm' !! name = Hm !! default name (dict_get (rev applied) name)).
Proof.
  induction l as [|[s d] l IH]; intros G Hm applied Hpresent Hfresh.
  - exists G, Hm. cbn. repeat split.
  - subst applied. rewrite filter_cons in Hpresent, Hfresh |- *. cbn [fst snd] in *.
    destruct (apply_substitution_some glyph_order G Hm s d) as (G1 & Hm1 & Hstep & HG1 & HHm1).
    { intros Hs Hd. apply (Hpresent (s, d)). rewrite decide_True by auto. left. }
    rewrite (rfold_cons_ok _ _ _ _ _ Hstep).
    set (al := filter (fun sd => sd.1 ∈ glyph_order /\ sd.2 ∈ glyph_order) l) in *.
    assert (Hsub : forall sd, sd ∈ al ->
              sd ∈ (if decide (s ∈ glyph_order /\ d ∈ glyph_order)
                    then (s, d) :: al else al)).
    { intros sd Hsd. destruct (decide (s ∈ glyph_order /\ d ∈ glyph_order));
        [right; exact Hsd | exact Hsd]. }
    assert (Hfresh_al : forall sd, sd ∈ al ->
              (sd.2 ∉ map fst al)
              /\ (s ∈ glyph_order /\ d ∈ glyph_order -> sd.2 <> s)).
    { intros sd Hsd. specialize (Hfresh sd (Hsub sd Hsd)).
      destruct (decide (s ∈ glyph_order /\ d ∈ glyph_order)) as [Hok|Hno].
      - cbn in Hfresh. split; [intros Hx; apply Hfresh; right; exact Hx|].
        intros _ Heq. apply Hfresh. rewrite Heq. left.
      - split; [exact Hfresh | tauto]. }
    destruct (IH G1 Hm1) as (G' & Hm' & Hloop & HG' & HHm').
    { intros sd Hsd. fold al in Hsd. destruct (Hpresent sd (Hsub sd Hsd)) as [Hg Hm_].
      destruct (Hfresh_al sd Hsd) as [_ Hne].
      rewrite HG1, HHm1.
      destruct (bool_decide (s ∈ glyph_order /\ d ∈ glyph_order)) eqn:Hok; cbn [andb];
        [|auto].
      apply bool_decide_eq_true in Hok.
      rewrite (bool_decide_eq_false_2 (sd.2 = s)) by (apply Hne; exact Hok). auto. }
    { intros sd Hsd. fold al in Hsd |- *. apply (Hfresh_al sd Hsd). }
    fold al in Hloop, HG', HHm'.
    exists G', Hm'. split; [exact Hloop|].
    assert (Htarget : forall name,
              let t := default name (dict_get (rev al) name) in
              let t' := default name
                          (dict_get (rev (if decide (s ∈ glyph_order /\ d ∈ glyph_order)
                                          then (s, d) :: al else al)) name) in
              (if bool_decide (s ∈ glyph_order /\ d ∈ glyph_order) && bool_decide (t = s)
               then d else t) = t').
    { intros name. cbn zeta.
      destruct (decide (s ∈ glyph_order /\ d ∈ glyph_order)) as [Hok|Hno].
      - rewrite (bool_decide_eq_true_2 _ Hok). cbn [andb rev].
        rewrite dict_get_app. cbn [dict_get].
        destruct (dict_get (rev al) name) as [t|] eqn:Ht; cbn [default].
        + apply dict_get_elem in Ht. apply list_elem_of_In in Ht. apply in_rev in Ht.
          apply list_elem_of_In in Ht. destruct (Hfresh_al _ Ht) as [_ Hne].
          rewrite (bool_decide_eq_false_2 (t = s)) by (apply Hne; exact Hok). reflexivity.
        + destruct (decide (s = name)) as [->|Hne].
          * rewrite (bool_decide_eq_true_2 (name = name)) by reflexivity. reflexivity.
          * rewrite (bool_decide_eq_false_2 (name = s)) by congruence. reflexivity.
      - rewrite (bool_decide_eq_false_2 _ Hno). reflexivity. }
    split; intros name; [rewrite HG', HG1 | rewrite HHm', HHm1];
      rewrite <- (Htarget name); cbn zeta;
      destruct (bool_decide (s ∈ glyph_order /\ d ∈ glyph_order)
                && bool_decide (default name (dict_get (rev al) name) = s));
      reflexivity.
Qed.

Lemma apply_subtable_pairs glyph_order st subtable :
  apply_subtable glyph_order st subtable
  = rfold (apply_substitution glyph_order) (default [] (mapping subtable)) st.
Proof. unfold apply_subtable. destruct (mapping subtable); reflexivity. Qed.

(** X19. [apply_stylistic_sets] as a simultaneous substitution.  Take
    the [(src, dst)] pairs of the mappings reached from the feature
    records with the tag, all lookup indices being in range, and keep
    those with both names in the glyph order.  When every such [dst]
    has an outline and metrics and is not itself a [src], the call
    returns, and every glyph name has the outline and the metrics that
    the input font had for its substitute (the [dst] of the last pair
    with that [src]), or its own when there is none. *)
Theorem apply_stylistic_sets_substitutes (font : TTFont) (tag : string)
    (gsub : otl_table gsub_lookup) (fl : feature_list)
    (glyf_table : gmap string Glyph) (hmtx_table : gmap string (Z * Z)) :
  GSUB font = Some gsub ->
  FeatureList gsub = Some fl ->
  glyf font = Some glyf_table ->
  hmtx font = Some hmtx_table ->
  (forall f lookup_idx,
     f ∈ FeatureRecord fl -> FeatureTag f = tag ->
     lookup_idx ∈ LookupListIndex (Feature f) ->
     is_Some (LookupList gsub ≫= (fun ll => Lookup ll !! lookup_idx))) ->
  let applied := filter (fun sd => sd.1 ∈ glyphOrder font /\ sd.2 ∈ glyphOrder font)
                        (substitution_pairs gsub tag) in
  (forall sd, sd ∈ applied ->
     is_Some (glyf_table !! sd.2) /\ is_Some (hmtx_table !! sd.2)) ->
  (forall sd, sd ∈ applied -> sd.2 ∉ map fst applied) ->
  exists font',
    apply_stylistic_sets font tag = OK font'
    /\ forall name,
         let substitute := default name (dict_get (rev applied) name) in
         glyph_of font' name = glyph_of font substitute
         /\ metrics_of font' name = metrics_of font substitute.
Proof.
  intros Hgsub Hfl Hglyf Hhmtx Hvalid applied Hpresent Hfresh.
  destruct (apply_substitutions_spec (glyphOrder font) (substitution_pairs gsub tag)
              glyf_table hmtx_table Hpresent Hfresh) as (G' & Hm' & Hloop & HG & HHm).
  unfold apply_stylistic_sets. rewrite Hgsub, Hfl. cbn [mbind result_bind].
  rewrite (rfold_flat_map _ (apply_substitution (glyphOrder font))
             (fun f => flat_map (fun lookup_idx =>
                match LookupList gsub ≫= (fun ll => Lookup ll !! lookup_idx) with
                | Some lookup => flat_map (fun subtable => default [] (mapping subtable))
                                          (SubTable lookup)
                | None => []
                end) (LookupListIndex (Feature f)))).
  - assert (Hpairs : substitution_pairs gsub tag
                     = flat_map (fun f => flat_map (fun lookup_idx =>
                         match LookupList gsub ≫= (fun ll => Lookup ll !! lookup_idx) with
                         | Some lookup =>
                             flat_map (fun subtable => default [] (mapping subtable))
                                      (SubTable lookup)
                         | None => []
                         end) (LookupListIndex (Feature f)))
                         (filter (fun f => FeatureTag f = tag) (FeatureRecord fl)))
      by (unfold substitution_pairs; rewrite Hfl; reflexivity).
    rewrite <- Hpairs, Hglyf, Hhmtx, Hloop. cbn.
    eexists. split; [reflexivity|]. intros name. cbn zeta.
    unfold glyph_of, metrics_of. cbn. rewrite Hglyf, Hhmtx. split; [apply HG | apply HHm].
  - intros f Hf st. apply list_elem_of_filter in Hf as [Htag Hf].
    apply rfold_flat_map. intros lookup_idx Hidx st'.
    destruct (Hvalid f lookup_idx Hf Htag Hidx) as [lookup Hlookup].
    rewrite Hlookup. unfold apply_lookup_index.
    destruct (LookupList gsub) as [ll|]; [|discriminate]. cbn in Hlookup |- *.
    rewrite Hlookup. cbn.
    apply rfold_flat_map. intros subtable _ st''. apply apply_subtable_pairs.
Qed.

(** ** The name records and the line gap *)

Lemma replace_char_get (old new : Ascii.ascii) (s : string) (i : nat) :
  String.get i (replace_char old new s)
  = (fun c => if Ascii.eqb c old then new else c) <$> String.get i s.
Proof.
  revert i. induction s as [|c s IH]; intros i; [reflexivity|].
  destruct i as [|i]; cbn; [reflexivity | apply IH].
Qed.

Lemma replace_char_length (old new : Ascii.ascii) (s : string) :
  String.length (replace_char old new s) = String.length s.
Proof. induction s as [|c s IH]; cbn; [reflexivity | rewrite IH; reflexivity]. Qed.

(** X21. The name records after [set_font_parameter]: the records with
    [nameID] 17 are gone and the others stay in their order; the records
    1 and 4 hold the new name, 5 the new version, 2 the text [Regular],
    and 6 the new name with every space replaced by a hyphen, so that
    it has the length of the name and no space; a record with any other
    [nameID] (the typographic family name 16 among them) is left as it
    was. *)
Theorem set_name_records_spec (names : list name_record) (new_name new_version : string) :
  let names' := set_name_records names new_name new_version in
  map nameID names' = filter (fun id => id <> 17) (map nameID names)
  /\ Forall (fun record =>
       nameID record <> 17
       /\ (nameID record = 1 \/ nameID record = 4 -> name_text record = new_name)
       /\ (nameID record = 5 -> name_text record = new_version)
       /\ (nameID record = 2 -> name_text record = "Regular")
       /\ (nameID record = 6 ->
           String.length (name_text record) = String.length new_name
           /\ forall i, String.get i (name_text record)
                        = (fun c => if Ascii.eqb c " "%char then "-"%char else c)
                            <$> String.get i new_name)
       /\ (nameID record ∉ [1; 2; 4; 5; 6] -> record ∈ names)) names'.
Proof.
  cbn zeta. unfold set_name_records. split.
  - induction names as [|r names IH]; [reflexivity|].
    cbn [map]. rewrite !filter_cons.
    destruct (decide (nameID r <> 17)) as [Hr|Hr]; [|exact IH].
    cbn [map]. rewrite IH. f_equal.
    unfold set_name_record. repeat (case_match; try reflexivity).
  - apply Forall_forall. intros r' Hr'.
    apply list_elem_of_In, in_map_iff in Hr' as (r & <- & Hr).
    apply list_elem_of_In, list_elem_of_filter in Hr as [Hid Hr].
    unfold set_name_record.
    destruct (Z.eqb_spec (nameID r) 1) as [Hk|H1];
      [|destruct (Z.eqb_spec (nameID r) 4) as [Hk|H4];
        [|destruct (Z.eqb_spec (nameID r) 6) as [Hk|H6];
          [|destruct (Z.eqb_spec (nameID r) 5) as [Hk|H5];
            [|destruct (Z.eqb_spec (nameID r) 2) as [Hk|H2]]]]];
      cbn [orb nameID name_text];
      repeat split;
      first [ exact Hid
            | reflexivity
            | apply replace_char_length
            | apply replace_char_get
            | intros _; exact Hr
            | intros Hx; exfalso; apply Hx; rewrite Hk; set_solver
            | intros; lia
            | intros [?|?]; lia ].
Qed.

(** X22. [set_line_gap] sets [hhea.lineGap] and [OS/2.sTypoLineGap] to
    the new gap and adds the floor of half the gap to [usWinAscent] and
    the same amount to [usWinDescent], each from its own old value:
    together these grow by the gap when it is even and by one unit less
    when it is odd; a second call adds the same amounts again; an
    absent table stays absent. *)
Theorem set_line_gap_tables_spec
    (hhea : option hhea_table) (os2 : option OS2_table) (new_line_gap : Z) :
  let r := set_line_gap_tables hhea os2 new_line_gap in
  let half := new_line_gap `div` 2 in
  (lineGap <$> r.1) = ((fun _ => new_line_gap) <$> hhea)
  /\ (sTypoLineGap <$> r.2) = ((fun _ => new_line_gap) <$> os2)
  /\ (usWinAscent <$> r.2) = ((fun t => usWinAscent t + half) <$> os2)
  /\ (usWinDescent <$> r.2) = ((fun t => usWinDescent t + half) <$> os2)
  /\ 2 * half <= new_line_gap < 2 * half + 2
  /\ ((fun t => usWinAscent t + usWinDescent t) <$> r.2)
     = ((fun t => usWinAscent t + usWinDescent t
                  + new_line_gap - new_line_gap `mod` 2) <$> os2)
  /\ (usWinAscent <$> (set_line_gap_tables r.1 r.2 new_line_gap).2)
     = ((fun t => usWinAscent t + 2 * half) <$> os2)
  /\ (usWinDescent <$> (set_line_gap_tables r.1 r.2 new_line_gap).2)
     = ((fun t => usWinDescent t + 2 * half) <$> os2).
Proof.
  cbn zeta. unfold set_line_gap_tables. cbn [fst snd].
  pose proof (Z.div_mod new_line_gap 2 ltac:(lia)) as Hdiv.
  pose proof (Z.mod_pos_bound new_line_gap 2 ltac:(lia)) as Hmod.
  destruct hhea as [h|], os2 as [t|]; cbn; repeat split; try f_equal; lia.
Qed.

End BuildFontProps.

(** * More on extract_font.py: decomposition, scaling, positioning values *)

Section ExtractFontSteps.
Context `{FontTools}.

(** *** Decomposition *)

Lemma decompose_glyph_inv G Hm c n G' Hm' c' :
  decompose_glyph (G, Hm, c) n = OK (G', Hm', c') ->
  exists g,
    G !! n = Some g
    /\ Hm' = Hm
    /\ (forall other, other <> n -> G' !! other = G !! other)
    /\ (isComposite g = false -> G' = G /\ c' = c)
    /\ (isComposite g = true -> c' = S c).
Proof.
  unfold decompose_glyph, getitem.
  destruct (G !! n) as [g|] eqn:Hg; [|discriminate]. cbn [mbind result_bind].
  destruct (isComposite g) eqn:Hc.
  - intros Hok. apply mret_ok_inv in Hok. injection Hok as <- <- <-.
    exists g. split; [reflexivity|]. split.
    + destruct Hm as [h|]; [|reflexivity]. cbn.
      destruct (h !! n) as [m|] eqn:Hm; [|reflexivity].
      rewrite insert_id by exact Hm. reflexivity.
    + split; [intros other Hne; apply lookup_insert_ne; congruence|].
      split; [intros Hx; congruence | reflexivity].
  - intros Hok. apply mret_ok_inv in Hok. injection Hok as <- <- <-.
    exists g. split; [reflexivity|]. split; [reflexivity|].
    split; [reflexivity|]. split; [auto | intros Hx; congruence].
Qed.

Lemma decompose_glyphs_spec names :
  forall G Hm c G' Hm' c',
    rfold decompose_glyph names (G, Hm, c) = OK (G', Hm', c') ->
    Hm' = Hm
    /\ (forall name, name ∉ names -> G' !! name = G !! name)
    /\ (forall name g, G !! name = Some g -> isComposite g = false ->
          G' !! name = Some g)
    /\ (c <= c' <= c + length names)%nat
    /\ (NoDup names ->
        c' = (c + length (filter (fun n => (isComposite <$> G !! n) = Some true)
                                 names))%nat).
Proof.
  induction names as [|n names IH]; intros G Hm c G' Hm' c'.
  - cbn. intros [= <- <- <-]. split; [reflexivity|]. split; [reflexivity|].
    split; [auto|]. split; [lia|]. intros _. lia.
  - cbn [rfold]. intros Hrun.
    apply bind_ok_inv in Hrun as ([[G1 Hm1] c1] & Hstep & Hrest).
    apply decompose_glyph_inv in Hstep as (g & Hg & -> & Hother & Hsimple & Hcomp).
    destruct (IH _ _ _ _ _ _ Hrest) as (-> & IHout & IHkeep & IHcount & IHexact).
    split; [reflexivity|]. split; [|split; [|split]].
    + intros name Hname.
      rewrite IHout by (intros Hin; apply Hname; right; exact Hin).
      apply Hother. intros ->. apply Hname. left.
    + intros name g' Hg' Hs'. apply IHkeep; [|exact Hs'].
      destruct (decide (name = n)) as [->|Hne].
      * rewrite Hg in Hg'. injection Hg' as <-.
        destruct (Hsimple Hs') as [-> _]. exact Hg.
      * rewrite Hother by exact Hne. exact Hg'.
    + cbn [length]. destruct (isComposite g) eqn:Hc.
      * rewrite (Hcomp eq_refl) in IHcount. lia.
      * destruct (Hsimple eq_refl) as [_ ->]. lia.
    + intros Hnd. apply NoDup_cons in Hnd as [Hn Hnd]. rewrite (IHexact Hnd).
      rewrite filter_cons, Hg. cbn [fmap option_fmap option_map].
      assert (Hsame : filter (fun n0 => (isComposite <$> G1 !! n0) = Some true) names
                      = filter (fun n0 => (isComposite <$> G !! n0) = Some true) names).
      { apply filter_ext_elem. intros m Hm_in.
        rewrite Hother; [reflexivity|]. intros ->. contradiction. }
      rewrite Hsame. destruct (isComposite g) eqn:Hc.
      * rewrite (Hcomp eq_refl), decide_True by reflexivity. cbn [length]. lia.
      * destruct (Hsimple eq_refl) as [_ ->].
        rewrite decide_False by discriminate. reflexivity.
Qed.

Lemma decompose_glyphs_ok names :
  forall G Hm c,
    Forall (fun n => is_Some (G !! n)) names ->
    exists st, rfold decompose_glyph names (G, Hm, c) = OK st.
Proof.
  induction names as [|n names IH]; intros G Hm c Hall; [cbn; eauto|].
  apply Forall_cons in Hall as [[g Hg] Hall].
  destruct (decompose_glyph (G, Hm, c) n) as [[[G1 Hm1] c1]|e] eqn:Hstep.
  - rewrite (rfold_cons_ok _ _ _ _ _ Hstep). apply IH.
    destruct (decompose_glyph_inv _ _ _ _ _ _ _ Hstep) as (g0 & Hg0 & _ & Hother & Hsimple0 & _).
    eapply Forall_impl; [exact Hall|]. cbn. intros m Hm_in.
    destruct (decide (m = n)) as [->|Hne]; [|rewrite Hother by exact Hne; exact Hm_in].
    destruct (isComposite g0) eqn:Hc.
    + unfold decompose_glyph, getitem in Hstep. rewrite Hg0 in Hstep. cbn in Hstep.
      rewrite Hc in Hstep. apply mret_ok_inv in Hstep. injection Hstep as <- _ _.
      rewrite lookup_insert_eq. eauto.
    + destruct (Hsimple0 eq_refl) as [-> _]. exact Hm_in.
  - exfalso. unfold decompose_glyph, getitem in Hstep. rewrite Hg in Hstep.
    cbn in Hstep. destruct (isComposite g); discriminate.
Qed.

(** X11. [decompose_composites] returns on a font whose glyph order
    names glyphs of its [glyf] table (and returns 0 without touching a
    font that has none).  The metrics table, the glyph order and every
    other table come back as they were; a glyph that is not composite
    keeps its outline; the count is at most the number of glyph names,
    and with distinct names it is the number of composite glyphs of the
    input. *)
Theorem decompose_composites_spec (font : TTFont) :
  (forall glyf_table, glyf font = Some glyf_table ->
     Forall (fun n => is_Some (glyf_table !! n)) (glyphOrder font)) ->
  exists font' count,
    decompose_composites font = OK (font', count)
    /\ hmtx font' = hmtx font
    /\ glyphOrder font' = glyphOrder font
    /\ cmap font' = cmap font /\ GSUB font' = GSUB font /\ GPOS font' = GPOS font
    /\ other_tables font' = other_tables font
    /\ (forall name g, glyph_of font name = Some g -> isComposite g = false ->
          glyph_of font' name = Some g)
    /\ (forall name, name ∉ glyphOrder font -> glyph_of font' name = glyph_of font name)
    /\ (count <= length (glyphOrder font))%nat
    /\ (glyf font = None -> font' = font /\ count = 0%nat)
    /\ (NoDup (glyphOrder font) ->
        count = length (filter (fun n => (isComposite <$> glyph_of font n) = Some true)
                               (glyphOrder font))).
Proof.
  intros Hpresent. unfold decompose_composites, glyph_of.
  destruct (glyf font) as [glyf_table|] eqn:Hglyf.
  - destruct (decompose_glyphs_ok (glyphOrder font) glyf_table (hmtx font) 0%nat
                (Hpresent _ eq_refl)) as [[[G' Hm'] c'] Hloop].
    rewrite Hloop. cbn.
    destruct (decompose_glyphs_spec _ _ _ _ _ _ _ Hloop)
      as (-> & Hout & Hkeep & Hcount & Hexact).
    eexists _, _. split; [reflexivity|]. cbn.
    repeat (split; [reflexivity|]).
    split; [exact Hkeep|]. split; [exact Hout|]. split; [lia|].
    split; [discriminate|]. exact Hexact.
  - exists font, 0%nat. cbn. rewrite ?Hglyf. repeat (split; [reflexivity|]).
    split; [auto|]. split; [auto|]. split; [lia|]. split; [auto|].
    intros _. symmetry. apply length_zero_iff_nil. clear Hpresent.
    induction (glyphOrder font) as [|n l IH]; [reflexivity|].
    rewrite filter_cons, decide_False by discriminate. exact IH.
Qed.

(** *** The transform outside the CJK mode *)




(** *** Positioning values *)

Lemma dict_set_same {K V} `{EqDecision K} (d : list (K * V)) k v :
  dict_get d k = Some v -> dict_set d k v = d.
Proof.
  induction d as [|[k0 v0] d IH]; cbn; [discriminate|].
  destruct (decide (k0 = k)) as [->|Hne].
  - intros [= ->]. reflexivity.
  - intros Hd. rewrite IH by exact Hd. reflexivity.
Qed.

Lemma setattr_same obj name v : getattr obj name = OK v -> setattr obj name v = obj.
Proof.
  unfold getattr, getattr_opt, setattr. destruct obj; try discriminate.
  destruct (dict_get attrs name) as [v'|] eqn:Hget; [|discriminate].
  intros [= <-]. rewrite dict_set_same by exact Hget. reflexivity.
Qed.




(** *** Updates that leave an object alone *)

Local Notation inert f := (forall v r, f v = OK r -> r = (v, false)).

Lemma on_attr_inert name (f : pyval -> result (pyval * bool)) :
  inert f -> inert (on_attr name f).
Proof.
  intros Hf obj r. unfold on_attr.
  destruct (getattr obj name) as [v|] eqn:Hv; [|discriminate]. cbn [mbind result_bind].
  destruct (f v) as [[v' b]|] eqn:Hfv; [|discriminate].
  apply Hf in Hfv. injection Hfv as -> ->. cbn.
  intros Hr. apply mret_ok_inv in Hr. subst r.
  rewrite (setattr_same _ _ _ Hv). reflexivity.
Qed.

Lemma on_attr_if_set_inert name (f : pyval -> result (pyval * bool)) :
  inert f -> inert (on_attr_if_set name f).
Proof.
  intros Hf obj r. unfold on_attr_if_set.
  destruct (getattr_opt obj name) as [v|];
    [|intros Hr; apply mret_ok_inv in Hr; symmetry; exact Hr].
  destruct (truthy v); [apply on_attr_inert; exact Hf|].
  intros Hr. apply mret_ok_inv in Hr. symmetry. exact Hr.
Qed.

Lemma on_each_inert (f : pyval -> result (pyval * bool)) :
  inert f -> forall l r, on_each f l = OK r -> r = (l, false).
Proof.
  intros Hf. induction l as [|x l IH]; intros r; cbn [on_each].
  - intros Hr. apply mret_ok_inv in Hr. symmetry. exact Hr.
  - destruct (f x) as [[x' b]|] eqn:Hx; [|discriminate]. cbn [mbind result_bind].
    destruct (on_each f l) as [[l' b']|]; [|discriminate]. cbn.
    apply Hf in Hx. injection Hx as -> ->.
    specialize (IH _ eq_refl). injection IH as -> ->.
    intros Hr. apply mret_ok_inv in Hr. symmetry. exact Hr.
Qed.

Lemma on_items_inert (f : pyval -> result (pyval * bool)) :
  inert f -> inert (on_items f).
Proof.
  intros Hf v r. unfold on_items. destruct v; try discriminate.
  - destruct (on_each f items) as [[l' b']|] eqn:Hl; [|discriminate].
    apply (on_each_inert f Hf) in Hl. injection Hl as -> ->. cbn.
    intros Hr. apply mret_ok_inv in Hr. symmetry. exact Hr.
  - destruct (on_each f items) as [[l' b']|] eqn:Hl; [|discriminate].
    apply (on_each_inert f Hf) in Hl. injection Hl as -> ->. cbn.
    intros Hr. apply mret_ok_inv in Hr. symmetry. exact Hr.
Qed.

Lemma and_then_inert (f g : pyval -> result (pyval * bool)) :
  inert f -> inert g -> inert (and_then f g).
Proof.
  intros Hf Hg obj r. unfold and_then.
  destruct (f obj) as [[o1 b1]|] eqn:H1; [|discriminate]. cbn [mbind result_bind fst].
  apply Hf in H1. injection H1 as -> ->.
  destruct (g obj) as [[o2 b2]|] eqn:H2; [|discriminate]. cbn.
  apply Hg in H2. injection H2 as -> ->.
  intros Hr. apply mret_ok_inv in Hr. symmetry. exact Hr.
Qed.

Lemma mret_inert : inert (fun sub : pyval => (mret (sub, false) : result (pyval * bool))).
Proof. intros v r Hr. apply mret_ok_inv in Hr. congruence. Qed.

(** *** The identity *)

Lemma adjust_field_identity name new st :
  (forall v, py_round (new v) = v) -> adjust_field name new st = st.
Proof.
  intros Hnew. unfold adjust_field.
  destruct (getattr_opt st.1 name) as [v|]; [|reflexivity].
  destruct v; try reflexivity. rewrite Hnew, Z.eqb_refl. reflexivity.
Qed.

Lemma py_round_scale_identity (v : Z) : py_round (Int v * Int 1) = v.
Proof. unfold py_round, number_mul. apply Z.mul_1_r. Qed.

Lemma py_round_affine_identity (v : Z) : py_round (Int v * Int 1 + Int 0) = v.
Proof. unfold py_round, number_mul, number_add. lia. Qed.

Lemma adjust_value_record_identity : inert (adjust_value_record Identity).
Proof.
  intros v r. unfold adjust_value_record. cbn [xx yy dx dy Identity].
  rewrite !adjust_field_identity
    by first [exact py_round_scale_identity | exact py_round_affine_identity].
  intros Hr. apply mret_ok_inv in Hr. symmetry. exact Hr.
Qed.

Lemma adjust_anchor_identity : inert (adjust_anchor Identity).
Proof.
  intros v r. unfold adjust_anchor. cbn [xx yy dx dy Identity].
  rewrite !adjust_field_identity by exact py_round_affine_identity.
  intros Hr. apply mret_ok_inv in Hr. symmetry. exact Hr.
Qed.

Lemma transform_subtable_identity ltype : inert (transform_subtable Identity ltype).
Proof.
  intros sub r. unfold transform_subtable.
  pose proof adjust_value_record_identity as Hvr.
  pose proof adjust_anchor_identity as Han.
  assert (H12 : inert (adjust_values12 Identity)).
  { apply and_then_inert; apply on_attr_inert; exact Hvr. }
  assert (Hmark : forall name, inert (adjust_mark_array Identity name)).
  { intros name. apply on_attr_if_set_inert, on_attr_inert, on_items_inert, on_attr_inert.
    exact Han. }
  assert (Hmatrix : forall a b c, inert (adjust_anchor_matrix Identity a b c)).
  { intros a b c. apply on_attr_if_set_inert, on_attr_inert, on_items_inert, on_attr_inert,
      on_items_inert. exact Han. }
  repeat case_match; subst;
    try (intros Hr; apply mret_ok_inv in Hr; symmetry; exact Hr);
    try discriminate.
  all: try (destruct (getattr sub "Format") as [fmt|];
            [cbn [mbind result_bind]; repeat case_match; subst
            |intros Hr; discriminate Hr]).
  all: try (intros Hr; apply mret_ok_inv in Hr; symmetry; exact Hr).
  all: revert r.
  all: first
    [ apply on_attr_inert; first [exact Hvr | apply on_items_inert; exact Hvr]
    | apply on_attr_inert, on_items_inert, on_attr_inert, on_items_inert; exact H12
    | apply on_attr_if_set_inert, on_items_inert, and_then_inert;
      apply on_attr_inert; exact Han
    | apply and_then_inert; [apply Hmark | apply Hmatrix]
    | apply and_then_inert; [apply Hmark|];
      apply on_attr_if_set_inert, on_attr_inert, on_items_inert, on_attr_inert,
        on_items_inert, on_attr_inert, on_items_inert; exact Han ].
Qed.

Lemma transform_subtable_other transform ltype :
  (forall k, 1 <= k <= 6 -> ltype <> PyInt k) ->
  inert (transform_subtable transform ltype).
Proof.
  intros Hother sub r. unfold transform_subtable.
  repeat case_match; subst;
    try (intros Hr; apply mret_ok_inv in Hr; symmetry; exact Hr).
  all: exfalso; eapply Hother; [|reflexivity]; lia.
Qed.

Lemma transform_lookup_inv transform st lookup r :
  transform_lookup transform st lookup = OK r ->
  exists ltype lookup' changed,
    getattr lookup "LookupType" = OK ltype
    /\ on_attr "SubTable" (on_items (transform_subtable transform ltype)) lookup
       = OK (lookup', changed)
    /\ r = (st.1 ++ [lookup'], if changed then S st.2 else st.2).
Proof.
  unfold transform_lookup. intros Hr.
  apply bind_ok_inv in Hr as (ltype & Htype & Hr).
  apply bind_ok_inv in Hr as ([lookup' changed] & Hsub & Hr).
  apply mret_ok_inv in Hr. exists ltype, lookup', changed.
  split; [exact Htype|]. split; [exact Hsub | symmetry; exact Hr].
Qed.

Lemma transform_lookups_spec transform lookups :
  forall st r,
    rfold (transform_lookup transform) lookups st = OK r ->
    exists lookups',
      r.1 = st.1 ++ lookups'
      /\ (st.2 <= r.2 <= st.2 + length lookups)%nat
      /\ Forall2 (fun lookup lookup' =>
           exists ltype changed,
             getattr lookup "LookupType" = OK ltype
             /\ on_attr "SubTable" (on_items (transform_subtable transform ltype)) lookup
                = OK (lookup', changed)) lookups lookups'
      /\ (Forall (fun lookup => forall ltype,
                    getattr lookup "LookupType" = OK ltype ->
                    inert (transform_subtable transform ltype)) lookups ->
          lookups' = lookups /\ r.2 = st.2).
Proof.
  induction lookups as [|lookup lookups IH]; intros st r.
  - cbn. intros [= <-]. exists []. rewrite app_nil_r.
    split; [reflexivity|]. split; [lia|]. split; [constructor | auto].
  - cbn [rfold]. intros Hrun. apply bind_ok_inv in Hrun as (st1 & Hstep & Hrest).
    apply transform_lookup_inv in Hstep as (ltype & lookup' & changed & Htype & Hsub & ->).
    destruct (IH _ _ Hrest) as (lookups' & Hr1 & Hcount & Hrel & Hinert).
    cbn [fst snd] in Hr1, Hcount, Hinert.
    exists (lookup' :: lookups').
    split; [rewrite Hr1, <- app_assoc; reflexivity|].
    split; [cbn [length]; destruct changed; lia|].
    split; [constructor; [eauto | exact Hrel]|].
    intros Hall. apply Forall_cons in Hall as [Hhead Hall].
    destruct (Hinert Hall) as [-> Hr2].
    apply (on_attr_inert "SubTable"
             (on_items (transform_subtable transform ltype))
             (on_items_inert _ (Hhead ltype Htype))) in Hsub.
    injection Hsub as -> ->. split; [reflexivity | exact Hr2].
Qed.

(** X14. The identity transform leaves the positioning table alone:
    when [apply_gpos_transform] returns, the font is the one passed in
    and no lookup is counted. *)
Theorem apply_gpos_transform_identity (font font' : TTFont) (count : nat) :
  apply_gpos_transform font Identity = OK (font', count) ->
  font' = font /\ count = 0%nat.
Proof.
  unfold apply_gpos_transform.
  destruct (GPOS font) as [gpos|] eqn:Hgpos;
    [|intros Hr; apply mret_ok_inv in Hr; injection Hr as <- <-; auto].
  destruct (LookupList gpos) as [ll|] eqn:Hll;
    [|intros Hr; apply mret_ok_inv in Hr; injection Hr as <- <-; auto].
  intros Hrun. apply bind_ok_inv in Hrun as (r & Hloop & Hrun).
  apply mret_ok_inv in Hrun. injection Hrun as <- <-.
  destruct (transform_lookups_spec _ _ _ _ Hloop) as (lookups' & Hr1 & _ & _ & Hinert).
  destruct Hinert as [-> Hr2].
  { apply Forall_forall. intros lookup _ ltype _. apply transform_subtable_identity. }
  cbn in Hr1, Hr2. rewrite Hr1, Hr2. split; [|reflexivity].
  destruct ll as [cnt lks]. destruct gpos as [sl fl llo]. cbn in Hll |- *. subst llo.
  destruct font. cbn in Hgpos |- *. subst. reflexivity.
Qed.

(** X15. [apply_gpos_transform] touches nothing but the lookups of the
    positioning table: the other tables, the script and feature lists
    and the lookup count field are kept, the lookup list keeps its
    length, the number returned is at most that length, and a lookup
    whose type is not one of 1 to 6 (contextual, chaining, extension)
    comes back as it was. *)
Theorem apply_gpos_transform_frame
    (font font' : TTFont) (transform : Transform) (count : nat) :
  apply_gpos_transform font transform = OK (font', count) ->
  glyphOrder font' = glyphOrder font /\ glyf font' = glyf font
  /\ hmtx font' = hmtx font /\ cmap font' = cmap font /\ GSUB font' = GSUB font
  /\ other_tables font' = other_tables font
  /\ (GPOS font = None -> font' = font /\ count = 0%nat)
  /\ (forall gpos ll,
        GPOS font = Some gpos -> LookupList gpos = Some ll ->
        exists lookups',
          GPOS font' = Some (mkOtl (ScriptList gpos) (FeatureList gpos)
                               (Some (mkLookupList (LookupCount ll) lookups')))
          /\ length lookups' = length (Lookup ll)
          /\ (count <= length (Lookup ll))%nat
          /\ (forall i lookup ltype,
                Lookup ll !! i = Some lookup ->
                getattr lookup "LookupType" = OK ltype ->
                (forall k, 1 <= k <= 6 -> ltype <> PyInt k) ->
                lookups' !! i = Some lookup)).
Proof.
  unfold apply_gpos_transform.
  destruct (GPOS font) as [gpos|] eqn:Hgpos.
  2:{ intros Hr. apply mret_ok_inv in Hr. injection Hr as <- <-.
      repeat (split; [reflexivity|]). split; [auto|]. intros gpos ll Hx. discriminate Hx. }
  destruct (LookupList gpos) as [ll|] eqn:Hll.
  2:{ intros Hr. apply mret_ok_inv in Hr. injection Hr as <- <-.
      repeat (split; [reflexivity|]). split; [intros Hx; discriminate Hx|].
      intros gpos' ll [= <-] Hx. rewrite Hll in Hx. discriminate Hx. }
  intros Hrun. apply bind_ok_inv in Hrun as (r & Hloop & Hrun).
  apply mret_ok_inv in Hrun. injection Hrun as <- <-.
  destruct (transform_lookups_spec _ _ _ _ Hloop) as (lookups' & Hr1 & Hcount & Hrel & _).
  cbn in Hr1, Hcount.
  repeat (split; [reflexivity|]). split; [intros Hx; discriminate Hx|].
  intros gpos' ll' [= <-] Hll'. rewrite Hll in Hll'. injection Hll' as <-.
  exists lookups'. cbn. rewrite Hr1.
  split; [reflexivity|]. split; [symmetry; apply (Forall2_length _ _ _ Hrel)|].
  split; [lia|].
  intros i lookup ltype Hi Htype Hother.
  destruct (Forall2_lookup_l _ _ _ _ _ Hrel Hi)
    as (lookup' & Hi' & ltype' & changed & Htype' & Hsub).
  rewrite Htype in Htype'. injection Htype' as <-.
  apply (on_attr_inert "SubTable" (on_items (transform_subtable transform ltype))
           (on_items_inert _ (transform_subtable_other transform ltype Hother))) in Hsub.
  injection Hsub as -> _. exact Hi'.
Qed.

(** *** The transform in the CJK mode *)

Lemma transform_glyph_cjk transform G Hm c n g :
  G !! n = Some g ->
  isComposite g = false ->
  transform_glyph transform true (G, Hm, c) n
  = OK (if cjk_skip Hm n then (G, Hm, c)
        else (if 0 <? numberOfContours g
              then <[n := pen_glyph transform (glyph_set_draw g (Hm ≫= (.!! n)))]> G
              else G,
              Hm, S c)).
Proof.
  intros Hg Hc. unfold transform_glyph, getitem. rewrite Hg. cbn. rewrite Hc.
  destruct (cjk_skip Hm n); reflexivity.
Qed.

Lemma transform_glyphs_cjk transform names :
  NoDup names ->
  forall G Hm c,
    Forall (fun n => exists g, G !! n = Some g /\ isComposite g = false) names ->
    exists G',
      rfold (transform_glyph transform true) names (G, Hm, c)
        = OK (G', Hm, (c + length (filter (fun n => cjk_skip Hm n = false) names))%nat)
      /\ (forall n, n ∉ names -> G' !! n = G !! n)
      /\ (forall n g, n ∈ names -> G !! n = Some g ->
            G' !! n = Some (if negb (cjk_skip Hm n) && (0 <? numberOfContours g)
                            then pen_glyph transform (glyph_set_draw g (Hm ≫= (.!! n)))
                            else g)).
Proof.
  induction 1 as [|n names Hnotin Hnd IH]; intros G Hm c Hall.
  - exists G. cbn. rewrite Nat.add_0_r. split; [reflexivity|].
    split; [auto|]. intros n g Hin. inversion Hin.
  - apply Forall_cons in Hall as [(g & Hg & Hsimple) Hall].
    rewrite (rfold_cons_ok _ _ _ _ _ (transform_glyph_cjk transform G Hm c n g Hg Hsimple)).
    rewrite filter_cons.
    set (G1 := if negb (cjk_skip Hm n) && (0 <? numberOfContours g)
               then <[n := pen_glyph transform (glyph_set_draw g (Hm ≫= (.!! n)))]> G
               else G).
    assert (Hstate : (if cjk_skip Hm n then (G, Hm, c)
                      else (if 0 <? numberOfContours g
                            then <[n := pen_glyph transform
                                          (glyph_set_draw g (Hm ≫= (.!! n)))]> G
                            else G, Hm, S c))
                     = (G1, Hm, if cjk_skip Hm n then c else S c)).
    { subst G1. destruct (cjk_skip Hm n); reflexivity. }
    rewrite Hstate.
    assert (HG1 : forall other, other <> n -> G1 !! other = G !! other).
    { intros other Hne. subst G1.
      destruct (negb (cjk_skip Hm n) && (0 <? numberOfContours g)); [|reflexivity].
      apply lookup_insert_ne. congruence. }
    destruct (IH G1 Hm (if cjk_skip Hm n then c else S c)) as (G' & Hloop & Hout & Hin).
    { rewrite Forall_forall in Hall |- *. intros m Hm_in.
      destruct (Hall m Hm_in) as (g' & Hg' & Hs'). exists g'. split; [|exact Hs'].
      rewrite HG1; [exact Hg'|]. intros ->. contradiction. }
    exists G'. split; [|split].
    + rewrite Hloop. do 2 f_equal.
      destruct (cjk_skip Hm n) eqn:Hskip.
      * rewrite decide_False by discriminate. reflexivity.
      * rewrite decide_True by reflexivity. cbn [length]. lia.
    + intros m Hm_out. rewrite Hout by (intros Hx; apply Hm_out; right; exact Hx).
      apply HG1. intros ->. apply Hm_out. left.
    + intros m g' Hm_in Hg'. apply elem_of_cons in Hm_in as [->|Hm_in].
      * rewrite Hg in Hg'. injection Hg' as <-. rewrite (Hout n Hnotin). subst G1.
        destruct (negb (cjk_skip Hm n) && (0 <? numberOfContours g));
          [apply lookup_insert_eq | exact Hg].
      * apply Hin; [exact Hm_in|]. rewrite HG1; [exact Hg'|]. intros ->. contradiction.
Qed.

(** X16. In the CJK mode, on a font whose glyph names are distinct and
    name simple glyphs, [apply_glyph_transform] returns the number of
    glyphs whose advance width is exactly 1000; each of those that has
    contours is redrawn from the glyph set, which moves its points along
    x by [lsb - xMin], through the transform, with no recalculation of
    bounds, and every other glyph keeps its outline. *)
Theorem apply_glyph_transform_cjk (font : TTFont) (transform : Transform)
    (glyf_table : gmap string Glyph) :
  NoDup (glyphOrder font) ->
  glyf font = Some glyf_table ->
  Forall (fun n => exists g, glyf_table !! n = Some g /\ isComposite g = false)
         (glyphOrder font) ->
  exists font',
    apply_glyph_transform font transform true
      = OK (font', length (filter (fun n => cjk_skip (hmtx font) n = false)
                                  (glyphOrder font)))
    /\ (forall name, cjk_skip (hmtx font) name = false <->
                     exists lsb, metrics_of font name = Some (1000, lsb))
    /\ (forall name g lsb,
          name ∈ glyphOrder font -> glyph_of font name = Some g ->
          metrics_of font name = Some (1000, lsb) ->
          glyph_of font' name
          = Some (if 0 <? numberOfContours g
                  then pen_glyph transform (glyph_set_draw g (Some (1000, lsb)))
                  else g))
    /\ (forall name,
          (forall lsb, metrics_of font name <> Some (1000, lsb)) ->
          glyph_of font' name = glyph_of font name).
Proof.
  intros Hnd Hglyf Hsimple.
  destruct (transform_glyphs_cjk transform (glyphOrder font) Hnd glyf_table (hmtx font)
              0%nat Hsimple) as (G' & Hloop & Hout & Hin).
  unfold apply_glyph_transform. rewrite Hglyf, Hloop. cbn.
  eexists. split; [reflexivity|].
  assert (Hskip : forall name, cjk_skip (hmtx font) name = false <->
                               exists lsb, metrics_of font name = Some (1000, lsb)).
  { intros name. unfold cjk_skip, metrics_of. destruct (hmtx font) as [h|].
    - destruct (h !! name) as [[w lsb]|].
      + rewrite negb_false_iff, Z.eqb_eq. split.
        * intros ->. eauto.
        * intros (lsb' & [= -> _]). reflexivity.
      + split; [discriminate | intros (lsb & Hx); discriminate].
    - split; [discriminate | intros (lsb & Hx); discriminate]. }
  split; [exact Hskip|]. unfold glyph_of. cbn. rewrite Hglyf. split.
  - intros name g lsb Hname Hg Hm. rewrite (Hin name g Hname Hg).
    replace (cjk_skip (hmtx font) name) with false by (symmetry; apply Hskip; eauto).
    assert (Hb : hmtx font ≫= (.!! name) = Some (1000, lsb)).
    { rewrite <- Hm. unfold metrics_of. destruct (hmtx font); reflexivity. }
    rewrite Hb. reflexivity.
  - intros name Hw. destruct (decide (name ∈ glyphOrder font)) as [Hname|Hname];
      [|apply Hout; exact Hname].
    rewrite Forall_forall in Hsimple. destruct (Hsimple name Hname) as (g & Hg & _).
    rewrite (Hin name g Hname Hg), Hg.
    destruct (cjk_skip (hmtx font) name) eqn:Hs; [reflexivity|].
    apply Hskip in Hs as (lsb & Hm). exfalso. exact (Hw lsb Hm).
Qed.

(** *** The extraction of the CJK font *)

(** X20. [extract_font] called with [skip_decomposition] and a
    transform, as [build.py] calls it for the CJK font, raises on a
    static font that has a composite glyph in its glyph order, in the
    CJK mode and outside it, with or without axis settings: nothing
    decomposes the glyph before [apply_glyph_transform] meets it. *)
Theorem extract_font_skip_decomposition_composite
    (font : TTFont) (axis_settings : option (list (string * Q))) (transform : Transform)
    (cjk_mode_transform : bool) (glyf_table : gmap string Glyph) (glyph_name : string)
    (g : Glyph) :
  has_table font "fvar" = false ->
  glyf font = Some glyf_table ->
  glyph_name ∈ glyphOrder font ->
  glyf_table !! glyph_name = Some g ->
  isComposite g = true ->
  exists e,
    extract_font font axis_settings (Some transform) cjk_mode_transform true = Raise e.
Proof.
  intros Hstatic Hglyf Hin Hg Hc.
  unfold extract_font, instantiate. rewrite Hstatic.
  assert (Hstage : exists e,
            transform_stage font (Some transform) cjk_mode_transform = Raise e).
  { unfold transform_stage, apply_glyph_transform. rewrite Hglyf.
    destruct (transform_glyphs_composite transform cjk_mode_transform (glyphOrder font)
                glyf_table (hmtx font) 0%nat glyph_name g Hin Hg Hc) as [e He].
    rewrite He. exists e. reflexivity. }
  destruct Hstage as [e He]. exists e.
  destruct (axis_settings_given axis_settings);
    cbn [mbind result_bind mret result_ret fst snd]; rewrite He; reflexivity.
Qed.

End ExtractFontSteps.

Lemma extract_font_axis_settings_witness :
  has_table font_variable "fvar" = true /\
  axis_settings_given None = false /\
  has_table font_cjk "fvar" = false /\
  axis_settings_given (Some [("wght", 400%Q)]) = true /\
  @extract_font sample_tools font_variable None None false false
    = Raise (ValueError "Font is variable but no axis settings provided.") /\
  @instantiate sample_tools font_cjk (Some [("wght", 400%Q)])
    = OK (font_cjk, [Warning_axis_settings_ignored]).
Proof.
  assert (Hv : has_table font_variable "fvar" = true) by (vm_compute; reflexivity).
  assert (Hs : has_table font_cjk "fvar" = false) by (vm_compute; reflexivity).
  pose proof (@extract_font_axis_settings sample_tools font_variable font_cjk None
                (Some [("wght", 400%Q)]) None false false Hv eq_refl Hs eq_refl) as (H1 & H2 & _).
  repeat split; assumption.
Defined.

Ltac by_computation :=
  match goal with
  | |- ?P => apply (bool_decide_unpack P); vm_compute; exact I
  end.

Lemma apply_glyph_transform_composite_witness :
  glyf font_with_composite
    = Some {[ "uni4E00" := square; "Aacute" := accented ]} /\
  "Aacute" ∈ glyphOrder font_with_composite /\
  isComposite accented = true /\
  metrics_of font_with_composite "Aacute" = Some (900, 40) /\
  @apply_glyph_transform sample_tools font_with_composite (translate 10 0) true
    = Raise (ValueError (composite_msg "Aacute")).
Proof.
  assert (Hin : "Aacute" ∈ glyphOrder font_with_composite) by by_computation.
  pose proof (@apply_glyph_transform_composite sample_tools font_with_composite
                (translate 10 0) true _ "Aacute" accented eq_refl Hin eq_refl eq_refl)
    as [_ Hexact].
  split; [reflexivity|]. split; [exact Hin|].
  split; [reflexivity|]. split; [reflexivity|].
  apply (Hexact ["uni4E00"] []); [reflexivity | by_computation |].
  constructor; [|constructor]. exists square. split; reflexivity.
Defined.

Lemma cjk_transform_frame_witness :
  NoDup (glyphOrder font_cjk) /\
  metrics_of font_cjk "A" = Some (900, 40) /\
  exists font',
    @transform_stage sample_tools font_cjk (Some (translate 10 0)) true = OK font'
    /\ GPOS font' = GPOS font_cjk
    /\ hmtx font' = hmtx font_cjk
    /\ glyph_of font' "A" = glyph_of font_cjk "A".
Proof.
  assert (Hnd : NoDup (glyphOrder font_cjk)) by by_computation.
  assert (Hsimple : forall glyf_table, glyf font_cjk = Some glyf_table ->
            Forall (fun n => exists g, glyf_table !! n = Some g /\ isComposite g = false)
                   (glyphOrder font_cjk)).
  { intros t [= <-]. repeat constructor; exists square; split; reflexivity. }
  destruct (@cjk_transform_frame sample_tools font_cjk (translate 10 0) Hnd Hsimple)
    as (font' & Hrun & Hgpos & Hhmtx & Hframe & _).
  split; [exact Hnd|]. split; [reflexivity|].
  exists font'. split; [exact Hrun|]. split; [exact Hgpos|]. split; [exact Hhmtx|].
  apply Hframe. intros lsb. vm_compute. discriminate.
Defined.

(** C3 at a glyph wider than 1000.  The donor maps U+0041 and U+0056;
    the primary maps U+0041 to a glyph 1200 units wide.  The merge leaves
    U+0041 on the primary's glyph in both subtables and adds U+0056. *)
Theorem cmap_rewrite_keeps_wide_glyph :
  metrics_of font_primary "A" = Some (1200, 40)
  /\ dict_get (union_cmap (default [] (cmap font_inter))) 0x41 = Some "A"
  /\ is_control 0x41 = false
  /\ (font ← @merge_inter_font sample_tools font_primary font_inter 0; mret (cmap font))
     = OK (Some [mkCmapSubtable 4 true
                   [(0x4E00, "uni4E00"); (0x41, "A"); (0x56, "inter_V")];
                 mkCmapSubtable 12 true
                   [(0x4E00, "uni4E00"); (0x41, "A"); (0x56, "inter_V")]]).
Proof. repeat split; vm_compute; reflexivity. Qed.

(** C2 at a donor with a contextual rule.  The donor's second lookup
    holds the glyph sequence [V] under [Input].  After the merge the
    names in coverage lists and [SecondGlyph] fields are prefixed and in
    the glyph order, while the sequence still reads [V]: a donor name
    without the prefix, which the name map sends to [inter_V] and which
    is no glyph of the merged font. *)
Theorem merge_keeps_donor_name_in_rule :
  exists font,
    @merge_inter_font sample_tools font_primary font_inter 0 = OK font
    /\ glyphOrder font = ["uni4E00"; "A"; "inter_A"; "inter_V"]
    /\ font_sites font = ["inter_A"; "inter_A"; "inter_V"; "uni4E00"; "A"]
    /\ font_strings font = ["inter_A"; "V"; "inter_A"; "inter_V"; "uni4E00"; "A"]
    /\ "V" ∈ glyphOrder font_inter
    /\ dict_get inter_names "V" = Some "inter_V"
    /\ "V" ∈ font_strings font
    /\ "V" ∉ glyphOrder font.
Proof.
  destruct (@merge_inter_font sample_tools font_primary font_inter 0) as [font|e] eqn:Hm;
    [|vm_compute in Hm; discriminate].
  assert (Hall : (glyphOrder font, font_sites font, font_strings font)
                 = (["uni4E00"; "A"; "inter_A"; "inter_V"],
                    ["inter_A"; "inter_A"; "inter_V"; "uni4E00"; "A"],
                    ["inter_A"; "V"; "inter_A"; "inter_V"; "uni4E00"; "A"])).
  { vm_compute in Hm. injection Hm as <-. vm_compute. reflexivity. }
  injection Hall as Horder Hsites Hstrings.
  exists font. split; [reflexivity|]. rewrite Horder, Hsites, Hstrings.
  repeat split; try reflexivity; by_computation.
Qed.

(** C1 at a primary font with a positioning table of its own.  The donor
    has the lookups [kern; context] and the features [kern [0]] and
    [cpsp [1]]; the primary has the lookup [palt] and the feature
    [palt [0]].  Each donor lookup is inserted at index 0, so the merged
    list is [context; kern; palt]: neither the donor's lookups in their
    order in front of the primary's, nor the appended list that the
    docstring and the offsets go by.  The feature records carry the
    indices of the appended list: [palt] keeps index 0, now the donor's
    contextual lookup, and [cpsp] gets index 2, now the primary's
    [palt] lookup, where the appended list has the lookup each had. *)
Theorem merge_inserts_lookups_at_front :
  exists font table lookups features,
    merge_inter_font_gpos_table font_primary font_inter inter_names = OK font
    /\ GPOS font = Some table
    /\ LookupList table = Some lookups
    /\ FeatureList table = Some features
    /\ Lookup lookups
       = [remap inter_names lookup_context; remap inter_names lookup_kern; lookup_palt]
    /\ FeatureRecord features
       = [mkFeatureRecord "palt" (mkFeature [0]%nat);
          mkFeatureRecord "kern" (mkFeature [1]%nat);
          mkFeatureRecord "cpsp" (mkFeature [2]%nat)]
    /\ Lookup lookups
       <> map (remap inter_names) [lookup_kern; lookup_context] ++ [lookup_palt]
    /\ Lookup lookups
       <> [lookup_palt] ++ map (remap inter_names) [lookup_kern; lookup_context]
    /\ Lookup lookups !! 0%nat = Some (remap inter_names lookup_context)
    /\ Lookup lookups !! 2%nat = Some lookup_palt
    /\ remap inter_names lookup_context <> lookup_palt
    /\ ([lookup_palt] ++ map (remap inter_names) [lookup_kern; lookup_context]) !! 0%nat
       = Some lookup_palt
    /\ ([lookup_palt] ++ map (remap inter_names) [lookup_kern; lookup_context]) !! 2%nat
       = Some (remap inter_names lookup_context).
Proof.
  eexists _, _, _, _. split; [vm_compute; reflexivity|].
  split; [reflexivity|]. split; [reflexivity|]. split; [reflexivity|].
  split; [vm_compute; reflexivity|]. split; [vm_compute; reflexivity|].
  split; [vm_compute; discriminate|]. split; [vm_compute; discriminate|].
  split; [vm_compute; reflexivity|]. split; [vm_compute; reflexivity|].
  split; [vm_compute; discriminate|]. split; vm_compute; reflexivity.
Qed.

Lemma merge_inter_font_gpos_table_spec_witness :
  inter_gpos_merged font_primary = false /\
  inter_gpos_merged font_cjk = false /\
  GPOS font_inter = Some gpos_inter /\
  GPOS font_primary = Some gpos_primary /\
  GPOS font_cjk = None /\
  (font ← merge_inter_font_gpos_table font_primary font_inter inter_names;
   mret (FeatureRecord <$> (GPOS font ≫= FeatureList)))
    = OK (Some [mkFeatureRecord "palt" (mkFeature [0]%nat);
                mkFeatureRecord "kern" (mkFeature [1]%nat);
                mkFeatureRecord "cpsp" (mkFeature [2]%nat)]) /\
  (font ← merge_inter_font_gpos_table font_cjk font_inter inter_names; mret (GPOS font))
    = OK (Some (remap_table inter_names gpos_inter)).
Proof.
  destruct (merge_inter_font_gpos_table_spec font_primary font_cjk font_inter inter_names
              gpos_primary gpos_inter _ _ _ _
              eq_refl eq_refl eq_refl eq_refl eq_refl eq_refl eq_refl eq_refl eq_refl)
    as [Hwith Hwithout].
  split; [reflexivity|]. split; [reflexivity|]. split; [reflexivity|].
  split; [reflexivity|]. split; [reflexivity|]. split.
  - rewrite Hwith. reflexivity.
  - rewrite Hwithout. reflexivity.
Defined.



(** Decimal literals and products as doubles: the values are those of
    [float.as_integer_ratio()]. *)
Example decimal_literals_as_doubles :
  (number_value (py_float (7 # 10)) == inject_Z 3152519739159347 * Qpower 2 (-52))%Q
  /\ (number_value (py_float (29 # 100)) == inject_Z 5224175567749775 * Qpower 2 (-54))%Q
  /\ (number_value (Int 1600 * py_float (29 # 100))
      == inject_Z 8162774324609023 * Qpower 2 (-44))%Q
  /\ (number_value (Int 45 * py_float (7 # 10))
      == inject_Z 8866461766385663 * Qpower 2 (-48))%Q
  /\ (number_value (Int 50 * py_float (47 # 100)) == 47 # 2)%Q
  /\ (number_value (halve (Int 7)) == 7 # 2)%Q.
Proof. repeat split; apply Qeq_bool_eq; vm_compute; reflexivity. Qed.

(** [expand] on decimal fractions: the product is a float product, so
    [1600 * 0.29 / 2] is just below 232. *)
Example expand_of_decimal_fractions :
  expand_of 1600 (py_float (29 # 100)) = 231
  /\ expand_of 1000 (py_float (12 # 100)) = 60
  /\ expand_of 1000 (py_float (1 # 8)) = 62
  /\ expand_of 1000 (Int 0) = 0.
Proof. repeat split; vm_compute; reflexivity. Qed.

(** C5 does not hold for the indices: with [ss01], [locl] and [liga] at
    indices 0, 1 and 2, two records are left and the index list becomes
    [1; 2], whose second entry is out of range. *)
Lemma pruned_index_out_of_range :
  exists font' gsub' fl' sl',
    remove_stylistic_sets font_gsub = OK font'
    /\ GSUB font' = Some gsub'
    /\ FeatureList gsub' = Some fl'
    /\ ScriptList gsub' = Some sl'
    /\ map FeatureTag (FeatureRecord fl') = ["locl"; "liga"]
    /\ map (fun sr => FeatureIndex <$> DefaultLangSys (Script sr)) (ScriptRecord sl')
       = [Some [1; 2]%nat]
    /\ ~ (2 < length (FeatureRecord fl'))%nat.
Proof.
  eexists _, _, _, _. split; [vm_compute; reflexivity|].
  split; [reflexivity|]. split; [reflexivity|]. split; [reflexivity|].
  split; [vm_compute; reflexivity|]. split; [vm_compute; reflexivity|].
  vm_compute. lia.
Qed.

Lemma remove_stylistic_sets_spec_witness :
  GSUB font_gsub = Some gsub_sample /\
  exists font' gsub' fl',
    remove_stylistic_sets font_gsub = OK font'
    /\ GSUB font' = Some gsub'
    /\ FeatureList gsub' = Some fl'
    /\ Forall (fun f => FeatureTag f ∉ ssXX_tags) (FeatureRecord fl').
Proof.
  destruct (remove_stylistic_sets_spec font_gsub gsub_sample _ _ eq_refl eq_refl eq_refl)
    as (font' & gsub' & fl' & sl' & Hrun & Hgsub & Hfl & _ & _ & Hnone & _).
  split; [reflexivity|].
  exists font', gsub', fl'. repeat split; assumption.
Defined.

Lemma merge_gpos_idempotent_witness :
  exists merged,
    merge_inter_font_gpos_table font_primary font_inter inter_names = OK merged
    /\ inter_gpos_merged merged = true
    /\ merge_inter_font_gpos_table merged font_inter inter_names = OK merged.
Proof.
  destruct (merge_inter_font_gpos_table font_primary font_inter inter_names)
    as [merged|e] eqn:Hfirst; [|vm_compute in Hfirst; discriminate].
  destruct (@merge_gpos_idempotent sample_tools _ _ _ _ Hfirst) as (Hflag & Hagain & _).
  exists merged. split; [reflexivity|]. split; [exact Hflag|]. apply Hagain.
Defined.

Lemma build_font_drops_gsub_witness :
  is_Some (GSUB font_gsub) /\
  exists saved,
    @build_font sample_tools font_gsub config_sample = OK saved
    /\ GSUB saved = None
    /\ no_gsub_stat_cv saved.
Proof.
  split; [eexists; reflexivity|].
  destruct (@build_font sample_tools font_gsub config_sample) as [saved|e] eqn:Hbuild;
    [|vm_compute in Hbuild; discriminate].
  destruct (@build_font_drops_gsub sample_tools _ _ _ Hbuild) as (_ & Hgsub & Hnone).
  exists saved. split; [reflexivity|]. split; assumption.
Defined.

Lemma merge_inter_font_glyph_names_witness :
  exists font,
    @merge_inter_font sample_tools font_primary font_inter 0 = OK font
    /\ glyphOrder font = ["uni4E00"; "A"; "inter_A"; "inter_V"]
    /\ Forall (fun s => s ∈ glyphOrder font) (font_sites font).
Proof.
  destruct (@merge_inter_font sample_tools font_primary font_inter 0) as [font|e] eqn:Hm;
    [|vm_compute in Hm; discriminate].
  assert (Hdonor : Forall (fun s => s ∈ glyphOrder font_inter) (font_sites font_inter))
    by by_computation.
  assert (Hprimary : Forall (fun s => s ∈ glyphOrder font_primary) (font_sites font_primary))
    by by_computation.
  destruct (@merge_inter_font_glyph_names sample_tools _ _ _ _ Hm Hdonor Hprimary)
    as (Horder & Hsites & _).
  exists font. split; [reflexivity|]. split; [exact Horder | exact Hsites].
Defined.

Lemma merge_inter_font_requires_witness :
  exists font,
    @merge_inter_font sample_tools font_primary_punc font_inter_punc 1 = OK font
    /\ has_table font_inter_punc "fvar" = false
    /\ "exclam" ∈ glyphOrder font_inter_punc
    /\ "question" ∈ glyphOrder font_inter_punc.
Proof.
  destruct (@merge_inter_font sample_tools font_primary_punc font_inter_punc 1)
    as [font|e] eqn:Hm; [|vm_compute in Hm; discriminate].
  destruct (@merge_inter_font_requires sample_tools _ _ _ _ Hm) as (Hfvar & _ & Hpunc & _).
  exists font. split; [reflexivity|]. split; [exact Hfvar|]. apply Hpunc. lia.
Defined.

Lemma merge_inter_font_copies_glyphs_witness :
  exists font,
    @merge_inter_font sample_tools font_primary_punc font_inter_punc 1 = OK font
    /\ metrics_of font "inter_exclam" = Some (300, 100)
    /\ metrics_of font "uniFF01" = Some (1000, 400).
Proof.
  destruct (@merge_inter_font sample_tools font_primary_punc font_inter_punc 1)
    as [font|e] eqn:Hm; [|vm_compute in Hm; discriminate].
  destruct (@merge_inter_font_copies_glyphs sample_tools _ _ _ _ Hm) as (Hcopy & Hkeep & _).
  exists font. split; [reflexivity|]. split.
  - destruct (Hcopy "exclam") as [Hsome _]; [by_computation|].
    apply (Hsome (300, 100)). reflexivity.
  - rewrite (Hkeep "uniFF01"); [reflexivity|].
    intros (g & Hg & Heq). vm_compute in Heq. discriminate.
Defined.

Lemma merge_inter_font_glyph_order_NoDup_witness :
  exists font,
    @merge_inter_font sample_tools font_primary font_inter 0 = OK font
    /\ NoDup (glyphOrder font).
Proof.
  destruct (@merge_inter_font sample_tools font_primary font_inter 0) as [font|e] eqn:Hm;
    [|vm_compute in Hm; discriminate].
  exists font. split; [reflexivity|].
  apply (@merge_inter_font_glyph_order_NoDup sample_tools _ _ _ _ Hm);
    [by_computation | by_computation |].
  intros name Hname (g & Hg & Heq). subst name.
  cbn in Hname. vm_compute in Hname.
  repeat (apply elem_of_cons in Hname as [Hname|Hname]; [discriminate Hname|]).
  inversion Hname.
Defined.

Lemma merge_inter_font_cmap_witness :
  exists font tables,
    @merge_inter_font sample_tools font_primary_punc font_inter_punc 1 = OK font
    /\ cmap font = Some tables
    /\ (length tables = 2)%nat.
Proof.
  destruct (@merge_inter_font sample_tools font_primary_punc font_inter_punc 1)
    as [font|e] eqn:Hm; [|vm_compute in Hm; discriminate].
  destruct (@merge_inter_font_cmap sample_tools _ _ _ _ Hm)
    as (inter_tables & target_tables & tables & hmtx_table & _ & Htarget & Hfont & _ & Hrel).
  exists font, tables. split; [reflexivity|]. split; [exact Hfont|].
  apply Forall2_length in Hrel. rewrite <- Hrel.
  injection Htarget as <-. reflexivity.
Defined.

Lemma remove_locl_feature_spec_witness :
  GSUB font_gsub = Some gsub_sample /\
  exists font' gsub' fl',
    remove_locl_feature font_gsub = OK font'
    /\ GSUB font' = Some gsub'
    /\ FeatureList gsub' = Some fl'
    /\ map FeatureTag (FeatureRecord fl') = ["ss01"; "liga"].
Proof.
  destruct (remove_locl_feature_spec font_gsub gsub_sample _ _ eq_refl eq_refl eq_refl)
    as (font' & gsub' & fl' & sl' & Hrun & Hgsub & Hfl & _ & Hrecords & _).
  split; [reflexivity|].
  exists font', gsub', fl'. split; [exact Hrun|]. split; [exact Hgsub|].
  split; [exact Hfl|]. rewrite Hrecords. vm_compute. reflexivity.
Defined.

Lemma remap_keeps_glyph_sequences_witness :
  dict_get inter_names "V" = Some "inter_V" /\
  remap inter_names (PyObj [("Input", PyList [PyStr "V"])])
  = PyObj [("Input", PyList [PyStr "V"])].
Proof.
  split; [vm_compute; reflexivity|].
  apply (remap_keeps_glyph_sequences inter_names [("Input", PyList [PyStr "V"])]).
  constructor; [|constructor]. split.
  - cbn. intros Hin.
    repeat (apply elem_of_cons in Hin as [Hin|Hin]; [discriminate Hin|]).
    inversion Hin.
  - exists ["V"]. reflexivity.
Defined.

Lemma build_font_frame_witness :
  exists saved,
    @build_font sample_tools font_gsub
      (mkFontBuildConfig (py_float (1 # 8)) (Some "ss01") None 0 0) = OK saved
    /\ has_table font_gsub "name" = true
    /\ glyphOrder saved = ["uni4E00"; "A"; "A.ss01"]
    /\ cmap saved = cmap font_gsub.
Proof.
  destruct (@build_font sample_tools font_gsub
              (mkFontBuildConfig (py_float (1 # 8)) (Some "ss01") None 0 0))
    as [saved|e] eqn:Hbuild;
    [|vm_compute in Hbuild; discriminate].
  destruct (@build_font_frame sample_tools _ _ _ Hbuild) as (_ & _ & _ & Hname & Hframe).
  destruct (Hframe eq_refl) as (Horder & Hcmap & _).
  exists saved. split; [reflexivity|]. split; [exact Hname|].
  split; [exact Horder | exact Hcmap].
Defined.

Lemma decompose_composites_spec_witness :
  exists font' count,
    @decompose_composites sample_tools font_with_composite = OK (font', count)
    /\ hmtx font' = hmtx font_with_composite
    /\ glyph_of font' "uni4E00" = Some square
    /\ count = 1%nat.
Proof.
  assert (Hpresent : forall glyf_table, glyf font_with_composite = Some glyf_table ->
            Forall (fun n => is_Some (glyf_table !! n)) (glyphOrder font_with_composite)).
  { intros t [= <-]. repeat constructor; eexists; reflexivity. }
  destruct (@decompose_composites_spec sample_tools font_with_composite Hpresent)
    as (font' & count & Hrun & Hhmtx & _ & _ & _ & _ & _ & Hkeep & _ & _ & _ & Hexact).
  exists font', count. split; [exact Hrun|]. split; [exact Hhmtx|]. split.
  - apply Hkeep; reflexivity.
  - rewrite Hexact by by_computation. vm_compute. reflexivity.
Defined.


(** Value records under decimal scales: [50 * 0.47] is the float 23.5,
    which rounds to the even 24, and [45 * 0.7] is just below 31.5. *)
Example adjust_value_record_decimal_scales :
  adjust_value_record (mkTransform (py_float (47 # 100)) 0 0 (py_float (7 # 10)) 0 0)
    (PyObj [("XPlacement", PyInt 50); ("YAdvance", PyInt 45); ("XAdvance", PyNone)])
  = OK (PyObj [("XPlacement", PyInt 24); ("YAdvance", PyInt 31); ("XAdvance", PyNone)],
        true).
Proof. vm_compute. reflexivity. Qed.

Lemma apply_gpos_transform_identity_witness :
  apply_gpos_transform font_kerned Identity = OK (font_kerned, 0%nat).
Proof.
  destruct (apply_gpos_transform font_kerned Identity) as [[font' count]|e] eqn:Hrun;
    [|vm_compute in Hrun; discriminate].
  destruct (apply_gpos_transform_identity _ _ _ Hrun) as [-> ->]. reflexivity.
Defined.

Lemma apply_gpos_transform_frame_witness :
  exists font' count lookups',
    apply_gpos_transform font_kerned
      (mkTransform (py_float (1 # 2)) 0 0 (py_float (1 # 2)) 0 0)
      = OK (font', count)
    /\ GPOS font' = Some (mkOtl (ScriptList gpos_inter) (FeatureList gpos_inter)
                            (Some (mkLookupList 2 lookups')))
    /\ lookups' !! 1%nat = Some lookup_context.
Proof.
  destruct (apply_gpos_transform font_kerned
              (mkTransform (py_float (1 # 2)) 0 0 (py_float (1 # 2)) 0 0))
    as [[font' count]|e] eqn:Hrun; [|vm_compute in Hrun; discriminate].
  destruct (apply_gpos_transform_frame _ _ _ _ Hrun) as (_ & _ & _ & _ & _ & _ & _ & Hgpos).
  destruct (Hgpos _ _ eq_refl eq_refl) as (lookups' & Hfont & _ & _ & Hkeep).
  exists font', count, lookups'. split; [reflexivity|]. split; [exact Hfont|].
  apply (Hkeep 1%nat lookup_context (PyInt 7)); [reflexivity | reflexivity |].
  intros k Hk [= <-]. lia.
Defined.

Lemma apply_glyph_transform_cjk_witness :
  NoDup (glyphOrder font_cjk) /\
  glyph_of font_cjk "uni4E00" = Some square /\
  metrics_of font_cjk "uni4E00" = Some (1000, 50) /\
  exists font',
    @apply_glyph_transform sample_tools font_cjk (translate 10 0) true = OK (font', 1%nat)
    /\ glyph_of font' "uni4E00"
       = Some (mkGlyph (Contours [[(60, 0); (160, 0); (160, 100); (60, 100)]]) None)
    /\ glyph_of font' "A" = Some square.
Proof.
  assert (Hnd : NoDup (glyphOrder font_cjk)) by by_computation.
  assert (Hsimple : Forall (fun n => exists g,
                       ({[ "uni4E00" := square; "A" := square ]} : gmap string Glyph) !! n
                       = Some g /\ isComposite g = false) (glyphOrder font_cjk)).
  { repeat constructor; exists square; split; reflexivity. }
  destruct (@apply_glyph_transform_cjk sample_tools font_cjk (translate 10 0) _ Hnd eq_refl
              Hsimple) as (font' & Hrun & _ & Hredrawn & Hkept).
  split; [exact Hnd|]. split; [reflexivity|]. split; [reflexivity|].
  exists font'. split; [exact Hrun|]. split.
  - rewrite (Hredrawn "uni4E00" square 50); [vm_compute; reflexivity | by_computation
                                            | reflexivity | reflexivity].
  - rewrite (Hkept "A"); [reflexivity|]. intros lsb. vm_compute. discriminate.
Defined.



Lemma apply_stylistic_sets_substitutes_witness :
  exists font',
    apply_stylistic_sets font_gsub "ss01" = OK font'
    /\ glyph_of font' "A" = glyph_of font_gsub "A.ss01"
    /\ metrics_of font' "A" = Some (950, 45)
    /\ metrics_of font' "uni4E00" = Some (1000, 50).
Proof.
  assert (Hpairs : substitution_pairs gsub_sample "ss01" = [("A", "A.ss01")])
    by (vm_compute; reflexivity).
  assert (Happlied : filter (fun sd => sd.1 ∈ glyphOrder font_gsub
                                       /\ sd.2 ∈ glyphOrder font_gsub)
                            (substitution_pairs gsub_sample "ss01") = [("A", "A.ss01")]).
  { rewrite Hpairs. rewrite filter_cons, decide_True; [reflexivity|].
    split; by_computation. }
  destruct (apply_stylistic_sets_substitutes font_gsub "ss01" gsub_sample _ _ _
              eq_refl eq_refl eq_refl eq_refl) as (font' & Hrun & Heffect).
  - intros f lookup_idx Hf Htag Hidx. cbn in Hf.
    repeat (apply elem_of_cons in Hf as [->|Hf]; [try discriminate Htag|]);
      [|inversion Hf].
    cbn in Hidx. apply list_elem_of_singleton in Hidx as ->. eexists. reflexivity.
  - rewrite Happlied. intros sd Hsd. apply list_elem_of_singleton in Hsd as ->.
    split; eexists; reflexivity.
  - rewrite Happlied. intros sd Hsd. apply list_elem_of_singleton in Hsd as ->.
    cbn. intros Hin. apply list_elem_of_singleton in Hin. discriminate Hin.
  - exists font'. split; [exact Hrun|].
    destruct (Heffect "A") as [Hg Hm]. destruct (Heffect "uni4E00") as [_ Hm'].
    rewrite Happlied in Hg, Hm, Hm'. cbn in Hg, Hm, Hm'.
    split; [exact Hg|]. split; [rewrite Hm | rewrite Hm']; reflexivity.
Defined.

Lemma extract_font_skip_decomposition_composite_witness :
  exists e,
    @extract_font sample_tools font_with_composite None (Some (translate 10 0)) true true
    = Raise e.
Proof.
  apply (@extract_font_skip_decomposition_composite sample_tools font_with_composite None
           (translate 10 0) true {[ "uni4E00" := square; "Aacute" := accented ]}
           "Aacute" accented);
    [reflexivity | reflexivity | by_computation | reflexivity | reflexivity].
Defined.
